(** * Wheeler IBKR service: position reconciliation

    A shallow embedding of [ibkr_service/database.py] and
    [ibkr_service/sync_service.py], and the properties of one reconciliation
    pass (sync_positions) over the SQLite store.

    Modelling conventions.
    - Python floats (avg_cost, strike, premium, position) are exact rationals
      in canonical form ([Qc]); rounding is outside the model.
    - Python strings are [string] (one byte per character).
    - The SQLite database is a record of three tables, each a list of rows in
      rowid order.  A date column holds a [date]: [date.isoformat] is
      injective on the dates [datetime.date] can build, and its text order is
      the date order.
    - What the outside world decides during one pass (the broker session, the
      fetched snapshot, faults of the store, the clock) is gathered in [Env].
    - The schema of the Wheeler database is not part of this service.  The
      model takes from the statements of database.py that [id] is the rowid
      of a table ([cursor.lastrowid] is used as the id), that an INSERT
      leaves [closed] NULL, and it stamps [updated_at] on an INSERT as on an
      UPDATE.  A SELECT without ORDER BY returns rows in rowid order, and
      ORDER BY keeps that order among equal keys. *)

From Stdlib Require Import List ZArith QArith Qcanon String Ascii Bool Lia.
Import ListNotations.

Local Open Scope Z_scope.

(* ------------------------------------------------------------------ *)
(** ** Python values and exceptions *)

Module Py.

(** The exceptions one item of the snapshot can raise; the payload is the
    text [str(e)] gives. *)
Inductive Exn : Type :=
| KeyError (key : string)
| ValueError (msg : string)
| ZeroDivisionError (msg : string)
| StoreError (msg : string).

Definition str_exn (e : Exn) : string :=
  match e with
  | KeyError k => ("'" ++ k ++ "'")%string
  | ValueError m => m
  | ZeroDivisionError m => m
  | StoreError m => m
  end.

(** Code that may raise: [inl e] is a raised exception. *)
Definition Exc (A : Type) : Type := (Exn + A)%type.

Definition ret {A} (a : A) : Exc A := inr a.
Definition raise {A} (e : Exn) : Exc A := inl e.
Definition bind {A B} (m : Exc A) (k : A -> Exc B) : Exc B :=
  match m with
  | inl e => inl e
  | inr a => k a
  end.

(** [d[key]] on a dict whose entry may be absent. *)
Definition getitem {A} (key : string) (field : option A) : Exc A :=
  match field with
  | Some v => ret v
  | None => raise (KeyError key)
  end.

(** [d.get(key, default)]. *)
Definition get {A} (field : option A) (default : A) : A :=
  match field with
  | Some v => v
  | None => default
  end.

(** *** [int(s)] for a string *)

Definition is_space (c : ascii) : bool :=
  let n := Z.of_nat (nat_of_ascii c) in
  ((9 <=? n) && (n <=? 13)) || ((28 <=? n) && (n <=? 32)).

Fixpoint lstrip (s : string) : string :=
  match s with
  | EmptyString => EmptyString
  | String c s' => if is_space c then lstrip s' else s
  end.

Fixpoint rev_string (s acc : string) : string :=
  match s with
  | EmptyString => acc
  | String c s' => rev_string s' (String c acc)
  end.

Definition strip (s : string) : string :=
  rev_string (lstrip (rev_string (lstrip s) EmptyString)) EmptyString.

Definition digit_of (c : ascii) : option Z :=
  let n := Z.of_nat (nat_of_ascii c) in
  if (48 <=? n) && (n <=? 57) then Some (n - 48) else None.

(** Decimal digits, single underscores allowed between two digits. *)
Fixpoint parse_digits (s : string) (acc : Z) (after_digit : bool) : option Z :=
  match s with
  | EmptyString => if after_digit then Some acc else None
  | String c s' =>
      match digit_of c with
      | Some d => parse_digits s' (10 * acc + d) true
      | None =>
          if (Ascii.eqb c "_" && after_digit)%bool
          then parse_digits s' acc false
          else None
      end
  end.

Definition parse_int (s : string) : option Z :=
  match strip s with
  | String "+" r => parse_digits r 0 false
  | String "-" r => option_map Z.opp (parse_digits r 0 false)
  | t => parse_digits t 0 false
  end.

Definition int_of_str (s : string) : Exc Z :=
  match parse_int s with
  | Some n => ret n
  | None =>
      raise (ValueError
               ("invalid literal for int() with base 10: '" ++ s ++ "'")%string)
  end.

(** [int(x)] for a float: truncation towards zero. *)
Definition int_of_float (x : Qc) : Z := Z.quot (Qnum x) (Zpos (Qden x)).

(** [s[a:b]] for [0 <= a <= b]. *)
Definition slice (a b : nat) (s : string) : string := substring a (b - a) s.

(** *** [datetime.date] *)

Record date : Type := mkdate { year : Z; month : Z; day : Z }.

Definition is_leap (y : Z) : bool :=
  ((y mod 4 =? 0) && negb (y mod 100 =? 0)) || (y mod 400 =? 0).

Definition days_in_month (y m : Z) : Z :=
  if m =? 2 then (if is_leap y then 29 else 28)
  else if (m =? 4) || (m =? 6) || (m =? 9) || (m =? 11) then 30
  else 31.

(** The constructor [date(y, m, d)], which checks its arguments. *)
Definition mk_date (y m d : Z) : Exc date :=
  if negb ((1 <=? y) && (y <=? 9999))
  then raise (ValueError "year is out of range")
  else if negb ((1 <=? m) && (m <=? 12))
  then raise (ValueError "month must be in 1..12")
  else if negb ((1 <=? d) && (d <=? days_in_month y m))
  then raise (ValueError "day is out of range for month")
  else ret (mkdate y m d).

Definition date_eqb (a b : date) : bool :=
  (year a =? year b) && (month a =? month b) && (day a =? day b).

(** [a < b] on dates, which is also the order of their ISO texts. *)
Definition date_ltb (a b : date) : bool :=
  (year a <? year b)
  || ((year a =? year b)
      && ((month a <? month b)
          || ((month a =? month b) && (day a <? day b)))).

(** Equality of two floats. *)
Definition float_eqb (x y : Qc) : bool := Qeq_bool x y.

End Py.

Import Py.

Declare Scope exc_scope.
Delimit Scope exc_scope with exc.
Notation "x <- m ;; k" := (Py.bind m (fun x => k))
  (at level 61, m at next level, right associativity) : exc_scope.

(* ------------------------------------------------------------------ *)
(** ** SQL statements over a table held as a list of rows *)

Module Sql.

(** [SELECT ... WHERE cond], in rowid order. *)
Definition select_where {Row} (cond : Row -> bool) (rows : list Row) : list Row :=
  filter cond rows.

(** [cursor.fetchone()]: the first row of the result, if any. *)
Definition fetchone {Row} (result : list Row) : option Row := hd_error result.

(** [UPDATE ... SET ... WHERE cond]; [rowcount] is the number of rows the
    condition selects. *)
Definition update_where {Row} (cond : Row -> bool) (set : Row -> Row)
  (rows : list Row) : list Row :=
  map (fun r => if cond r then set r else r) rows.

Definition rowcount {Row} (cond : Row -> bool) (rows : list Row) : Z :=
  Z.of_nat (List.length (filter cond rows)).

(** The rowid an INSERT gives a new row: one more than the largest rowid in
    use, 1 in an empty table. *)
Definition lastrowid (ids : list Z) : Z :=
  match ids with
  | [] => 1
  | i :: rest => fold_left Z.max rest i + 1
  end.

(** [ORDER BY key DESC] as a stable insertion sort: rows with equal keys keep
    their rowid order. *)
Fixpoint insert_desc {Row} (ltb : Row -> Row -> bool) (r : Row) (sorted : list Row)
  : list Row :=
  match sorted with
  | [] => [r]
  | e :: rest => if ltb r e then e :: insert_desc ltb r rest else r :: sorted
  end.

Fixpoint order_by_desc {Row} (ltb : Row -> Row -> bool) (rows : list Row)
  : list Row :=
  match rows with
  | [] => []
  | r :: rest => insert_desc ltb r (order_by_desc ltb rest)
  end.

End Sql.

(* ------------------------------------------------------------------ *)
(** ** database.py *)

Inductive OptionType : Type := Call | Put.

Definition OptionType_eqb (a b : OptionType) : bool :=
  match a, b with
  | Call, Call | Put, Put => true
  | _, _ => false
  end.

(** A row of the [options] table. *)
Record OptionRow : Type := mkOptionRow {
  o_id : Z;
  o_symbol : string;
  o_type : OptionType;
  o_opened : date;
  o_strike : Qc;
  o_expiration : date;
  o_premium : Qc;
  o_contracts : Z;
  o_closed : option date;
  o_updated_at : Z
}.

(** A row of the [long_positions] table. *)
Record LongRow : Type := mkLongRow {
  l_id : Z;
  l_symbol : string;
  l_opened : date;
  l_shares : Z;
  l_buy_price : Qc;
  l_closed : option date;
  l_updated_at : Z
}.

Record Store : Type := mkStore {
  symbols : list string;
  options : list OptionRow;
  long_positions : list LongRow
}.

(** [date.today()] and [CURRENT_TIMESTAMP] / [datetime.now()]; one reading
    serves a whole pass. *)
Record Clock : Type := mkClock { today : date; now : Z }.

Definition is_null {A} (v : option A) : bool :=
  match v with
  | None => true
  | Some _ => false
  end.

Definition set_options (db : Store) (rows : list OptionRow) : Store :=
  mkStore (symbols db) rows (long_positions db).

Definition set_long_positions (db : Store) (rows : list LongRow) : Store :=
  mkStore (symbols db) (options db) rows.

(** [INSERT OR IGNORE INTO symbols (symbol) VALUES (?)]. *)
Definition ensure_symbol_exists (db : Store) (symbol : string) : Store :=
  if existsb (String.eqb symbol) (symbols db)
  then db
  else mkStore (symbols db ++ [symbol]) (options db) (long_positions db).

(** [WHERE symbol = ? AND type = ? AND strike = ? AND expiration = ? AND
    closed IS NULL]. *)
Definition option_where (symbol : string) (option_type : OptionType)
  (strike : Qc) (expiration : date) (r : OptionRow) : bool :=
  String.eqb (o_symbol r) symbol
  && OptionType_eqb (o_type r) option_type
  && float_eqb (o_strike r) strike
  && date_eqb (o_expiration r) expiration
  && is_null (o_closed r).

(** [SET contracts = ?, premium = ?, updated_at = CURRENT_TIMESTAMP]. *)
Definition option_set (contracts : Z) (premium : Qc) (ts : Z) (r : OptionRow)
  : OptionRow :=
  mkOptionRow (o_id r) (o_symbol r) (o_type r) (o_opened r) (o_strike r)
    (o_expiration r) premium contracts (o_closed r) ts.

Definition sync_option_position (clk : Clock) (db : Store)
  (symbol : string) (option_type : OptionType) (strike : Qc)
  (expiration : date) (contracts : Z) (premium : Qc) : Store * Z :=
  let db := ensure_symbol_exists db symbol in
  let opened_date := today clk in
  let existing :=
    Sql.fetchone
      (Sql.select_where (option_where symbol option_type strike expiration)
         (options db)) in
  match existing with
  | Some e =>
      (set_options db
         (Sql.update_where (fun r => o_id r =? o_id e)
            (option_set contracts premium (now clk)) (options db)),
       o_id e)
  | None =>
      let option_id := Sql.lastrowid (map o_id (options db)) in
      (set_options db
         (options db ++
            [mkOptionRow option_id symbol option_type opened_date strike
               expiration premium contracts None (now clk)]),
       option_id)
  end.

(** [WHERE symbol = ? AND closed IS NULL]. *)
Definition long_where (symbol : string) (r : LongRow) : bool :=
  String.eqb (l_symbol r) symbol && is_null (l_closed r).

(** [SET shares = ?, buy_price = ?, updated_at = CURRENT_TIMESTAMP]. *)
Definition long_set (shares : Z) (buy_price : Qc) (ts : Z) (r : LongRow)
  : LongRow :=
  mkLongRow (l_id r) (l_symbol r) (l_opened r) shares buy_price (l_closed r) ts.

Definition opened_ltb (a b : LongRow) : bool := date_ltb (l_opened a) (l_opened b).

Definition sync_long_position (clk : Clock) (db : Store)
  (symbol : string) (shares : Z) (buy_price : Qc) : Store * Z :=
  let db := ensure_symbol_exists db symbol in
  let opened_date := today clk in
  let existing :=
    Sql.fetchone
      (Sql.order_by_desc opened_ltb
         (Sql.select_where (long_where symbol) (long_positions db))) in
  match existing with
  | Some e =>
      (set_long_positions db
         (Sql.update_where (fun r => l_id r =? l_id e)
            (long_set shares buy_price (now clk)) (long_positions db)),
       l_id e)
  | None =>
      let position_id := Sql.lastrowid (map l_id (long_positions db)) in
      (set_long_positions db
         (long_positions db ++
            [mkLongRow position_id symbol opened_date shares buy_price None
               (now clk)]),
       position_id)
  end.

(** [SET closed = ?, updated_at = CURRENT_TIMESTAMP]. *)
Definition option_close (clk : Clock) (r : OptionRow) : OptionRow :=
  mkOptionRow (o_id r) (o_symbol r) (o_type r) (o_opened r) (o_strike r)
    (o_expiration r) (o_premium r) (o_contracts r) (Some (today clk)) (now clk).

Definition long_close (clk : Clock) (r : LongRow) : LongRow :=
  mkLongRow (l_id r) (l_symbol r) (l_opened r) (l_shares r) (l_buy_price r)
    (Some (today clk)) (now clk).

Definition o_open (r : OptionRow) : bool := is_null (o_closed r).
Definition l_open (r : LongRow) : bool := is_null (l_closed r).

(** [WHERE closed IS NULL AND id NOT IN (...)]. *)
Definition option_missing (current_option_ids : list Z) (r : OptionRow) : bool :=
  o_open r && negb (existsb (Z.eqb (o_id r)) current_option_ids).

(** [WHERE closed IS NULL AND symbol NOT IN (...)]. *)
Definition long_missing (current_symbols : list string) (r : LongRow) : bool :=
  l_open r && negb (existsb (String.eqb (l_symbol r)) current_symbols).

Definition close_missing_options (clk : Clock) (db : Store)
  (current_option_ids : list Z) : Store * Z :=
  match current_option_ids with
  | [] =>
      (set_options db (Sql.update_where o_open (option_close clk) (options db)),
       Sql.rowcount o_open (options db))
  | _ =>
      (set_options db
         (Sql.update_where (option_missing current_option_ids)
            (option_close clk) (options db)),
       Sql.rowcount (option_missing current_option_ids) (options db))
  end.

Definition close_missing_long_positions (clk : Clock) (db : Store)
  (current_symbols : list string) : Store * Z :=
  match current_symbols with
  | [] =>
      (set_long_positions db
         (Sql.update_where l_open (long_close clk) (long_positions db)),
       Sql.rowcount l_open (long_positions db))
  | _ =>
      (set_long_positions db
         (Sql.update_where (long_missing current_symbols)
            (long_close clk) (long_positions db)),
       Sql.rowcount (long_missing current_symbols) (long_positions db))
  end.

Record DbStatus : Type := mkDbStatus {
  open_options : Z;
  open_positions : Z;
  total_symbols : Z
}.

Definition get_sync_status (db : Store) : DbStatus :=
  mkDbStatus
    (Sql.rowcount o_open (options db))
    (Sql.rowcount l_open (long_positions db))
    (Z.of_nat (List.length (nodup string_dec (symbols db)))).

(* ------------------------------------------------------------------ *)
(** ** sync_service.py *)

(** One dict of the list [ibkr_client.get_positions] returns.  An absent key
    is [None]; a present value has the type the client gives it. *)
Record Position : Type := mkPosition {
  pos_symbol : option string;
  pos_sec_type : option string;
  pos_position : option Qc;
  pos_avg_cost : option Qc;
  pos_strike : option Qc;
  pos_expiration : option string;
  pos_right : option string;
  pos_multiplier : option Z
}.

(** The [result] dict of [sync_positions]. *)
Record SyncResult : Type := mkResult {
  success : bool;
  synced_at : option Z;
  options_synced : Z;
  positions_synced : Z;
  options_closed : Z;
  positions_closed : Z;
  errors : list string
}.

(** The fields of a [SyncService] instance. *)
Record SyncService : Type := mkService {
  last_sync : option Z;
  last_sync_result : option SyncResult
}.

(** What the collaborators answer during one call of the service.
    - [is_connected], [connect]: the broker session and the outcome of a
      connection attempt ([ibkr_client.connect] returns a bool, it does not
      raise);
    - [get_positions]: the snapshot, or the message of the exception raised;
    - [get_db_connection], [item_fault], [close_options_fault],
      [close_long_fault]: the message of the exception a store call raises,
      if it does; [item_fault i] is for the sync call of the [i]-th item of
      the snapshot.  A store call that raises leaves the tables as they were. *)
Record Env : Type := mkEnv {
  is_connected : bool;
  connect : bool;
  get_positions : string + list Position;
  get_db_connection : option string;
  item_fault : nat -> option string;
  close_options_fault : option string;
  close_long_fault : option string;
  clock : Clock
}.

Definition add_error (r : SyncResult) (msg : string) : SyncResult :=
  mkResult (success r) (synced_at r) (options_synced r) (positions_synced r)
    (options_closed r) (positions_closed r) (errors r ++ [msg]).

Definition incr_options_synced (r : SyncResult) : SyncResult :=
  mkResult (success r) (synced_at r) (options_synced r + 1) (positions_synced r)
    (options_closed r) (positions_closed r) (errors r).

Definition incr_positions_synced (r : SyncResult) : SyncResult :=
  mkResult (success r) (synced_at r) (options_synced r) (positions_synced r + 1)
    (options_closed r) (positions_closed r) (errors r).

Definition set_options_closed (r : SyncResult) (n : Z) : SyncResult :=
  mkResult (success r) (synced_at r) (options_synced r) (positions_synced r)
    n (positions_closed r) (errors r).

Definition set_positions_closed (r : SyncResult) (n : Z) : SyncResult :=
  mkResult (success r) (synced_at r) (options_synced r) (positions_synced r)
    (options_closed r) n (errors r).

Definition set_success (r : SyncResult) (ts : Z) : SyncResult :=
  mkResult true (Some ts) (options_synced r) (positions_synced r)
    (options_closed r) (positions_closed r) (errors r).

Definition initial_result : SyncResult := mkResult false None 0 0 0 0 [].

(** [pos["avg_cost"] / multiplier]. *)
Definition float_div (x : Qc) (d : Z) : Exc Qc :=
  if d =? 0
  then raise (ZeroDivisionError "float division by zero")
  else ret (x / Q2Qc (inject_Z d))%Qc.

(** A call into database.py that either raises or returns. *)
Definition store_call {A} (fault : option string) (v : A) : Exc A :=
  match fault with
  | Some msg => raise (StoreError msg)
  | None => ret v
  end.

(** [option_type = "Call" if pos["right"] == "C" else "Put"]. *)
Definition option_type_of (rt : string) : OptionType :=
  if String.eqb rt "C" then Call else Put.

(** [date(int(exp_str[:4]), int(exp_str[4:6]), int(exp_str[6:8]))]. *)
Definition parse_expiration (exp_str : string) : Exc date :=
  (y <- int_of_str (slice 0 4 exp_str) ;;
   m <- int_of_str (slice 4 6 exp_str) ;;
   d <- int_of_str (slice 6 8 exp_str) ;;
   mk_date y m d)%exc.

(** The variables of the loop in [sync_positions]. *)
Record LoopState : Type := mkLoop {
  st_db : Store;
  st_option_ids : list Z;
  st_stock_symbols : list string;
  st_result : SyncResult
}.

(** The body of the inner [try]: one item of the snapshot. *)
Definition sync_item (env : Env) (i : nat) (pos : Position) (st : LoopState)
  : Exc LoopState :=
  (sec_type <- getitem "sec_type" (pos_sec_type pos) ;;
   if String.eqb sec_type "OPT" then
     rt <- getitem "right" (pos_right pos) ;;
     let option_type := option_type_of rt in
     exp_str <- getitem "expiration" (pos_expiration pos) ;;
     expiration <- parse_expiration exp_str ;;
     let multiplier := get (pos_multiplier pos) 100 in
     avg_cost <- getitem "avg_cost" (pos_avg_cost pos) ;;
     premium_per_contract <- float_div avg_cost multiplier ;;
     symbol <- getitem "symbol" (pos_symbol pos) ;;
     strike <- getitem "strike" (pos_strike pos) ;;
     position <- getitem "position" (pos_position pos) ;;
     r <- store_call (item_fault env i)
            (sync_option_position (clock env) (st_db st) symbol option_type
               strike expiration (Z.abs (int_of_float position))
               premium_per_contract) ;;
     ret (mkLoop (fst r) (st_option_ids st ++ [snd r]) (st_stock_symbols st)
            (incr_options_synced (st_result st)))
   else if String.eqb sec_type "STK" then
     symbol <- getitem "symbol" (pos_symbol pos) ;;
     position <- getitem "position" (pos_position pos) ;;
     buy_price <- getitem "avg_cost" (pos_avg_cost pos) ;;
     r <- store_call (item_fault env i)
            (sync_long_position (clock env) (st_db st) symbol
               (int_of_float position) buy_price) ;;
     ret (mkLoop (fst r) (st_option_ids st) (st_stock_symbols st ++ [symbol])
            (incr_positions_synced (st_result st)))
   else ret st)%exc.

(** [f"Error syncing position {pos.get('symbol', 'unknown')}: {e}"]. *)
Definition item_error (pos : Position) (e : Exn) : string :=
  ("Error syncing position " ++ get (pos_symbol pos) "unknown" ++ ": "
   ++ str_exn e)%string.

(** One turn of the loop, with the inner [except]. *)
Definition loop_body (env : Env) (i : nat) (pos : Position) (st : LoopState)
  : LoopState :=
  match sync_item env i pos st with
  | inr st' => st'
  | inl e =>
      mkLoop (st_db st) (st_option_ids st) (st_stock_symbols st)
        (add_error (st_result st) (item_error pos e))
  end.

(** [for pos in positions], the items numbered from [i]. *)
Fixpoint sync_loop (env : Env) (i : nat) (positions : list Position)
  (st : LoopState) : LoopState :=
  match positions with
  | [] => st
  | pos :: rest => sync_loop env (S i) rest (loop_body env i pos st)
  end.

Definition sync_failed (r : SyncResult) (msg : string) : SyncResult :=
  add_error r ("Sync failed: " ++ msg)%string.

(** The part of [sync_positions] inside the outer [try], after the
    connection: the result dict and the store it leaves. *)
Definition reconcile (env : Env) (db : Store) : SyncResult * Store :=
  match get_positions env with
  | inl msg => (sync_failed initial_result msg, db)
  | inr positions =>
      match get_db_connection env with
      | Some msg => (sync_failed initial_result msg, db)
      | None =>
          let st := sync_loop env 0 positions (mkLoop db [] [] initial_result) in
          match close_options_fault env with
          | Some msg => (sync_failed (st_result st) msg, st_db st)
          | None =>
              let oc := close_missing_options (clock env) (st_db st)
                          (st_option_ids st) in
              let result := set_options_closed (st_result st) (snd oc) in
              match close_long_fault env with
              | Some msg => (sync_failed result msg, fst oc)
              | None =>
                  let pc := close_missing_long_positions (clock env) (fst oc)
                              (st_stock_symbols st) in
                  (set_success (set_positions_closed result (snd pc))
                     (now (clock env)),
                   fst pc)
              end
          end
      end
  end.

(** [SyncService.sync_positions]: the returned dict, the service instance
    and the store after the call. *)
Definition sync_positions (env : Env) (self : SyncService) (db : Store)
  : SyncResult * SyncService * Store :=
  if negb (is_connected env) && negb (connect env)
  then (add_error initial_result "Failed to connect to IBKR", self, db)
  else
    let rd := reconcile env db in
    (fst rd, mkService (Some (now (clock env))) (Some (fst rd)), snd rd).

(** The dict [SyncService.get_status] returns. *)
Record Status : Type := mkStatus {
  status_connected : bool;
  status_last_sync : option Z;
  status_last_sync_result : option SyncResult;
  status_database : string + DbStatus
}.

Definition get_status (env : Env) (self : SyncService) (db : Store) : Status :=
  mkStatus (is_connected env) (last_sync self) (last_sync_result self)
    (match get_db_connection env with
     | Some msg => inl msg
     | None => inr (get_sync_status db)
     end).

(* ------------------------------------------------------------------ *)
(** ** What one item asks of the store *)

(** The store call one item of the snapshot leads to, with its arguments
    evaluated. *)
Inductive Action : Type :=
| SyncOption (symbol : string) (option_type : OptionType) (strike : Qc)
    (expiration : date) (contracts : Z) (premium : Qc)
| SyncLong (symbol : string) (shares : Z) (buy_price : Qc)
| Ignore.

(** The statements of the loop body up to the store call. *)
Definition item_action (pos : Position) : Exc Action :=
  (sec_type <- getitem "sec_type" (pos_sec_type pos) ;;
   if String.eqb sec_type "OPT" then
     rt <- getitem "right" (pos_right pos) ;;
     exp_str <- getitem "expiration" (pos_expiration pos) ;;
     expiration <- parse_expiration exp_str ;;
     avg_cost <- getitem "avg_cost" (pos_avg_cost pos) ;;
     premium_per_contract <- float_div avg_cost (get (pos_multiplier pos) 100) ;;
     symbol <- getitem "symbol" (pos_symbol pos) ;;
     strike <- getitem "strike" (pos_strike pos) ;;
     position <- getitem "position" (pos_position pos) ;;
     ret (SyncOption symbol (option_type_of rt) strike expiration
            (Z.abs (int_of_float position)) premium_per_contract)
   else if String.eqb sec_type "STK" then
     symbol <- getitem "symbol" (pos_symbol pos) ;;
     position <- getitem "position" (pos_position pos) ;;
     buy_price <- getitem "avg_cost" (pos_avg_cost pos) ;;
     ret (SyncLong symbol (int_of_float position) buy_price)
   else ret Ignore)%exc.

(** The same with the fault of the store call, if it meets one. *)
Definition item_outcome (env : Env) (i : nat) (pos : Position) : Exc Action :=
  (a <- item_action pos ;;
   match a with
   | Ignore => ret a
   | _ => store_call (item_fault env i) a
   end)%exc.

(** The effect of a store call that returns on the variables of the loop. *)
Definition apply_action (clk : Clock) (a : Action) (st : LoopState) : LoopState :=
  match a with
  | SyncOption symbol option_type strike expiration contracts premium =>
      let r := sync_option_position clk (st_db st) symbol option_type strike
                 expiration contracts premium in
      mkLoop (fst r) (st_option_ids st ++ [snd r]) (st_stock_symbols st)
        (incr_options_synced (st_result st))
  | SyncLong symbol shares buy_price =>
      let r := sync_long_position clk (st_db st) symbol shares buy_price in
      mkLoop (fst r) (st_option_ids st) (st_stock_symbols st ++ [symbol])
        (incr_positions_synced (st_result st))
  | Ignore => st
  end.

Definition record_error (pos : Position) (e : Exn) (st : LoopState) : LoopState :=
  mkLoop (st_db st) (st_option_ids st) (st_stock_symbols st)
    (add_error (st_result st) (item_error pos e)).

(** ** Identity keys *)

Definition OptionKey : Type := (string * OptionType * Qc * date)%type.

Definition option_key (r : OptionRow) : OptionKey :=
  (o_symbol r, o_type r, o_strike r, o_expiration r).

(** The identity keys of the open rows of the two tables. *)
Definition open_option_keys (db : Store) : list OptionKey :=
  map option_key (filter o_open (options db)).

Definition open_long_symbols (db : Store) : list string :=
  map l_symbol (filter l_open (long_positions db)).

(** The identity key an item of the snapshot carries, when it is an option
    item whose symbol, right, strike and expiration can be read. *)
Definition position_option_key (pos : Position) : option OptionKey :=
  match pos_sec_type pos, pos_right pos, pos_expiration pos,
        pos_symbol pos, pos_strike pos with
  | Some sec_type, Some rt, Some exp_str, Some symbol, Some strike =>
      if String.eqb sec_type "OPT" then
        match parse_expiration exp_str with
        | inr expiration => Some (symbol, option_type_of rt, strike, expiration)
        | inl _ => None
        end
      else None
  | _, _, _, _, _ => None
  end.

Definition position_stock_symbol (pos : Position) : option string :=
  match pos_sec_type pos with
  | Some sec_type =>
      if String.eqb sec_type "OPT" then None
      else if String.eqb sec_type "STK" then pos_symbol pos
      else None
  | None => None
  end.

Definition somes {A} (l : list (option A)) : list A :=
  flat_map (fun o => match o with Some a => [a] | None => [] end) l.

Definition snapshot_option_keys (positions : list Position) : list OptionKey :=
  somes (map position_option_key positions).

Definition snapshot_stock_symbols (positions : list Position) : list string :=
  somes (map position_stock_symbol positions).

Definition is_option_item (pos : Position) : bool :=
  match pos_sec_type pos with
  | Some t => String.eqb t "OPT"
  | None => false
  end.

Definition is_stock_item (pos : Position) : bool :=
  match pos_sec_type pos with
  | Some t => negb (String.eqb t "OPT") && String.eqb t "STK"
  | None => false
  end.

(** A broker session exists or the connection attempt succeeds. *)
Definition session_ok (env : Env) : bool := is_connected env || connect env.

(** [s] occurs in [msg]. *)
Definition contains (msg s : string) : Prop :=
  exists pre post : string, msg = (pre ++ s ++ post)%string.

(** Several passes in a row, each with its own environment. *)
Fixpoint run_passes (envs : list Env) (self : SyncService) (db : Store)
  : SyncService * Store :=
  match envs with
  | [] => (self, db)
  | env :: rest =>
      let r := sync_positions env self db in
      run_passes rest (snd (fst r)) (snd r)
  end.

(** The final state of the loop of a pass over [positions]. *)
Definition loop_end (env : Env) (db : Store) (positions : list Position)
  : LoopState :=
  sync_loop env 0 positions (mkLoop db [] [] initial_result).

(** No two open option rows share an identity key. *)
Definition unique_open_keys (db : Store) : Prop := NoDup (open_option_keys db).

(** ** Concrete stores and snapshots *)

Module Scenario.

Definition clk : Clock := mkClock (mkdate 2024 3 1) 1709300000.

Definition no_service : SyncService := mkService None None.

Definition empty_db : Store := mkStore [] [] [].

(** A connected session that returns [positions]; no store call fails. *)
Definition env_of (positions : list Position) : Env :=
  mkEnv true false (inr positions) None (fun _ => None) None None clk.

(** An option item as [get_positions] builds it. *)
Definition opt_item (symbol rt expiration : string) (strike position avg_cost : Q)
  (multiplier : Z) : Position :=
  mkPosition (Some symbol) (Some "OPT"%string) (Some (Q2Qc position))
    (Some (Q2Qc avg_cost)) (Some (Q2Qc strike)) (Some expiration) (Some rt)
    (Some multiplier).

Definition stk_item (symbol : string) (position avg_cost : Q) : Position :=
  mkPosition (Some symbol) (Some "STK"%string) (Some (Q2Qc position))
    (Some (Q2Qc avg_cost)) None None None None.

(** The store of the first scenario of the specification: one open row
    (AAPL, Put, 150, 2024-06-21, contracts = 2, premium = 3.50). *)
Definition aapl_row : OptionRow :=
  mkOptionRow 1 "AAPL" Put (mkdate 2024 1 15) (Q2Qc 150) (mkdate 2024 6 21)
    (Q2Qc (7 # 2)) 2 None 1705300000.

Definition aapl_db : Store := mkStore ["AAPL"%string] [aapl_row] [].

(** The same option, short 3 contracts, cost basis 375, multiplier 100. *)
Definition aapl_short : Position := opt_item "AAPL" "P" "20240621" 150 (-3) 375 100.

(** The columns of an option row, the rationals as fractions. *)
Definition view (r : OptionRow) :=
  (o_id r, o_symbol r, o_type r, this (o_strike r), o_expiration r,
   this (o_premium r), o_contracts r, o_closed r).

(** An option item whose right code is spelled out. *)
Definition aapl_call_spelled : Position :=
  opt_item "AAPL" "CALL" "20240621" 150 1 250 100.

(** An option item with a zero multiplier. *)
Definition aapl_zero_multiplier : Position :=
  opt_item "AAPL" "P" "20240621" 150 1 250 0.

(** A pass whose closure step finds the database locked. *)
Definition env_locked_at_closure : Env :=
  mkEnv true false (inr [aapl_short]) None (fun _ => None)
    (Some "database is locked"%string) None clk.

(** The store of the second scenario: one open share row
    (MSFT, shares = 100, buy_price = 310.00), next to the AAPL option. *)
Definition msft_row : LongRow :=
  mkLongRow 1 "MSFT" (mkdate 2023 11 6) 100 (Q2Qc 310) None 1699260000.

Definition portfolio_db : Store :=
  mkStore ["AAPL"%string; "MSFT"%string] [aapl_row] [msft_row].

(** A snapshot in which two items share an option key and two share a
    symbol, and one item cannot be synced. *)
Definition doubled_snapshot : list Position :=
  [aapl_short; opt_item "AAPL" "P" "20240621" 150 5 400 100;
   stk_item "MSFT" 100 310; stk_item "MSFT" 50 300; aapl_zero_multiplier].

(** The same kind of pass a day later. *)
Definition clk_next_day : Clock := mkClock (mkdate 2024 3 2) 1709386400.

Definition env_next_day (positions : list Position) : Env :=
  mkEnv true false (inr positions) None (fun _ => None) None None clk_next_day.

(** An option item whose expiration is not in YYYYMMDD form. *)
Definition tsla_bad_expiration : Position :=
  opt_item "TSLA" "C" "2024-06-21" 200 1 900 100.

Definition msft_stock : Position := stk_item "MSFT" 100 310.

End Scenario.

(** The second sentence of the first scenario: the short item meets the open
    AAPL row, which is updated in place and stays open. *)
Definition short_put_scenario : Prop :=
  let r := sync_positions (Scenario.env_of [Scenario.aapl_short])
             Scenario.no_service Scenario.aapl_db in
  map Scenario.view (options (snd r)) =
    [(1, "AAPL"%string, Put, 150 # 1, mkdate 2024 6 21, 15 # 4, 3, None)] /\
  options_synced (fst (fst r)) = 1 /\
  options_closed (fst (fst r)) = 0 /\
  errors (fst (fst r)) = [] /\
  success (fst (fst r)) = true.

(** ** The select-then-update-or-insert pattern

    [sync_option_position] and [sync_long_position] have one shape: select
    the open rows matching an identity key, take the first in some order,
    update that row by id, or insert a new row when there is none. *)

Section Upsert.

Context {Row Key Payload : Type}.
Variable row_id : Row -> Z.
Variable matches : Key -> Row -> bool.
Variable order : list Row -> list Row.
Variable write : Payload -> Row -> Row.
Variable fresh : Z -> Key -> Payload -> Row.

Definition select (k : Key) (rows : list Row) : option Row :=
  Sql.fetchone (order (Sql.select_where (matches k) rows)).

Definition upsert (rows : list Row) (a : Key * Payload) : list Row * Z :=
  match select (fst a) rows with
  | Some e =>
      (Sql.update_where (fun r => row_id r =? row_id e) (write (snd a)) rows,
       row_id e)
  | None =>
      let i := Sql.lastrowid (map row_id rows) in
      (rows ++ [fresh i (fst a) (snd a)], i)
  end.

(** A sequence of such calls; the ids they return, in order. *)
Fixpoint upserts (rows : list Row) (acts : list (Key * Payload))
  : list Row * list Z :=
  match acts with
  | [] => (rows, [])
  | a :: rest =>
      let r := upsert rows a in
      let r' := upserts (fst r) rest in
      (fst r', snd r :: snd r')
  end.

(** The id of the row a key selects. *)
Definition target (rows : list Row) (k : Key) : option Z :=
  option_map row_id (select k rows).

(** The call [a] on the table [rows] updates the row [r]. *)
Definition touches (rows : list Row) (r : Row) (a : Key * Payload) : bool :=
  match target rows (fst a) with
  | Some i => row_id r =? i
  | None => false
  end.

(** What a call does to one row when its key selects a row of [rows]. *)
Definition replay1 (rows : list Row) (r : Row) (a : Key * Payload) : Row :=
  if touches rows r a then write (snd a) r else r.

Definition replay (rows : list Row) (acts : list (Key * Payload)) (r : Row) : Row :=
  fold_left (replay1 rows) acts r.

(** The id is a primary key. *)
Definition row_ids_unique (rows : list Row) : Prop := NoDup (map row_id rows).

End Upsert.

(** The two instances. *)

Definition OptionPayload : Type := (Z * Qc)%type.

Definition option_matches (k : OptionKey) (r : OptionRow) : bool :=
  let '(symbol, ty, strike, expiration) := k in
  option_where symbol ty strike expiration r.

Definition option_write (clk : Clock) (p : OptionPayload) (r : OptionRow)
  : OptionRow :=
  option_set (fst p) (snd p) (now clk) r.

Definition option_fresh (clk : Clock) (i : Z) (k : OptionKey) (p : OptionPayload)
  : OptionRow :=
  let '(symbol, ty, strike, expiration) := k in
  mkOptionRow i symbol ty (today clk) strike expiration (snd p) (fst p) None
    (now clk).

Definition option_upserts (clk : Clock) :=
  upserts o_id option_matches (fun rows => rows) (option_write clk)
    (option_fresh clk).

Definition LongPayload : Type := (Z * Qc)%type.

Definition long_write (clk : Clock) (p : LongPayload) (r : LongRow) : LongRow :=
  long_set (fst p) (snd p) (now clk) r.

Definition long_fresh (clk : Clock) (i : Z) (symbol : string) (p : LongPayload)
  : LongRow :=
  mkLongRow i symbol (today clk) (fst p) (snd p) None (now clk).

Definition long_upserts (clk : Clock) :=
  upserts l_id long_where (Sql.order_by_desc opened_ltb) (long_write clk)
    (long_fresh clk).

(** The columns of a row other than [updated_at]. *)
Definition option_data (r : OptionRow) :=
  (o_id r, option_key r, o_opened r, o_premium r, o_contracts r, o_closed r).

Definition long_data (r : LongRow) :=
  (l_id r, l_symbol r, l_opened r, l_shares r, l_buy_price r, l_closed r).

(** ** The loop as a sequence of store calls *)

(** The items of a snapshot with what becomes of each. *)
Fixpoint outcomes (env : Env) (i : nat) (positions : list Position)
  : list (Position * Exc Action) :=
  match positions with
  | [] => []
  | pos :: rest => (pos, item_outcome env i pos) :: outcomes env (S i) rest
  end.

(** The store calls that return, in order. *)
Definition actions (l : list (Position * Exc Action)) : list Action :=
  flat_map (fun po => match snd po with inr a => [a] | inl _ => [] end) l.

(** The messages of the items that fail, in order. *)
Definition error_list (l : list (Position * Exc Action)) : list string :=
  flat_map (fun po => match snd po with
                      | inr _ => []
                      | inl e => [item_error (fst po) e]
                      end) l.

Definition run_actions (clk : Clock) (acts : list Action) (st : LoopState)
  : LoopState :=
  fold_left (fun st a => apply_action clk a st) acts st.

Definition with_errors (st : LoopState) (errs : list string) : LoopState :=
  mkLoop (st_db st) (st_option_ids st) (st_stock_symbols st)
    (mkResult (success (st_result st)) (synced_at (st_result st))
       (options_synced (st_result st)) (positions_synced (st_result st))
       (options_closed (st_result st)) (positions_closed (st_result st))
       (errors (st_result st) ++ errs)).

Definition option_acts (acts : list Action) : list (OptionKey * OptionPayload) :=
  flat_map (fun a => match a with
                     | SyncOption symbol ty strike expiration contracts premium =>
                         [((symbol, ty, strike, expiration), (contracts, premium))]
                     | _ => []
                     end) acts.

Definition long_acts (acts : list Action) : list (string * LongPayload) :=
  flat_map (fun a => match a with
                     | SyncLong symbol shares buy_price =>
                         [(symbol, (shares, buy_price))]
                     | _ => []
                     end) acts.

(** Every table has a primary key: no two rows of a table share an id. *)
Definition wf_store (db : Store) : Prop :=
  NoDup (map o_id (options db)) /\ NoDup (map l_id (long_positions db)).

(** No store call raises during the pass. *)
Definition no_store_fault (env : Env) : Prop :=
  get_db_connection env = None /\ (forall i, item_fault env i = None) /\
  close_options_fault env = None /\ close_long_fault env = None.

(** The row an identity key selects, for each table. *)
Definition option_select : OptionKey -> list OptionRow -> option OptionRow :=
  select option_matches (fun rows => rows).

Definition long_select : string -> list LongRow -> option LongRow :=
  select long_where (Sql.order_by_desc opened_ltb).

(** The symbols table after [ensure_symbol_exists]. *)
Definition add_symbol (syms : list string) (symbol : string) : list string :=
  if existsb (String.eqb symbol) syms then syms else syms ++ [symbol].

Definition action_symbols (acts : list Action) : list string :=
  flat_map (fun a => match a with
                     | SyncOption symbol _ _ _ _ _ => [symbol]
                     | SyncLong symbol _ _ => [symbol]
                     | Ignore => []
                     end) acts.

(** The end of a pass whose loop ended in [st]: the two closure statements
    and the last updates of the result dict. *)
Definition finish (env : Env) (st : LoopState) : SyncResult * Store :=
  let oc := close_missing_options (clock env) (st_db st) (st_option_ids st) in
  let pc := close_missing_long_positions (clock env) (fst oc)
              (st_stock_symbols st) in
  (set_success
     (set_positions_closed (set_options_closed (st_result st) (snd oc)) (snd pc))
     (now (clock env)),
   fst pc).

(** The environment of a pass over [positions] in which no item meets a
    fault of the store; everything else as in [env]. *)
Definition without_item_faults (env : Env) (positions : list Position) : Env :=
  mkEnv (is_connected env) (connect env) (inr positions) (get_db_connection env)
    (fun _ => None) (close_options_fault env) (close_long_fault env) (clock env).

(** The store calls of a snapshot when the store raises on none of them. *)
Definition snapshot_actions (positions : list Position) : list Action :=
  actions (map (fun pos => (pos, item_action pos)) positions).

(** ** The store through a pass, call by call *)

(** The store after the store call of an item. *)
Definition action_db (clk : Clock) (a : Action) (db : Store) : Store :=
  match a with
  | SyncOption symbol option_type strike expiration contracts premium =>
      fst (sync_option_position clk db symbol option_type strike expiration
             contracts premium)
  | SyncLong symbol shares buy_price =>
      fst (sync_long_position clk db symbol shares buy_price)
  | Ignore => db
  end.

(** The columns no statement of database.py writes after the INSERT. *)
Definition option_identity (r : OptionRow) := (o_id r, option_key r, o_opened r).

Definition long_identity (r : LongRow) := (l_id r, l_symbol r, l_opened r).

(** Every row of the two position tables names a row of [symbols]. *)
Definition symbols_cover (db : Store) : Prop :=
  (forall r, In r (options db) -> In (o_symbol r) (symbols db)) /\
  (forall r, In r (long_positions db) -> In (l_symbol r) (symbols db)).

(** [db'] has the rows of [db], in place, up to the columns a pass may
    write, and possibly more rows after them. *)
Definition extends (db db' : Store) : Prop :=
  (exists more, map option_identity (options db')
                = map option_identity (options db) ++ more) /\
  (exists more, map long_identity (long_positions db')
                = map long_identity (long_positions db) ++ more) /\
  (exists more, symbols db' = symbols db ++ more).

(** The closed rows of [db] are rows of [db'], in place and untouched. *)
Definition keeps_closed (db db' : Store) : Prop :=
  (forall n r, nth_error (options db) n = Some r -> o_closed r <> None ->
     nth_error (options db') n = Some r) /\
  (forall n r, nth_error (long_positions db) n = Some r -> l_closed r <> None ->
     nth_error (long_positions db') n = Some r).

(** A date [datetime.date] can hold. *)
Definition date_ok (d : date) : bool :=
  (1 <=? year d) && (year d <=? 9999) && (1 <=? month d) && (month d <=? 12)
  && (1 <=? day d) && (day d <=? days_in_month (year d) (month d)).

(** The option rows carry a calendar date as expiration and a non-negative
    contract count. *)
Definition option_rows_ok (db : Store) : Prop :=
  forall r, In r (options db) ->
    date_ok (o_expiration r) = true /\ 0 <= o_contracts r.

(** An item whose security type is neither OPT nor STK. *)
Definition is_other_item (pos : Position) : bool :=
  match pos_sec_type pos with
  | Some t => negb (String.eqb t "OPT") && negb (String.eqb t "STK")
  | None => false
  end.

(** The entries of the result dict the loop writes, summed. *)
Definition tally (r : SyncResult) : Z :=
  options_synced r + positions_synced r + Z.of_nat (List.length (errors r)).

(** ** Expiration texts

    [date.isoformat()], the text database.py binds to the expiration
    column, and the normalisation of an expiration at the head of the loop of
    [get_option_greeks] in ibkr_client.py. *)

Definition digit_char (n : Z) : ascii := ascii_of_nat (48 + Z.to_nat n).

(** ["%02d"] and ["%04d"], for numbers of at most that many digits. *)
Definition pad2 (n : Z) : string :=
  String (digit_char (n / 10)) (String (digit_char (n mod 10)) EmptyString).

Definition pad4 (n : Z) : string :=
  String (digit_char (n / 1000))
    (String (digit_char (n / 100 mod 10))
       (String (digit_char (n / 10 mod 10))
          (String (digit_char (n mod 10)) EmptyString))).

Definition isoformat (d : date) : string :=
  (pad4 (year d) ++ "-" ++ pad2 (month d) ++ "-" ++ pad2 (day d))%string.

(** [c in s] and [s.replace(c, "")] for a character [c]. *)
Fixpoint contains_char (c : ascii) (s : string) : bool :=
  match s with
  | EmptyString => false
  | String x s' => Ascii.eqb x c || contains_char c s'
  end.

Fixpoint remove_char (c : ascii) (s : string) : string :=
  match s with
  | EmptyString => EmptyString
  | String x s' =>
      if Ascii.eqb x c then remove_char c s' else String x (remove_char c s')
  end.

(** [expiration = opt.get("expiration")] followed by
    [if expiration and "-" in expiration:
       expiration = expiration.replace("-", "")]. *)
Definition normalize_expiration (expiration : option string) : option string :=
  match expiration with
  | Some e =>
      if negb (String.eqb e "") && contains_char "-" e
      then Some (remove_char "-" e)
      else Some e
  | None => None
  end.

(** ** ibkr_client.py: building the snapshot *)

Module Client.

(** The attributes of an [ib_async] contract that [get_positions] reads;
    [multiplier] is a text there. *)
Record Contract : Type := mkContract {
  c_symbol : string;
  c_secType : string;
  c_strike : Qc;
  c_lastTradeDateOrContractMonth : string;
  c_right : string;
  c_multiplier : string
}.

(** An element of [ib.positions()]. *)
Record IBPosition : Type := mkIBPosition {
  ib_account : string;
  ib_contract : Contract;
  ib_position : Qc;
  ib_avgCost : Qc
}.

(** The dict built for one position: the account entry, which
    [sync_positions] does not read, and the entries it does read. *)
Record PositionData : Type := mkPositionData {
  pd_account : string;
  pd_entries : Position
}.

(** [int(contract.multiplier) if contract.multiplier else 100]. *)
Definition multiplier_of (contract : Contract) : Exc Z :=
  if String.eqb (c_multiplier contract) "" then ret 100
  else int_of_str (c_multiplier contract).

(** The body of the loop of [get_positions]. *)
Definition position_data (pos : IBPosition) : Exc PositionData :=
  let contract := ib_contract pos in
  if String.eqb (c_secType contract) "OPT" then
    (multiplier <- multiplier_of contract ;;
     ret (mkPositionData (ib_account pos)
            (mkPosition (Some (c_symbol contract)) (Some (c_secType contract))
               (Some (ib_position pos)) (Some (ib_avgCost pos))
               (Some (c_strike contract))
               (Some (c_lastTradeDateOrContractMonth contract))
               (Some (c_right contract)) (Some multiplier))))%exc
  else
    ret (mkPositionData (ib_account pos)
           (mkPosition (Some (c_symbol contract)) (Some (c_secType contract))
              (Some (ib_position pos)) (Some (ib_avgCost pos))
              None None None None)).

(** The loop: the first exception ends it. *)
Fixpoint build (positions : list IBPosition) : Exc (list PositionData) :=
  match positions with
  | [] => ret []
  | pos :: rest =>
      (d <- position_data pos ;;
       ds <- build rest ;;
       ret (d :: ds))%exc
  end.

(** [IBKRClient.get_positions]: the list of dicts, or the text of the
    exception raised. *)
Definition get_positions (connected : bool) (positions : list IBPosition)
  : string + list PositionData :=
  if negb connected then inl "Not connected to IBKR"%string
  else
    match build positions with
    | inl e => inl (str_exn e)
    | inr l => inr l
    end.

(** What [sync_positions] gets from [ibkr_client.get_positions()]. *)
Definition fetch (connected : bool) (positions : list IBPosition)
  : string + list Position :=
  match get_positions connected positions with
  | inl msg => inl msg
  | inr l => inr (map pd_entries l)
  end.

End Client.

(** The environment of a pass whose snapshot comes from the client, the
    broker holding [positions]; the session is up once a connection attempt
    has succeeded, and no store call raises. *)
Definition env_of_client (connected connect_ok : bool)
  (positions : list Client.IBPosition) (clk : Clock) : Env :=
  mkEnv connected connect_ok (Client.fetch (connected || connect_ok) positions)
    None (fun _ => None) None None clk.

(** ** A store with history and a broker portfolio *)

Module Ledger.

(** An option closed in the past, an older open lot and a sold lot. *)
Definition nvda_closed_row : OptionRow :=
  mkOptionRow 2 "NVDA" Call (mkdate 2023 9 1) (Q2Qc 450) (mkdate 2023 12 15)
    (Q2Qc 5) 1 (Some (mkdate 2023 12 15)) 1702600000.

Definition msft_old_lot : LongRow :=
  mkLongRow 2 "MSFT" (mkdate 2022 1 10) 50 (Q2Qc 290) None 1641800000.

Definition msft_sold_lot : LongRow :=
  mkLongRow 3 "MSFT" (mkdate 2021 5 3) 20 (Q2Qc 250) (Some (mkdate 2022 2 1))
    1643700000.

Definition history_db : Store :=
  mkStore ["AAPL"%string; "MSFT"%string; "NVDA"%string]
    [Scenario.aapl_row; nvda_closed_row]
    [msft_old_lot; Scenario.msft_row; msft_sold_lot].

(** A futures item: neither OPT nor STK. *)
Definition es_future : Position :=
  mkPosition (Some "ES"%string) (Some "FUT"%string) (Some (Q2Qc 1))
    (Some (Q2Qc 5000)) None None None None.

Definition mixed_snapshot : list Position :=
  Scenario.doubled_snapshot ++ [es_future].

(** A session whose fetch times out. *)
Definition env_fetch_timeout : Env :=
  mkEnv true false (inl "timeout"%string) None (fun _ => None) None None
    Scenario.clk.

(** Positions as the broker library reports them. *)
Definition msft_ib : Client.IBPosition :=
  Client.mkIBPosition "U1234567"
    (Client.mkContract "MSFT" "STK" (Q2Qc 0) "" "" "") (Q2Qc 100) (Q2Qc 310).

Definition nvda_ib : Client.IBPosition :=
  Client.mkIBPosition "U1234567"
    (Client.mkContract "NVDA" "STK" (Q2Qc 0) "" "" "") (Q2Qc 10) (Q2Qc 480).

Definition aapl_ib (multiplier : string) : Client.IBPosition :=
  Client.mkIBPosition "U1234567"
    (Client.mkContract "AAPL" "OPT" (Q2Qc 150) "20240621" "P" multiplier)
    (Q2Qc (-3)) (Q2Qc 375).

(** The dict built for the AAPL option when its multiplier text is 0. *)
Definition aapl_zero_data : Client.PositionData :=
  Client.mkPositionData "U1234567"
    (mkPosition (Some "AAPL"%string) (Some "OPT"%string) (Some (Q2Qc (-3)))
       (Some (Q2Qc 375)) (Some (Q2Qc 150)) (Some "20240621"%string)
       (Some "P"%string) (Some 0)).

End Ledger.

(** [r] is not the lot [ORDER BY opened DESC LIMIT 1] picks for its symbol:
    an open lot of the symbol was opened later. *)
Definition has_newer_lot (rows : list LongRow) (r : LongRow) : Prop :=
  exists r1, In r1 rows /\ l_symbol r1 = l_symbol r /\ l_closed r1 = None /\
             date_ltb (l_opened r) (l_opened r1) = true.

(** What the loop keeps about such a lot at position [n]. *)
Definition stale_lot_at (n : nat) (r : LongRow) (db : Store) : Prop :=
  wf_store db /\ nth_error (long_positions db) n = Some r /\
  has_newer_lot (long_positions db) r.

(* ------------------------------------------------------------------ *)
(** * Properties *)

(** ** The loop body through [item_outcome] *)

Lemma sync_item_outcome env i pos st :
  sync_item env i pos st =
  Py.bind (item_outcome env i pos)
    (fun a => Py.ret (apply_action (clock env) a st)).
Proof.
  unfold sync_item, item_outcome, item_action.
  destruct (pos_sec_type pos) as [t|]; cbn; [|reflexivity].
  destruct (String.eqb t "OPT").
  - destruct (pos_right pos); cbn; [|reflexivity].
    destruct (pos_expiration pos); cbn; [|reflexivity].
    destruct (parse_expiration _); cbn; [reflexivity|].
    destruct (pos_avg_cost pos); cbn; [|reflexivity].
    destruct (float_div _ _); cbn; [reflexivity|].
    destruct (pos_symbol pos); cbn; [|reflexivity].
    destruct (pos_strike pos); cbn; [|reflexivity].
    destruct (pos_position pos); cbn; [|reflexivity].
    destruct (item_fault env i); reflexivity.
  - destruct (String.eqb t "STK"); [|reflexivity].
    destruct (pos_symbol pos); cbn; [|reflexivity].
    destruct (pos_position pos); cbn; [|reflexivity].
    destruct (pos_avg_cost pos); cbn; [|reflexivity].
    destruct (item_fault env i); reflexivity.
Qed.

Lemma loop_body_outcome env i pos st :
  loop_body env i pos st =
  match item_outcome env i pos with
  | inr a => apply_action (clock env) a st
  | inl e => record_error pos e st
  end.
Proof.
  unfold loop_body. rewrite sync_item_outcome.
  destruct (item_outcome env i pos); reflexivity.
Qed.

(** ** Boolean tests of the WHERE clauses *)

Lemma OptionType_eqb_eq a b : OptionType_eqb a b = true <-> a = b.
Proof. destruct a, b; cbn; split; congruence. Qed.

Lemma float_eqb_eq (x y : Qc) : float_eqb x y = true <-> x = y.
Proof.
  unfold float_eqb. rewrite Qeq_bool_iff. split.
  - apply Qc_is_canon.
  - intros ->. reflexivity.
Qed.

Lemma date_eqb_eq a b : date_eqb a b = true <-> a = b.
Proof.
  unfold date_eqb. destruct a as [y m d], b as [y' m' d']; cbn.
  rewrite !andb_true_iff, !Z.eqb_eq. split.
  - intros [[-> ->] ->]. reflexivity.
  - intros H. injection H as -> -> ->. auto.
Qed.

Lemma is_null_true {A} (v : option A) : is_null v = true <-> v = None.
Proof. destruct v; cbn; split; congruence. Qed.

Lemma option_where_true symbol ty strike expiration r :
  option_where symbol ty strike expiration r = true <->
  option_key r = (symbol, ty, strike, expiration) /\ o_closed r = None.
Proof.
  unfold option_where, option_key.
  rewrite !andb_true_iff, String.eqb_eq, OptionType_eqb_eq, float_eqb_eq,
    date_eqb_eq, is_null_true.
  split.
  - intros [[[[-> ->] ->] ->] ->]. auto.
  - intros [H ->]. injection H as -> -> -> ->. auto.
Qed.

Lemma long_where_true symbol r :
  long_where symbol r = true <-> l_symbol r = symbol /\ l_closed r = None.
Proof.
  unfold long_where. now rewrite andb_true_iff, String.eqb_eq, is_null_true.
Qed.

Lemma fetchone_select_where {Row} (cond : Row -> bool) rows e :
  Sql.fetchone (Sql.select_where cond rows) = Some e ->
  In e rows /\ cond e = true.
Proof.
  unfold Sql.fetchone, Sql.select_where. intros H.
  apply filter_In. destruct (filter cond rows) eqn:E; [discriminate|].
  injection H as ->. now left.
Qed.

Lemma fetchone_select_where_none {Row} (cond : Row -> bool) rows :
  Sql.fetchone (Sql.select_where cond rows) = None ->
  forall r, In r rows -> cond r = false.
Proof.
  unfold Sql.fetchone, Sql.select_where. intros H r Hr.
  destruct (filter cond rows) eqn:E; [|discriminate].
  destruct (cond r) eqn:C; [|reflexivity].
  assert (In r (filter cond rows)) as Hin by (apply filter_In; auto).
  rewrite E in Hin. destruct Hin.
Qed.

(** ** The row an option item leaves in the store *)

(** The id [sync_option_position] returns is the id of a row of the table
    that is open and carries the arguments of the call. *)
Lemma sync_option_position_row clk db symbol ty strike expiration contracts premium :
  let r := sync_option_position clk db symbol ty strike expiration contracts
             premium in
  exists row,
    In row (options (fst r)) /\ o_id row = snd r /\
    option_key row = (symbol, ty, strike, expiration) /\
    o_contracts row = contracts /\ o_premium row = premium /\
    o_closed row = None.
Proof.
  unfold sync_option_position.
  set (db1 := ensure_symbol_exists db symbol).
  destruct (Sql.fetchone _) as [e|] eqn:E; cbn.
  - apply fetchone_select_where in E as [Hin Hw].
    apply option_where_true in Hw as [Hk Hc].
    exists (option_set contracts premium (now clk) e). repeat split; auto.
    unfold Sql.update_where. apply in_map_iff. exists e.
    now rewrite Z.eqb_refl.
  - eexists. split; [apply in_or_app; right; left; reflexivity|].
    cbn. auto.
Qed.

Lemma item_action_option pos a :
  item_action pos = inr a -> is_option_item pos = true ->
  exists rt exp_str expiration avg_cost symbol strike position,
    pos_right pos = Some rt /\ pos_expiration pos = Some exp_str /\
    parse_expiration exp_str = inr expiration /\
    pos_avg_cost pos = Some avg_cost /\ pos_symbol pos = Some symbol /\
    pos_strike pos = Some strike /\ pos_position pos = Some position /\
    get (pos_multiplier pos) 100 <> 0 /\
    a = SyncOption symbol (option_type_of rt) strike expiration
          (Z.abs (int_of_float position))
          (avg_cost / Q2Qc (inject_Z (get (pos_multiplier pos) 100)))%Qc.
Proof.
  unfold item_action, is_option_item.
  destruct (pos_sec_type pos) as [t|]; cbn; [|discriminate].
  intros H Ht. rewrite Ht in H.
  destruct (pos_right pos) as [rt|]; cbn in H; [|discriminate].
  destruct (pos_expiration pos) as [exp_str|]; cbn in H; [|discriminate].
  destruct (parse_expiration exp_str) as [|expiration] eqn:Ex; cbn in H;
    [discriminate|].
  destruct (pos_avg_cost pos) as [avg_cost|]; cbn in H; [|discriminate].
  unfold float_div in H.
  destruct (Z.eqb_spec (get (pos_multiplier pos) 100) 0) as [|Hm]; cbn in H;
    [discriminate|].
  destruct (pos_symbol pos) as [symbol|]; cbn in H; [|discriminate].
  destruct (pos_strike pos) as [strike|]; cbn in H; [|discriminate].
  destruct (pos_position pos) as [position|]; cbn in H; [|discriminate].
  injection H as <-.
  exists rt, exp_str, expiration, avg_cost, symbol, strike, position.
  repeat split; auto.
Qed.

Lemma item_outcome_action env i pos a :
  item_outcome env i pos = inr a -> item_action pos = inr a.
Proof.
  unfold item_outcome. destruct (item_action pos) as [|a']; cbn; [discriminate|].
  destruct a'; unfold store_call, ret, raise;
    destruct (item_fault env i); congruence.
Qed.

Lemma sync_item_inr env i pos st st' :
  sync_item env i pos st = inr st' ->
  exists a, item_action pos = inr a /\ st' = apply_action (clock env) a st.
Proof.
  rewrite sync_item_outcome.
  destruct (item_outcome env i pos) as [|a] eqn:E; cbn; [discriminate|].
  intros H. injection H as <-. exists a. split; [|reflexivity].
  eapply item_outcome_action; eauto.
Qed.

Lemma int_of_float_integer (q : Z) : int_of_float (Q2Qc (inject_Z q)) = q.
Proof.
  unfold int_of_float, Q2Qc, inject_Z, Qred; cbn.
  pose proof (Z.ggcd_gcd q 1) as Hg.
  pose proof (Z.ggcd_correct_divisors q 1) as Hd.
  destruct (Z.ggcd q 1) as [g [aa bb]]; cbn in *.
  rewrite Z.gcd_1_r in Hg. subst g. destruct Hd as [Ha Hb].
  rewrite !Z.mul_1_l in *. subst aa bb. cbn. apply Z.quot_1_r.
Qed.

(** ** Option type, contract count and premium of an option item *)

(** What the store holds for an option item right after its sync call. *)
Lemma sync_item_option_row env i pos st st' :
  sync_item env i pos st = inr st' -> is_option_item pos = true ->
  exists rt exp_str expiration avg_cost symbol strike position row,
    pos_right pos = Some rt /\ pos_expiration pos = Some exp_str /\
    parse_expiration exp_str = inr expiration /\
    pos_avg_cost pos = Some avg_cost /\ pos_symbol pos = Some symbol /\
    pos_strike pos = Some strike /\ pos_position pos = Some position /\
    In row (options (st_db st')) /\
    st_option_ids st' = st_option_ids st ++ [o_id row] /\
    option_key row = (symbol, option_type_of rt, strike, expiration) /\
    o_contracts row = Z.abs (int_of_float position) /\
    o_premium row =
      (avg_cost / Q2Qc (inject_Z (get (pos_multiplier pos) 100)))%Qc /\
    o_closed row = None.
Proof.
  intros H Ho.
  apply sync_item_inr in H as (a & Ha & ->).
  destruct (item_action_option _ _ Ha Ho)
    as (rt & exp_str & expiration & avg_cost & symbol & strike & position
        & H1 & H2 & H3 & H4 & H5 & H6 & H7 & _ & ->).
  cbn [apply_action st_db st_option_ids].
  destruct (sync_option_position_row (clock env) (st_db st) symbol
              (option_type_of rt) strike expiration
              (Z.abs (int_of_float position))
              (avg_cost / Q2Qc (inject_Z (get (pos_multiplier pos) 100)))%Qc)
    as (row & Hin & Hid & Hk & Hc & Hp & Hcl).
  exists rt, exp_str, expiration, avg_cost, symbol, strike, position, row.
  rewrite Hid. repeat split; auto.
Qed.

Lemma option_type_of_call rt : option_type_of rt = Call <-> rt = "C"%string.
Proof.
  unfold option_type_of. destruct (String.eqb_spec rt "C"); split; congruence.
Qed.

(** C5, as the code has it: the option type stored for an option item is Call
    if and only if the item's right code is exactly the string C, and Put
    otherwise. *)
Theorem option_type_call_iff_right_is_C env i pos st st' :
  sync_item env i pos st = inr st' -> is_option_item pos = true ->
  exists rt row,
    pos_right pos = Some rt /\
    In row (options (st_db st')) /\
    st_option_ids st' = st_option_ids st ++ [o_id row] /\
    (o_type row = Call <-> rt = "C"%string) /\
    (o_type row = Put <-> rt <> "C"%string).
Proof.
  intros H Ho.
  destruct (sync_item_option_row _ _ _ _ _ H Ho)
    as (rt & exp_str & expiration & avg_cost & symbol & strike & position & row
        & H1 & _ & _ & _ & _ & _ & _ & Hin & Hids & Hk & _).
  exists rt, row. repeat split; auto.
  - intros Ht. apply option_type_of_call. unfold option_key in Hk. congruence.
  - intros ->. unfold option_key in Hk. injection Hk as _ -> _ _. reflexivity.
  - intros Ht ->. unfold option_key in Hk. injection Hk as _ Hty _ _.
    rewrite Ht in Hty. discriminate.
  - intros Hne. unfold option_key in Hk. injection Hk as _ Hty _ _.
    rewrite Hty. unfold option_type_of.
    destruct (String.eqb_spec rt "C"); congruence.
Qed.

Lemma option_type_call_iff_right_is_C_witness :
  exists rt row,
    pos_right Scenario.aapl_short = Some rt /\
    In row (options (st_db (loop_body (Scenario.env_of []) 0 Scenario.aapl_short
                              (mkLoop Scenario.aapl_db [] [] initial_result)))) /\
    st_option_ids (loop_body (Scenario.env_of []) 0 Scenario.aapl_short
                     (mkLoop Scenario.aapl_db [] [] initial_result))
      = [] ++ [o_id row] /\
    (o_type row = Call <-> rt = "C"%string) /\
    (o_type row = Put <-> rt <> "C"%string).
Proof.
  apply (option_type_call_iff_right_is_C (Scenario.env_of []) 0
           Scenario.aapl_short (mkLoop Scenario.aapl_db [] [] initial_result)).
  - reflexivity.
  - reflexivity.
Defined.

(** C5, counterexample: the right code CALL starts with C, and the pass
    stores the item as a Put. *)
Lemma right_code_CALL_stored_as_put :
  pos_right Scenario.aapl_call_spelled = Some "CALL"%string /\
  String.prefix "C" "CALL" = true /\
  map o_type
    (options (snd (sync_positions (Scenario.env_of [Scenario.aapl_call_spelled])
                     Scenario.no_service Scenario.empty_db))) = [Put].
Proof. repeat split; reflexivity. Qed.

Lemma short_put_scenario_holds : short_put_scenario.
Proof. unfold short_put_scenario. repeat split; reflexivity. Qed.



(** ** Connection failure and the last-run status *)

(** C9: with no broker session and a failed connection attempt, the call
    returns success = false with the single error and leaves the store (and
    the service) as they were. *)
Theorem connect_failure_returns_early env self db :
  is_connected env = false -> connect env = false ->
  sync_positions env self db =
    (mkResult false None 0 0 0 0 ["Failed to connect to IBKR"%string], self, db).
Proof. intros Hc Hk. unfold sync_positions. rewrite Hc, Hk. reflexivity. Qed.

Lemma connect_failure_returns_early_witness :
  sync_positions
    (mkEnv false false (inr [Scenario.aapl_short]) None (fun _ => None) None None
       Scenario.clk)
    Scenario.no_service Scenario.aapl_db =
    (mkResult false None 0 0 0 0 ["Failed to connect to IBKR"%string],
     Scenario.no_service, Scenario.aapl_db).
Proof.
  apply (connect_failure_returns_early
           (mkEnv false false (inr [Scenario.aapl_short]) None (fun _ => None)
              None None Scenario.clk)
           Scenario.no_service Scenario.aapl_db); reflexivity.
Defined.

(** C10: an early return on connection failure leaves last_sync and
    last_sync_result untouched, so that get_status still reports the previous
    run; on every other path both fields are replaced with the new run's
    time and result. *)
Theorem last_sync_replaced_except_on_connect_failure env self db :
  let r := sync_positions env self db in
  (is_connected env = false /\ connect env = false ->
   snd (fst r) = self /\
   forall env',
     status_last_sync (get_status env' (snd (fst r)) (snd r)) = last_sync self /\
     status_last_sync_result (get_status env' (snd (fst r)) (snd r))
       = last_sync_result self) /\
  (session_ok env = true ->
   last_sync (snd (fst r)) = Some (now (clock env)) /\
   last_sync_result (snd (fst r)) = Some (fst (fst r)) /\
   forall env',
     status_last_sync (get_status env' (snd (fst r)) (snd r))
       = Some (now (clock env)) /\
     status_last_sync_result (get_status env' (snd (fst r)) (snd r))
       = Some (fst (fst r))).
Proof.
  cbn zeta. unfold sync_positions, session_ok. split.
  - intros [-> ->]. cbn. auto.
  - intros H. destruct (is_connected env), (connect env); try discriminate;
      cbn; auto.
Qed.

(** ** A store fault in the closure step *)

Lemma reconcile_closure_fault env db positions msg :
  get_positions env = inr positions -> get_db_connection env = None ->
  close_options_fault env = Some msg \/
  (close_options_fault env = None /\ close_long_fault env = Some msg) ->
  success (fst (reconcile env db)) = false /\
  exists errs, errors (fst (reconcile env db)) =
               errs ++ [("Sync failed: " ++ msg)%string].
Proof.
  intros Hp Hd Hf. unfold reconcile. rewrite Hp, Hd.
  assert (forall i l st, success (st_result st) = false ->
            success (st_result (sync_loop env i l st)) = false) as Hs.
  { intros i l. revert i. induction l as [|pos l IH]; intros i st Hst; cbn; auto.
    apply IH. rewrite loop_body_outcome.
    destruct (item_outcome env i pos) as [e|[]]; cbn; auto. }
  specialize (Hs 0%nat positions (mkLoop db [] [] initial_result) eq_refl).
  destruct Hf as [Ho | [Ho Hl]]; rewrite Ho; [|rewrite Hl]; cbn; split; auto;
    eexists; reflexivity.
Qed.

(** C8, as the code has it: a store fault in the closure step is not raised
    but recorded as the last entry of the error list, and the run ends with
    success = false. *)
Theorem closure_fault_is_pass_level env self db positions msg :
  session_ok env = true ->
  get_positions env = inr positions -> get_db_connection env = None ->
  close_options_fault env = Some msg \/
  (close_options_fault env = None /\ close_long_fault env = Some msg) ->
  let r := fst (fst (sync_positions env self db)) in
  success r = false /\
  exists errs, errors r = errs ++ [("Sync failed: " ++ msg)%string].
Proof.
  intros Hs Hp Hd Hf. unfold sync_positions, session_ok in *.
  destruct (is_connected env), (connect env); try discriminate; cbn;
    eapply reconcile_closure_fault; eauto.
Qed.

Lemma closure_fault_is_pass_level_witness :
  let r := fst (fst (sync_positions Scenario.env_locked_at_closure
                       Scenario.no_service Scenario.aapl_db)) in
  success r = false /\
  exists errs, errors r = errs ++ ["Sync failed: database is locked"%string].
Proof.
  apply (closure_fault_is_pass_level Scenario.env_locked_at_closure
           Scenario.no_service Scenario.aapl_db [Scenario.aapl_short]
           "database is locked").
  - reflexivity.
  - reflexivity.
  - reflexivity.
  - left. reflexivity.
Defined.

(** C8, counterexample: connect and fetch succeed, close_missing_options
    raises, and the run comes back with success = false. *)
Lemma closure_fault_run_not_successful :
  session_ok Scenario.env_locked_at_closure = true /\
  (exists positions, get_positions Scenario.env_locked_at_closure = inr positions) /\
  close_options_fault Scenario.env_locked_at_closure <> None /\
  success (fst (fst (sync_positions Scenario.env_locked_at_closure
                       Scenario.no_service Scenario.aapl_db))) <> true.
Proof.
  repeat split; try reflexivity; try discriminate.
  eexists; reflexivity.
Qed.

(** ** A successful pass *)

Lemma loop_body_success env i pos st :
  success (st_result (loop_body env i pos st)) = success (st_result st).
Proof.
  rewrite loop_body_outcome. destruct (item_outcome env i pos) as [e|[]]; reflexivity.
Qed.

Lemma sync_loop_success env i positions st :
  success (st_result (sync_loop env i positions st)) = success (st_result st).
Proof.
  revert i st. induction positions as [|pos l IH]; intros i st; cbn; auto.
  now rewrite IH, loop_body_success.
Qed.

(** When the returned dict says success, nothing but items failed, and the
    store went through the loop and the two closure statements. *)
Lemma sync_positions_success env self db positions :
  get_positions env = inr positions ->
  success (fst (fst (sync_positions env self db))) = true ->
  session_ok env = true /\ get_db_connection env = None /\
  close_options_fault env = None /\ close_long_fault env = None /\
  let st := loop_end env db positions in
  let oc := close_missing_options (clock env) (st_db st) (st_option_ids st) in
  let pc := close_missing_long_positions (clock env) (fst oc)
              (st_stock_symbols st) in
  snd (sync_positions env self db) = fst pc /\
  fst (fst (sync_positions env self db)) =
    set_success
      (set_positions_closed (set_options_closed (st_result st) (snd oc)) (snd pc))
      (now (clock env)).
Proof.
  intros Hp. unfold sync_positions, session_ok.
  destruct (negb (is_connected env) && negb (connect env)) eqn:Hc;
    [cbn; discriminate|].
  cbn [fst snd]. unfold reconcile, loop_end. rewrite Hp.
  destruct (get_db_connection env); [cbn; discriminate|].
  destruct (close_options_fault env).
  { cbn. rewrite sync_loop_success. cbn. discriminate. }
  destruct (close_long_fault env).
  { cbn. rewrite sync_loop_success. cbn. discriminate. }
  intros _. repeat split; auto.
  destruct (is_connected env), (connect env); cbn in *; congruence.
Qed.

(** Conversely, with a session, a snapshot and no fault at the level of the
    pass, the call succeeds. *)
Lemma sync_positions_reconciled env self db positions :
  session_ok env = true -> get_positions env = inr positions ->
  get_db_connection env = None ->
  close_options_fault env = None -> close_long_fault env = None ->
  success (fst (fst (sync_positions env self db))) = true.
Proof.
  intros Hs Hp Hd Ho Hl. unfold sync_positions, session_ok in *.
  destruct (is_connected env), (connect env); try discriminate; cbn;
    unfold reconcile; rewrite Hp, Hd, Ho, Hl; reflexivity.
Qed.

(** ** Items and the table they touch *)

Lemma item_action_sync_option pos symbol ty strike expiration contracts premium :
  item_action pos = inr (SyncOption symbol ty strike expiration contracts premium) ->
  is_option_item pos = true.
Proof.
  unfold item_action, is_option_item.
  destruct (pos_sec_type pos) as [t|]; cbn; [|discriminate].
  destruct (String.eqb t "OPT"); [reflexivity|].
  destruct (String.eqb t "STK"); [|discriminate].
  destruct (pos_symbol pos); cbn; [|discriminate].
  destruct (pos_position pos); cbn; [|discriminate].
  destruct (pos_avg_cost pos); cbn; discriminate.
Qed.

Lemma item_action_sync_long pos symbol shares buy_price :
  item_action pos = inr (SyncLong symbol shares buy_price) ->
  is_stock_item pos = true /\ pos_symbol pos = Some symbol.
Proof.
  unfold item_action, is_stock_item.
  destruct (pos_sec_type pos) as [t|]; cbn; [|discriminate].
  destruct (String.eqb t "OPT").
  - destruct (pos_right pos); cbn; [|discriminate].
    destruct (pos_expiration pos); cbn; [|discriminate].
    destruct (parse_expiration _); cbn; [discriminate|].
    destruct (pos_avg_cost pos); cbn; [|discriminate].
    destruct (float_div _ _); cbn; [discriminate|].
    destruct (pos_symbol pos); cbn; [|discriminate].
    destruct (pos_strike pos); cbn; [|discriminate].
    destruct (pos_position pos); cbn; discriminate.
  - destruct (String.eqb t "STK"); [|discriminate].
    destruct (pos_symbol pos); cbn; [|discriminate].
    destruct (pos_position pos); cbn; [|discriminate].
    destruct (pos_avg_cost pos); cbn; [|discriminate].
    intros H. injection H as -> _ _. auto.
Qed.

Lemma ensure_symbol_exists_options db symbol :
  options (ensure_symbol_exists db symbol) = options db.
Proof. unfold ensure_symbol_exists. destruct (existsb _ _); reflexivity. Qed.

Lemma ensure_symbol_exists_long_positions db symbol :
  long_positions (ensure_symbol_exists db symbol) = long_positions db.
Proof. unfold ensure_symbol_exists. destruct (existsb _ _); reflexivity. Qed.

Lemma sync_long_position_options clk db symbol shares buy_price :
  options (fst (sync_long_position clk db symbol shares buy_price)) = options db.
Proof.
  unfold sync_long_position. destruct (Sql.fetchone _); cbn;
    apply ensure_symbol_exists_options.
Qed.

Lemma sync_option_position_long_positions clk db symbol ty strike expiration c p :
  long_positions (fst (sync_option_position clk db symbol ty strike expiration c p))
  = long_positions db.
Proof.
  unfold sync_option_position. destruct (Sql.fetchone _); cbn;
    apply ensure_symbol_exists_long_positions.
Qed.

(** A snapshot without option items leaves the options table and the list of
    option ids as they are. *)
Lemma sync_loop_no_option_items env i positions st :
  (forall pos, In pos positions -> is_option_item pos = false) ->
  options (st_db (sync_loop env i positions st)) = options (st_db st) /\
  st_option_ids (sync_loop env i positions st) = st_option_ids st.
Proof.
  revert i st. induction positions as [|pos l IH]; intros i st Hno; cbn; auto.
  destruct (IH (S i) (loop_body env i pos st)) as [-> ->].
  { intros p Hp. apply Hno. now right. }
  rewrite loop_body_outcome.
  destruct (item_outcome env i pos) as [e|a] eqn:E; cbn; auto.
  apply item_outcome_action in E. destruct a; cbn; auto.
  - apply item_action_sync_option in E. rewrite Hno in E; [discriminate|now left].
  - now rewrite sync_long_position_options.
Qed.

Lemma sync_loop_no_stock_items env i positions st :
  (forall pos, In pos positions -> is_stock_item pos = false) ->
  long_positions (st_db (sync_loop env i positions st)) = long_positions (st_db st) /\
  st_stock_symbols (sync_loop env i positions st) = st_stock_symbols st.
Proof.
  revert i st. induction positions as [|pos l IH]; intros i st Hno; cbn; auto.
  destruct (IH (S i) (loop_body env i pos st)) as [-> ->].
  { intros p Hp. apply Hno. now right. }
  rewrite loop_body_outcome.
  destruct (item_outcome env i pos) as [e|a] eqn:E; cbn; auto.
  apply item_outcome_action in E. destruct a; cbn; auto.
  - now rewrite sync_option_position_long_positions.
  - apply item_action_sync_long in E as [E _].
    rewrite Hno in E; [discriminate|now left].
Qed.

Lemma close_missing_options_long_positions clk db ids :
  long_positions (fst (close_missing_options clk db ids)) = long_positions db.
Proof. destruct ids; reflexivity. Qed.

Lemma close_missing_long_positions_options clk db syms :
  options (fst (close_missing_long_positions clk db syms)) = options db.
Proof. destruct syms; reflexivity. Qed.

(** ** An empty snapshot closes every open row *)

(** C2: after a pass that ran to its end (success = true) on a snapshot
    without option items, every option row that was open has today as its
    closed date; the same for share rows when the snapshot has no stock
    item. *)
Theorem empty_snapshot_closes_all env self db positions :
  get_positions env = inr positions ->
  success (fst (fst (sync_positions env self db))) = true ->
  let db' := snd (sync_positions env self db) in
  ((forall pos, In pos positions -> is_option_item pos = false) ->
   forall n row, nth_error (options db) n = Some row -> o_closed row = None ->
   exists row', nth_error (options db') n = Some row' /\
                o_id row' = o_id row /\
                o_closed row' = Some (today (clock env))) /\
  ((forall pos, In pos positions -> is_stock_item pos = false) ->
   forall n row, nth_error (long_positions db) n = Some row -> l_closed row = None ->
   exists row', nth_error (long_positions db') n = Some row' /\
                l_id row' = l_id row /\
                l_closed row' = Some (today (clock env))).
Proof.
  intros Hp Hs.
  destruct (sync_positions_success _ _ _ _ Hp Hs) as (_ & _ & _ & _ & Hdb & _).
  cbn zeta in *. rewrite Hdb. clear Hdb. unfold loop_end. split.
  - intros Hno n row Hn Hc.
    destruct (sync_loop_no_option_items env 0 positions
                (mkLoop db [] [] initial_result) Hno) as [Ho Hi].
    cbn in Ho, Hi. rewrite close_missing_long_positions_options, Hi. cbn.
    rewrite Ho. unfold Sql.update_where.
    exists (option_close (clock env) row). split; [|split; reflexivity].
    erewrite map_nth_error by eassumption.
    unfold o_open. now rewrite Hc.
  - intros Hno n row Hn Hc.
    destruct (sync_loop_no_stock_items env 0 positions
                (mkLoop db [] [] initial_result) Hno) as [Ho Hi].
    cbn in Ho, Hi. rewrite Hi. cbn.
    rewrite close_missing_options_long_positions, Ho. unfold Sql.update_where.
    exists (long_close (clock env) row). split; [|split; reflexivity].
    erewrite map_nth_error by eassumption.
    unfold l_open. now rewrite Hc.
Qed.

Lemma empty_snapshot_closes_all_witness :
  let db' := snd (sync_positions (Scenario.env_of []) Scenario.no_service
                    Scenario.portfolio_db) in
  ((forall pos, In pos [] -> is_option_item pos = false) ->
   forall n row,
     nth_error (options Scenario.portfolio_db) n = Some row ->
     o_closed row = None ->
     exists row', nth_error (options db') n = Some row' /\
                  o_id row' = o_id row /\
                  o_closed row' = Some (today (clock (Scenario.env_of [])))) /\
  ((forall pos, In pos [] -> is_stock_item pos = false) ->
   forall n row,
     nth_error (long_positions Scenario.portfolio_db) n = Some row ->
     l_closed row = None ->
     exists row', nth_error (long_positions db') n = Some row' /\
                  l_id row' = l_id row /\
                  l_closed row' = Some (today (clock (Scenario.env_of [])))).
Proof.
  apply (empty_snapshot_closes_all (Scenario.env_of []) Scenario.no_service
           Scenario.portfolio_db []).
  - reflexivity.
  - reflexivity.
Defined.

(** ** Uniqueness of the open identity keys *)

Lemma open_keys_map (f : OptionRow -> OptionRow) rows :
  (forall r, option_key (f r) = option_key r /\ o_open (f r) = o_open r) ->
  map option_key (filter o_open (map f rows)) = map option_key (filter o_open rows).
Proof.
  intros Hf. induction rows as [|r l IH]; cbn; auto.
  destruct (Hf r) as [Hk Ho]. rewrite Ho.
  destruct (o_open r); cbn; now rewrite ?Hk, IH.
Qed.

Lemma NoDup_map_filter_weaken {A B} (f : A -> B) (p q : A -> bool) l :
  (forall a, p a = true -> q a = true) ->
  NoDup (map f (filter q l)) -> NoDup (map f (filter p l)).
Proof.
  intros Hpq. induction l as [|a l IH]; cbn; auto.
  destruct (p a) eqn:Hp.
  - rewrite (Hpq a Hp). cbn. intros H. inversion H as [|? ? Hn Hd]; subst.
    constructor; auto.
    intros Hin. apply Hn. apply in_map_iff in Hin as (b & Hb & Hin).
    apply in_map_iff. exists b. split; auto.
    apply filter_In in Hin as [Hin Hpb]. apply filter_In. auto.
  - destruct (q a); cbn; auto. intros H. inversion H; auto.
Qed.

Lemma open_keys_update_close clk (cond : OptionRow -> bool) rows :
  map option_key (filter o_open (Sql.update_where cond (option_close clk) rows))
  = map option_key (filter (fun r => o_open r && negb (cond r)) rows).
Proof.
  unfold Sql.update_where. induction rows as [|r l IH]; cbn; auto.
  destruct (cond r); cbn.
  - now rewrite andb_false_r.
  - rewrite andb_true_r. destruct (o_open r); cbn; now rewrite IH.
Qed.

Lemma sync_option_position_unique clk db symbol ty strike expiration c p :
  unique_open_keys db ->
  unique_open_keys
    (fst (sync_option_position clk db symbol ty strike expiration c p)).
Proof.
  unfold unique_open_keys, open_option_keys, sync_option_position.
  rewrite <- (ensure_symbol_exists_options db symbol).
  set (db1 := ensure_symbol_exists db symbol). intros Hu.
  destruct (Sql.fetchone _) as [e|] eqn:E; cbn.
  - unfold Sql.update_where. rewrite open_keys_map; auto.
    intros r. destruct (o_id r =? o_id e); auto.
  - rewrite filter_app, map_app. cbn.
    apply NoDup_app; auto.
    + constructor; [intros []|constructor].
    + intros k Hk [<-|[]].
      apply in_map_iff in Hk as (r & Hkey & Hr).
      apply filter_In in Hr as [Hin Hop].
      pose proof (fetchone_select_where_none _ _ E r Hin) as Hw.
      assert (option_where symbol ty strike expiration r = true) as Hw'.
      { apply option_where_true. split; auto. now apply is_null_true. }
      congruence.
Qed.

Lemma close_missing_options_unique clk db ids :
  unique_open_keys db -> unique_open_keys (fst (close_missing_options clk db ids)).
Proof.
  unfold unique_open_keys, open_option_keys.
  destruct ids; cbn; rewrite open_keys_update_close;
    apply NoDup_map_filter_weaken; intros a Ha;
    apply andb_true_iff in Ha; tauto.
Qed.

Lemma loop_body_unique env i pos st :
  unique_open_keys (st_db st) -> unique_open_keys (st_db (loop_body env i pos st)).
Proof.
  intros Hu. rewrite loop_body_outcome.
  destruct (item_outcome env i pos) as [e|[]]; cbn; auto.
  - now apply sync_option_position_unique.
  - unfold unique_open_keys, open_option_keys.
    now rewrite sync_long_position_options.
Qed.

Lemma sync_loop_unique env i positions st :
  unique_open_keys (st_db st) ->
  unique_open_keys (st_db (sync_loop env i positions st)).
Proof.
  revert i st. induction positions as [|pos l IH]; intros i st Hu; cbn; auto.
  apply IH. now apply loop_body_unique.
Qed.

Lemma reconcile_unique env db :
  unique_open_keys db -> unique_open_keys (snd (reconcile env db)).
Proof.
  intros Hu. unfold reconcile.
  destruct (get_positions env) as [|positions]; cbn; auto.
  destruct (get_db_connection env); cbn; auto.
  pose proof (sync_loop_unique env 0 positions (mkLoop db [] [] initial_result) Hu)
    as Hl.
  destruct (close_options_fault env); cbn; auto.
  pose proof (close_missing_options_unique (clock env) _
                (st_option_ids (sync_loop env 0 positions
                                  (mkLoop db [] [] initial_result))) Hl) as Hc.
  destruct (close_long_fault env); cbn; auto.
  unfold unique_open_keys, open_option_keys.
  now rewrite close_missing_long_positions_options.
Qed.

Lemma sync_positions_unique env self db :
  unique_open_keys db -> unique_open_keys (snd (sync_positions env self db)).
Proof.
  intros Hu. unfold sync_positions.
  destruct (negb (is_connected env) && negb (connect env)); cbn; auto.
  now apply reconcile_unique.
Qed.

(** C4: starting from a store in which no two open option rows share an
    identity key, any sequence of passes, whatever their snapshots and
    faults, leaves a store with the same property. *)
Theorem identity_keys_stay_unique envs self db :
  unique_open_keys db -> unique_open_keys (snd (run_passes envs self db)).
Proof.
  revert self db. induction envs as [|env rest IH]; intros self db Hu; cbn; auto.
  apply IH. now apply sync_positions_unique.
Qed.

(** ** Lists and row ids *)

Lemma filter_nil_iff {A} (f : A -> bool) l :
  filter f l = [] <-> forall a, In a l -> f a = false.
Proof.
  induction l as [|a l IH]; cbn.
  - split; auto. intros _ a [].
  - destruct (f a) eqn:E; split.
    + discriminate.
    + intros H. specialize (H a (or_introl eq_refl)). congruence.
    + intros H b [<-|Hb]; auto. now apply IH.
    + intros H. apply IH. auto.
Qed.

Lemma filter_map_commute {A} (p : A -> bool) (f : A -> A) l :
  (forall a, p (f a) = p a) -> filter p (map f l) = map f (filter p l).
Proof.
  intros Hf. induction l as [|a l IH]; cbn; auto.
  rewrite Hf. destruct (p a); cbn; now rewrite IH.
Qed.

Lemma hd_error_map {A B} (f : A -> B) l :
  hd_error (map f l) = option_map f (hd_error l).
Proof. destruct l; reflexivity. Qed.

Lemma NoDup_map_eq {A B} (f : A -> B) l a b :
  NoDup (map f l) -> In a l -> In b l -> f a = f b -> a = b.
Proof.
  induction l as [|x l IH]; cbn; [intros _ []|].
  intros H Ha Hb Hf. inversion H as [|? ? Hn Hd]; subst.
  destruct Ha as [->|Ha], Hb as [->|Hb]; auto.
  - exfalso. apply Hn. rewrite Hf. now apply in_map.
  - exfalso. apply Hn. rewrite <- Hf. now apply in_map.
Qed.

Lemma fold_left_max_ge l : forall a,
  a <= fold_left Z.max l a /\ forall x, In x l -> x <= fold_left Z.max l a.
Proof.
  induction l as [|y l IH]; intros a; cbn.
  - split; [lia|intros x []].
  - destruct (IH (Z.max a y)) as [H1 H2]. split; [lia|].
    intros x [<-|Hx]; [lia|auto].
Qed.

Lemma lastrowid_fresh ids : ~ In (Sql.lastrowid ids) ids.
Proof.
  destruct ids as [|i rest]; cbn; [tauto|].
  destruct (fold_left_max_ge rest i) as [H1 H2].
  intros [H|H]; [lia|]. apply H2 in H. lia.
Qed.

(** ** Properties of the select-then-update-or-insert pattern *)

Section UpsertTheory.

Context {Row Key Payload D : Type}.
Variable row_id : Row -> Z.
Variable matches : Key -> Row -> bool.
Variable order : list Row -> list Row.
Variable write : Payload -> Row -> Row.
Variable fresh : Z -> Key -> Payload -> Row.
Variable data : Row -> D.

Hypothesis write_id : forall p r, row_id (write p r) = row_id r.
Hypothesis write_matches : forall k p r, matches k (write p r) = matches k r.
Hypothesis order_write : forall (c : Row -> bool) p l,
  order (map (fun r => if c r then write p r else r) l)
  = map (fun r => if c r then write p r else r) (order l).
Hypothesis order_nil : forall l, order l = [] -> l = [].
Hypothesis order_In : forall e l, In e (order l) -> In e l.
Hypothesis fresh_id : forall i k p, row_id (fresh i k p) = i.
Hypothesis fresh_matches : forall i k p k',
  matches k' (fresh i k p) = true <-> k' = k.
Hypothesis matches_key : forall k k' r,
  matches k r = true -> matches k' r = true -> k = k'.
Hypothesis data_write_write : forall p q r,
  data (write p (write q r)) = data (write p r).
Hypothesis data_write_fresh : forall i k p,
  data (write p (fresh i k p)) = data (fresh i k p).

Local Abbreviation sel := (select matches order).
Local Abbreviation ups := (upsert row_id matches order write fresh).
Local Abbreviation upss := (upserts row_id matches order write fresh).
Local Abbreviation tgt := (target row_id matches order).
Local Abbreviation rep1 := (replay1 row_id matches order write).
Local Abbreviation rep := (replay row_id matches order write).
Local Abbreviation tch := (@touches Row Key Payload row_id matches order).
Local Abbreviation uniq := (row_ids_unique row_id).

Lemma select_In k rows e :
  sel k rows = Some e -> In e rows /\ matches k e = true.
Proof.
  unfold select, Sql.fetchone, Sql.select_where. intros H.
  apply filter_In. apply order_In.
  destruct (order _); [discriminate|]. injection H as ->. now left.
Qed.

Lemma select_None k rows :
  sel k rows = None <-> forall r, In r rows -> matches k r = false.
Proof.
  unfold select, Sql.fetchone, Sql.select_where.
  rewrite <- filter_nil_iff. split.
  - intros H. apply order_nil. now destruct (order _).
  - intros ->. destruct (order []) eqn:E; auto.
    assert (In r []) as [] by (apply order_In; rewrite E; now left).
Qed.

Lemma select_update k c p rows :
  sel k (Sql.update_where c (write p) rows)
  = option_map (fun r => if c r then write p r else r) (sel k rows).
Proof.
  unfold select, Sql.fetchone, Sql.select_where, Sql.update_where.
  rewrite filter_map_commute, order_write, hd_error_map; auto.
  intros a. destruct (c a); auto.
Qed.

Lemma select_app_other k rows x :
  matches k x = false -> sel k (rows ++ [x]) = sel k rows.
Proof.
  intros H. unfold select, Sql.select_where. rewrite filter_app. cbn.
  now rewrite H, app_nil_r.
Qed.

Lemma select_app_fresh k rows i p :
  sel k rows = None -> sel k (rows ++ [fresh i k p]) = Some (fresh i k p).
Proof.
  intros H. rewrite select_None, <- filter_nil_iff in H.
  unfold select, Sql.fetchone, Sql.select_where. rewrite filter_app, H. cbn.
  assert (matches k (fresh i k p) = true) as -> by now apply fresh_matches.
  destruct (order [fresh i k p]) as [|y l] eqn:E.
  - apply order_nil in E. discriminate.
  - assert (In y [fresh i k p]) as [<-|[]]; auto.
    apply order_In. rewrite E. now left.
Qed.

Lemma upsert_unique rows a :
  uniq rows -> uniq (fst (ups rows a)).
Proof.
  unfold row_ids_unique, upsert. intros H.
  destruct (sel (fst a) rows) as [e|]; cbn.
  - unfold Sql.update_where. rewrite map_map.
    erewrite map_ext; [exact H|].
    intros r. cbn. destruct (row_id r =? row_id e); auto.
  - rewrite map_app. cbn. rewrite fresh_id.
    apply NoDup_app; auto.
    + constructor; [intros []|constructor].
    + intros x Hx [<-|[]]. now apply lastrowid_fresh in Hx.
Qed.

Lemma upserts_unique acts : forall rows,
  uniq rows -> uniq (fst (upss rows acts)).
Proof.
  induction acts as [|a l IH]; intros rows H; cbn; auto.
  apply IH. now apply upsert_unique.
Qed.

(** After a call, its key selects the row whose id the call returns, and
    writing the payload again changes no column of that row. *)
Lemma upsert_select rows a :
  exists e, sel (fst a) (fst (ups rows a)) = Some e /\
            row_id e = snd (ups rows a) /\
            data (write (snd a) e) = data e.
Proof.
  unfold upsert. destruct (sel (fst a) rows) as [e|] eqn:E; cbn.
  - rewrite select_update, E. cbn. rewrite Z.eqb_refl.
    exists (write (snd a) e). rewrite write_id. auto.
  - rewrite select_app_fresh by assumption.
    eexists. split; [reflexivity|]. rewrite fresh_id. auto.
Qed.

(** A call never changes which row id a key selects, once it selects one. *)
Lemma upsert_stable rows a k e :
  sel k rows = Some e ->
  exists e', sel k (fst (ups rows a)) = Some e' /\ row_id e' = row_id e.
Proof.
  intros Hk. unfold upsert. destruct (sel (fst a) rows) as [e0|] eqn:E; cbn.
  - rewrite select_update, Hk. cbn. eexists. split; [reflexivity|].
    destruct (row_id e =? row_id e0); auto.
  - rewrite select_app_other; eauto.
    destruct (matches k (fresh _ (fst a) (snd a))) eqn:M; auto.
    apply fresh_matches in M. subst k. congruence.
Qed.

(** A call for another key leaves the selected row as it is. *)
Lemma upsert_frame rows a k e :
  uniq rows -> sel k rows = Some e -> fst a <> k ->
  sel k (fst (ups rows a)) = Some e.
Proof.
  intros Hu Hk Hne. unfold upsert.
  destruct (sel (fst a) rows) as [e0|] eqn:E; cbn.
  - rewrite select_update, Hk. cbn.
    destruct (Z.eqb_spec (row_id e) (row_id e0)) as [Hid|]; auto.
    apply select_In in Hk as [Hin Hm]. apply select_In in E as [Hin0 Hm0].
    assert (e = e0) by (eapply NoDup_map_eq; eauto). subst e0.
    exfalso. apply Hne. eapply matches_key; eauto.
  - rewrite select_app_other; auto.
    destruct (matches k (fresh _ (fst a) (snd a))) eqn:M; auto.
    apply fresh_matches in M. congruence.
Qed.

Lemma upserts_stable acts : forall rows k e,
  sel k rows = Some e ->
  exists e', sel k (fst (upss rows acts)) = Some e' /\ row_id e' = row_id e.
Proof.
  induction acts as [|a l IH]; intros rows k e Hk; cbn; eauto.
  destruct (upsert_stable rows a k e Hk) as (e1 & H1 & Hid).
  destruct (IH _ _ _ H1) as (e2 & H2 & Hid2).
  exists e2. split; congruence.
Qed.

Lemma upserts_frame acts : forall rows k e,
  uniq rows -> sel k rows = Some e -> ~ In k (map fst acts) ->
  sel k (fst (upss rows acts)) = Some e.
Proof.
  induction acts as [|a l IH]; intros rows k e Hu Hk Hn; cbn; auto.
  apply IH.
  - now apply upsert_unique.
  - apply upsert_frame; auto. intros H. apply Hn. now left.
  - intros H. apply Hn. now right.
Qed.

Lemma upserts_app l1 : forall rows l2,
  upss rows (l1 ++ l2)
  = (fst (upss (fst (upss rows l1)) l2),
     snd (upss rows l1) ++ snd (upss (fst (upss rows l1)) l2)).
Proof.
  induction l1 as [|a l IH]; intros rows l2; cbn.
  - now destruct (upss rows l2).
  - now rewrite IH.
Qed.

(** Every key of the sequence selects, in the end, a row whose id was
    returned. *)
Lemma upserts_keys acts : forall rows k,
  In k (map fst acts) ->
  exists e, sel k (fst (upss rows acts)) = Some e /\
            In (row_id e) (snd (upss rows acts)).
Proof.
  induction acts as [|a l IH]; intros rows k; cbn; [intros []|].
  intros [<-|Hk].
  - destruct (upsert_select rows a) as (e & He & Hid & _).
    destruct (upserts_stable l _ _ _ He) as (e' & He' & Hid').
    exists e'. split; auto. left. congruence.
  - destruct (IH (fst (ups rows a)) k Hk) as (e & He & Hin). eauto.
Qed.

(** Every id returned is the id of the row some key of the sequence selects
    in the end. *)
Lemma upserts_ids acts : forall rows i,
  In i (snd (upss rows acts)) ->
  exists k e, In k (map fst acts) /\
              sel k (fst (upss rows acts)) = Some e /\ row_id e = i.
Proof.
  induction acts as [|a l IH]; intros rows i; cbn; [intros []|].
  intros [<-|Hi].
  - destruct (upsert_select rows a) as (e & He & Hid & _).
    destruct (upserts_stable l _ _ _ He) as (e' & He' & Hid').
    exists (fst a), e'. repeat split; auto. congruence.
  - destruct (IH _ _ Hi) as (k & e & Hk & He & Hid). eauto 6.
Qed.

(** The row the last call for a key leaves holds the payload of that call. *)
Lemma upserts_last rows l1 k p l2 :
  uniq rows -> ~ In k (map fst l2) ->
  exists e, sel k (fst (upss rows (l1 ++ (k, p) :: l2))) = Some e /\
            data (write p e) = data e.
Proof.
  intros Hu Hn. rewrite upserts_app. cbn [fst snd upserts].
  set (rows1 := fst (upss rows l1)).
  destruct (upsert_select rows1 (k, p)) as (e & He & _ & Hd). cbn [fst snd] in *.
  exists e. split; auto.
  apply upserts_frame; auto.
  apply upsert_unique. now apply upserts_unique.
Qed.

(** *** Replaying the calls on a table where every key already selects a row *)

Lemma target_update rows c p k :
  tgt (Sql.update_where c (write p) rows) k = tgt rows k.
Proof.
  unfold target. rewrite select_update. destruct (sel k rows) as [e|]; cbn; auto.
  destruct (c e); now rewrite ?write_id.
Qed.

Lemma replay1_same_targets rows rows' r a :
  (forall k, tgt rows' k = tgt rows k) -> rep1 rows' r a = rep1 rows r a.
Proof. intros H. unfold replay1, touches. now rewrite H. Qed.

Lemma replay_same_targets rows rows' acts : forall r,
  (forall k, tgt rows' k = tgt rows k) -> rep rows' acts r = rep rows acts r.
Proof.
  unfold replay. induction acts as [|a l IH]; intros r H; cbn; auto.
  rewrite (replay1_same_targets rows rows' r a H). now apply IH.
Qed.

Lemma upsert_found rows a e :
  sel (fst a) rows = Some e ->
  ups rows a = (map (fun r => rep1 rows r a) rows, row_id e).
Proof.
  intros E. unfold upsert, replay1, touches, target. rewrite E. reflexivity.
Qed.

(** When every key of the sequence selects a row, no call inserts: the table
    keeps its rows, each replayed, and the ids returned are the targets. *)
Lemma upserts_replay acts : forall rows,
  (forall a, In a acts -> sel (fst a) rows <> None) ->
  upss rows acts
  = (map (rep rows acts) rows,
     map (fun a => match tgt rows (fst a) with Some i => i | None => 0 end) acts).
Proof.
  induction acts as [|a l IH]; intros rows H; cbn.
  - f_equal. symmetry. apply map_id.
  - destruct (sel (fst a) rows) as [e|] eqn:E.
    2:{ exfalso. apply (H a); [now left|assumption]. }
    rewrite (upsert_found rows a e E). cbn [fst snd].
    assert (forall k, tgt (map (fun r => rep1 rows r a) rows) k = tgt rows k) as Ht.
    { intros k. unfold replay1. apply target_update. }
    rewrite IH.
    + f_equal.
      * rewrite map_map. apply map_ext. intros r.
        now rewrite (replay_same_targets rows).
      * f_equal; [unfold target; now rewrite E|].
        apply map_ext. intros b. now rewrite Ht.
    + intros b Hb Hn. apply (H b); [now right|].
      specialize (Ht (fst b)). unfold target in Ht. rewrite Hn in Ht.
      destruct (sel (fst b) rows); [discriminate|reflexivity].
Qed.

Lemma replay1_id rows r a : row_id (rep1 rows r a) = row_id r.
Proof. unfold replay1. destruct (tch rows r a); now rewrite ?write_id. Qed.

Lemma replay_id rows acts : forall r, row_id (rep rows acts r) = row_id r.
Proof.
  unfold replay. induction acts as [|a l IH]; intros r; cbn; auto.
  now rewrite IH, replay1_id.
Qed.

Lemma replay_snoc rows acts a r :
  rep rows (acts ++ [a]) r = rep1 rows (rep rows acts r) a.
Proof. unfold replay. now rewrite fold_left_app. Qed.

Lemma data_write_replay rows acts p : forall r,
  data (write p (rep rows acts r)) = data (write p r).
Proof.
  unfold replay. induction acts as [|a l IH]; intros r; cbn; auto.
  rewrite IH. unfold replay1. destruct (tch rows r a); auto.
Qed.

Lemma touches_replay rows acts r a : tch rows (rep rows acts r) a = tch rows r a.
Proof. unfold touches. now rewrite replay_id. Qed.

(** Replaying leaves the columns of a row alone when the last call that
    touches the row writes what the row already holds. *)
Lemma replay_data rows r acts :
  (forall l1 a l2, acts = l1 ++ a :: l2 -> tch rows r a = true ->
     (forall b, In b l2 -> tch rows r b = false) ->
     data (write (snd a) r) = data r) ->
  data (rep rows acts r) = data r.
Proof.
  induction acts as [|a l IH] using rev_ind; intros H; [reflexivity|].
  rewrite replay_snoc. unfold replay1. rewrite touches_replay.
  destruct (tch rows r a) eqn:T.
  - rewrite data_write_replay. apply (H l a []); auto. intros b [].
  - apply IH. intros l1 b l2 -> Tb Hl2.
    apply (H l1 b (l2 ++ [a])); auto.
    + now rewrite <- app_assoc.
    + intros c Hc. apply in_app_or in Hc as [Hc|[<-|[]]]; auto.
Qed.

(** The same for a table in which the last call for every key has left its
    payload. *)
Lemma replay_fixed rows acts r :
  uniq rows ->
  (forall l1 k p l2, acts = l1 ++ (k, p) :: l2 -> ~ In k (map fst l2) ->
     exists e, sel k rows = Some e /\ data (write p e) = data e) ->
  In r rows -> data (rep rows acts r) = data r.
Proof.
  intros Hu Hlast Hr. apply replay_data. intros l1 [k p] l2 Heq Ht Hl2.
  unfold touches, target in Ht. cbn [fst snd] in *.
  destruct (sel k rows) as [e0|] eqn:E0; [|discriminate]. cbn in Ht.
  apply Z.eqb_eq in Ht.
  destruct (select_In _ _ _ E0) as [Hin0 _].
  assert (r = e0) by (eapply NoDup_map_eq; eauto). subst e0.
  destruct (Hlast l1 k p l2 Heq) as (e & He & Hd); [|congruence].
  intros Hk. apply in_map_iff in Hk as (b & Hb & Hin).
  specialize (Hl2 b Hin). unfold touches, target in Hl2.
  rewrite Hb, E0 in Hl2. cbn in Hl2. now rewrite Z.eqb_refl in Hl2.
Qed.

End UpsertTheory.

(** *** The same calls a second time

    The second sequence of calls runs at another time: [write'] is [write]
    up to the columns [data] leaves out.  [table] stands for the table after
    the first sequence and what follows it (the closure statement), as long
    as the keys of the sequence still select the rows they selected. *)

Section UpsertTwice.

Context {Row Key Payload D : Type}.
Variable row_id : Row -> Z.
Variable matches : Key -> Row -> bool.
Variable order : list Row -> list Row.
Variables write write' : Payload -> Row -> Row.
Variables fresh fresh' : Z -> Key -> Payload -> Row.
Variable data : Row -> D.

Hypothesis write_id : forall p r, row_id (write p r) = row_id r.
Hypothesis write_matches : forall k p r, matches k (write p r) = matches k r.
Hypothesis order_write : forall (c : Row -> bool) p l,
  order (map (fun r => if c r then write p r else r) l)
  = map (fun r => if c r then write p r else r) (order l).
Hypothesis write'_id : forall p r, row_id (write' p r) = row_id r.
Hypothesis write'_matches : forall k p r, matches k (write' p r) = matches k r.
Hypothesis order_write' : forall (c : Row -> bool) p l,
  order (map (fun r => if c r then write' p r else r) l)
  = map (fun r => if c r then write' p r else r) (order l).
Hypothesis order_nil : forall l, order l = [] -> l = [].
Hypothesis order_In : forall e l, In e (order l) -> In e l.
Hypothesis fresh_id : forall i k p, row_id (fresh i k p) = i.
Hypothesis fresh_matches : forall i k p k',
  matches k' (fresh i k p) = true <-> k' = k.
Hypothesis matches_key : forall k k' r,
  matches k r = true -> matches k' r = true -> k = k'.
Hypothesis data_write_write : forall p q r,
  data (write p (write q r)) = data (write p r).
Hypothesis data_write_fresh : forall i k p,
  data (write p (fresh i k p)) = data (fresh i k p).
Hypothesis data_write'_write' : forall p q r,
  data (write' p (write' q r)) = data (write' p r).
Hypothesis data_write' : forall p r, data (write' p r) = data (write p r).

Lemma upserts_twice rows acts table :
  row_ids_unique row_id rows -> row_ids_unique row_id table ->
  (forall k e, In k (map fst acts) ->
     select matches order k (fst (upserts row_id matches order write fresh rows acts))
       = Some e ->
     select matches order k table = Some e) ->
  let second := upserts row_id matches order write' fresh' table acts in
  fst second = map (replay row_id matches order write' table acts) table /\
  snd second
  = map (fun a => match target row_id matches order table (fst a) with
                  | Some i => i
                  | None => 0
                  end) acts /\
  (forall r, In r table ->
     data (replay row_id matches order write' table acts r) = data r) /\
  (forall i, In i (snd (upserts row_id matches order write fresh rows acts)) ->
     In i (snd second)).
Proof.
  intros Hu Hut Hsel second.
  assert (forall k, In k (map fst acts) ->
            exists e,
              select matches order k
                (fst (upserts row_id matches order write fresh rows acts))
              = Some e) as Hkeys.
  { intros k Hk.
    assert (exists e,
              select matches order k
                (fst (upserts row_id matches order write fresh rows acts))
              = Some e /\
              In (row_id e)
                (snd (upserts row_id matches order write fresh rows acts)))
      as (e & He & _) by (eapply upserts_keys; eauto).
    eauto. }
  assert (forall a, In a acts -> select matches order (fst a) table <> None)
    as Hsome.
  { intros a Ha. destruct (Hkeys (fst a)) as (e & He); [now apply in_map|].
    rewrite (Hsel (fst a) e); [discriminate| |assumption]. now apply in_map. }
  unfold second. rewrite upserts_replay by eauto. cbn [fst snd].
  repeat split.
  - intros r Hr. eapply replay_fixed; eauto.
    intros l1 k p l2 Heq Hn.
    assert (exists e,
              select matches order k
                (fst (upserts row_id matches order write fresh rows
                        (l1 ++ (k, p) :: l2))) = Some e /\
              data (write p e) = data e)
      as (e & He & Hd) by (eapply upserts_last; eauto).
    exists e. split; [|now rewrite data_write'].
    apply Hsel; [|now rewrite Heq].
    rewrite Heq, map_app. apply in_or_app. right. now left.
  - intros i Hi.
    assert (exists k e, In k (map fst acts) /\
              select matches order k
                (fst (upserts row_id matches order write fresh rows acts))
              = Some e /\ row_id e = i)
      as (k & e & Hk & He & Hid) by (eapply upserts_ids; eauto).
    apply in_map_iff in Hk as (a & Ha & Hin).
    apply in_map_iff. exists a. split; auto.
    unfold target. rewrite Ha, (Hsel k e); cbn; auto.
    rewrite <- Ha. now apply in_map.
Qed.

End UpsertTwice.


(** ** The two tables as instances *)

Lemma insert_desc_In {Row} (ltb : Row -> Row -> bool) r e l :
  In e (Sql.insert_desc ltb r l) <-> e = r \/ In e l.
Proof.
  induction l as [|x l IH]; cbn.
  - intuition congruence.
  - destruct (ltb r x); cbn; rewrite ?IH; intuition congruence.
Qed.

Lemma order_by_desc_In {Row} (ltb : Row -> Row -> bool) e l :
  In e (Sql.order_by_desc ltb l) -> In e l.
Proof.
  induction l as [|x l IH]; cbn; auto.
  rewrite insert_desc_In. intuition.
Qed.

Lemma order_by_desc_nil {Row} (ltb : Row -> Row -> bool) l :
  Sql.order_by_desc ltb l = [] -> l = [].
Proof.
  destruct l as [|x l]; cbn; auto.
  destruct (Sql.order_by_desc ltb l) as [|y s]; cbn; [discriminate|].
  destruct (ltb x y); discriminate.
Qed.

Lemma insert_desc_map {Row} (ltb : Row -> Row -> bool) (f : Row -> Row) r l :
  (forall a b, ltb (f a) (f b) = ltb a b) ->
  Sql.insert_desc ltb (f r) (map f l) = map f (Sql.insert_desc ltb r l).
Proof.
  intros Hf. induction l as [|x l IH]; cbn; auto.
  rewrite Hf. destruct (ltb r x); cbn; now rewrite ?IH.
Qed.

Lemma order_by_desc_map {Row} (ltb : Row -> Row -> bool) (f : Row -> Row) l :
  (forall a b, ltb (f a) (f b) = ltb a b) ->
  Sql.order_by_desc ltb (map f l) = map f (Sql.order_by_desc ltb l).
Proof.
  intros Hf. induction l as [|x l IH]; cbn; auto.
  now rewrite IH, insert_desc_map.
Qed.

Lemma option_matches_true k r :
  option_matches k r = true <-> option_key r = k /\ o_closed r = None.
Proof. destruct k as [[[s t] x] d]. apply option_where_true. Qed.

Lemma option_write_matches clk k p r :
  option_matches k (option_write clk p r) = option_matches k r.
Proof. destruct k as [[[s t] x] d]. reflexivity. Qed.

Lemma option_fresh_id clk i k p : o_id (option_fresh clk i k p) = i.
Proof. destruct k as [[[s t] x] d]. reflexivity. Qed.

Lemma option_fresh_matches clk i k p k' :
  option_matches k' (option_fresh clk i k p) = true <-> k' = k.
Proof.
  rewrite option_matches_true. destruct k as [[[s t] x] d].
  unfold option_key. cbn. intuition congruence.
Qed.

Lemma option_matches_key k k' r :
  option_matches k r = true -> option_matches k' r = true -> k = k'.
Proof. rewrite !option_matches_true. intuition congruence. Qed.

Lemma option_data_write_fresh clk i k p :
  option_data (option_write clk p (option_fresh clk i k p))
  = option_data (option_fresh clk i k p).
Proof. destruct k as [[[s t] x] d]. reflexivity. Qed.

Lemma long_order_write clk (c : LongRow -> bool) p l :
  Sql.order_by_desc opened_ltb
    (map (fun r => if c r then long_write clk p r else r) l)
  = map (fun r => if c r then long_write clk p r else r)
      (Sql.order_by_desc opened_ltb l).
Proof.
  apply order_by_desc_map. intros a b. unfold opened_ltb.
  destruct (c a), (c b); reflexivity.
Qed.

Lemma long_fresh_matches clk i k p k' :
  long_where k' (long_fresh clk i k p) = true <-> k' = k.
Proof. rewrite long_where_true. cbn. intuition congruence. Qed.

Lemma long_matches_key k k' r :
  long_where k r = true -> long_where k' r = true -> k = k'.
Proof. rewrite !long_where_true. intuition congruence. Qed.

Lemma long_order_In e (l : list LongRow) :
  In e (Sql.order_by_desc opened_ltb l) -> In e l.
Proof. apply order_by_desc_In. Qed.

Lemma long_order_nil (l : list LongRow) :
  Sql.order_by_desc opened_ltb l = [] -> l = [].
Proof. apply order_by_desc_nil. Qed.

Create HintDb upsert_inst.

#[local] Hint Resolve option_write_matches option_fresh_id option_fresh_matches
  option_matches_key option_data_write_fresh long_order_write
  long_fresh_matches long_matches_key long_order_In long_order_nil : upsert_inst.

(** Either instance, for the side conditions of the lemmas on the pattern. *)
Ltac upsert_inst :=
  try solve [ reflexivity | intros; reflexivity | eauto with upsert_inst
            | intros; eauto with upsert_inst ].

Lemma option_select_In k rows e :
  option_select k rows = Some e ->
  In e rows /\ option_key e = k /\ o_closed e = None.
Proof.
  unfold option_select. intros H. eapply select_In in H; upsert_inst.
  destruct H as [Hin Hm]. apply option_matches_true in Hm. tauto.
Qed.

Lemma long_select_In k rows e :
  long_select k rows = Some e ->
  In e rows /\ l_symbol e = k /\ l_closed e = None.
Proof.
  unfold long_select. intros H. eapply select_In in H; upsert_inst.
  destruct H as [Hin Hm]. apply long_where_true in Hm. tauto.
Qed.

Lemma option_upserts_unique clk acts rows :
  row_ids_unique o_id rows ->
  row_ids_unique o_id (fst (option_upserts clk rows acts)).
Proof. unfold option_upserts. eapply upserts_unique; upsert_inst. Qed.

Lemma long_upserts_unique clk acts rows :
  row_ids_unique l_id rows ->
  row_ids_unique l_id (fst (long_upserts clk rows acts)).
Proof. unfold long_upserts. eapply upserts_unique; upsert_inst. Qed.

Lemma option_upserts_keys clk acts rows k :
  In k (map fst acts) ->
  exists e, option_select k (fst (option_upserts clk rows acts)) = Some e /\
            In (o_id e) (snd (option_upserts clk rows acts)).
Proof.
  unfold option_select, option_upserts.
  eapply (upserts_keys (D:=unit)) with (data := fun _ => tt); upsert_inst.
Qed.

Lemma long_upserts_keys clk acts rows k :
  In k (map fst acts) ->
  exists e, long_select k (fst (long_upserts clk rows acts)) = Some e /\
            In (l_id e) (snd (long_upserts clk rows acts)).
Proof.
  unfold long_select, long_upserts.
  eapply (upserts_keys (D:=unit)) with (data := fun _ => tt); upsert_inst.
Qed.

Lemma option_upserts_ids clk acts rows i :
  In i (snd (option_upserts clk rows acts)) ->
  exists k e, In k (map fst acts) /\
              option_select k (fst (option_upserts clk rows acts)) = Some e /\
              o_id e = i.
Proof.
  unfold option_select, option_upserts.
  eapply (upserts_ids (D:=unit)) with (data := fun _ => tt); upsert_inst.
Qed.

(** ** The loop as store calls on each table *)

Lemma with_errors_nil st : with_errors st [] = st.
Proof.
  destruct st as [db ids syms [s t a b c d e]]. unfold with_errors. cbn.
  now rewrite app_nil_r.
Qed.

Lemma with_errors_app st e1 e2 :
  with_errors (with_errors st e1) e2 = with_errors st (e1 ++ e2).
Proof. unfold with_errors. cbn. now rewrite app_assoc. Qed.

Lemma apply_action_with_errors clk a st errs :
  apply_action clk a (with_errors st errs)
  = with_errors (apply_action clk a st) errs.
Proof. destruct a; reflexivity. Qed.

Lemma run_actions_with_errors clk acts : forall st errs,
  run_actions clk acts (with_errors st errs)
  = with_errors (run_actions clk acts st) errs.
Proof.
  unfold run_actions. induction acts as [|a l IH]; intros st errs; cbn; auto.
  now rewrite apply_action_with_errors, IH.
Qed.

(** The loop runs the store calls that return, and gathers the messages of
    the items that fail. *)
Lemma sync_loop_actions env positions : forall i st,
  sync_loop env i positions st
  = with_errors
      (run_actions (clock env) (actions (outcomes env i positions)) st)
      (error_list (outcomes env i positions)).
Proof.
  induction positions as [|pos l IH]; intros i st; cbn.
  - now rewrite with_errors_nil.
  - rewrite IH, loop_body_outcome.
    destruct (item_outcome env i pos) as [e|a]; cbn; auto.
    change (record_error pos e st) with (with_errors st [item_error pos e]).
    now rewrite run_actions_with_errors, with_errors_app.
Qed.

Lemma sync_option_position_upsert clk db symbol ty strike expiration c p :
  let r := sync_option_position clk db symbol ty strike expiration c p in
  let u := upsert o_id option_matches (fun rows => rows) (option_write clk)
             (option_fresh clk) (options db)
             ((symbol, ty, strike, expiration), (c, p)) in
  options (fst r) = fst u /\ snd r = snd u /\
  symbols (fst r) = add_symbol (symbols db) symbol.
Proof.
  cbn zeta. unfold sync_option_position, upsert, select.
  rewrite ensure_symbol_exists_options. cbn [fst snd option_matches].
  assert (symbols (ensure_symbol_exists db symbol) = add_symbol (symbols db) symbol)
    as Hs.
  { unfold ensure_symbol_exists, add_symbol. now destruct (existsb _ _). }
  destruct (Sql.fetchone _); cbn; auto.
Qed.

Lemma sync_long_position_upsert clk db symbol shares buy_price :
  let r := sync_long_position clk db symbol shares buy_price in
  let u := upsert l_id long_where (Sql.order_by_desc opened_ltb) (long_write clk)
             (long_fresh clk) (long_positions db) (symbol, (shares, buy_price)) in
  long_positions (fst r) = fst u /\ snd r = snd u /\
  symbols (fst r) = add_symbol (symbols db) symbol.
Proof.
  cbn zeta. unfold sync_long_position, upsert, select.
  rewrite ensure_symbol_exists_long_positions. cbn [fst snd].
  assert (symbols (ensure_symbol_exists db symbol) = add_symbol (symbols db) symbol)
    as Hs.
  { unfold ensure_symbol_exists, add_symbol. now destruct (existsb _ _). }
  destruct (Sql.fetchone _); cbn; auto.
Qed.

Lemma run_actions_options clk acts : forall st,
  options (st_db (run_actions clk acts st))
  = fst (option_upserts clk (options (st_db st)) (option_acts acts)) /\
  st_option_ids (run_actions clk acts st)
  = st_option_ids st ++ snd (option_upserts clk (options (st_db st)) (option_acts acts)).
Proof.
  unfold run_actions, option_upserts.
  induction acts as [|a l IH]; intros st; cbn.
  - now rewrite app_nil_r.
  - destruct (IH (apply_action clk a st)) as [-> ->].
    destruct a as [symbol ty strike expiration c p|symbol shares buy_price|];
      cbn [apply_action st_db st_option_ids flat_map app upserts fst snd].
    + destruct (sync_option_position_upsert clk (st_db st) symbol ty strike
                  expiration c p) as (-> & -> & _).
      now rewrite <- app_assoc.
    + now rewrite sync_long_position_options.
    + auto.
Qed.

Lemma run_actions_long_positions clk acts : forall st,
  long_positions (st_db (run_actions clk acts st))
  = fst (long_upserts clk (long_positions (st_db st)) (long_acts acts)) /\
  st_stock_symbols (run_actions clk acts st)
  = st_stock_symbols st ++ map fst (long_acts acts).
Proof.
  unfold run_actions, long_upserts.
  induction acts as [|a l IH]; intros st; cbn.
  - now rewrite app_nil_r.
  - destruct (IH (apply_action clk a st)) as [-> ->].
    destruct a as [symbol ty strike expiration c p|symbol shares buy_price|];
      cbn [apply_action st_db st_stock_symbols flat_map app upserts fst snd map].
    + now rewrite sync_option_position_long_positions.
    + destruct (sync_long_position_upsert clk (st_db st) symbol shares buy_price)
        as (-> & _ & _).
      now rewrite <- app_assoc.
    + auto.
Qed.

Lemma run_actions_symbols clk acts : forall st,
  symbols (st_db (run_actions clk acts st))
  = fold_left add_symbol (action_symbols acts) (symbols (st_db st)).
Proof.
  unfold run_actions.
  induction acts as [|a l IH]; intros st; cbn; auto.
  rewrite IH.
  destruct a as [symbol ty strike expiration c p|symbol shares buy_price|];
    cbn [apply_action st_db flat_map app fold_left]; auto.
  - now destruct (sync_option_position_upsert clk (st_db st) symbol ty strike
                    expiration c p) as (_ & _ & ->).
  - now destruct (sync_long_position_upsert clk (st_db st) symbol shares buy_price)
      as (_ & _ & ->).
Qed.

(** ** A pass without fault at the level of the pass *)

Lemma sync_positions_finish env self db positions :
  session_ok env = true -> get_positions env = inr positions ->
  get_db_connection env = None ->
  close_options_fault env = None -> close_long_fault env = None ->
  sync_positions env self db
  = (fst (finish env (loop_end env db positions)),
     mkService (Some (now (clock env)))
       (Some (fst (finish env (loop_end env db positions)))),
     snd (finish env (loop_end env db positions))).
Proof.
  intros Hs Hp Hd Ho Hl. unfold sync_positions, session_ok in *.
  assert (negb (is_connected env) && negb (connect env) = false) as ->
    by (destruct (is_connected env), (connect env); auto; discriminate).
  unfold reconcile. now rewrite Hp, Hd, Ho, Hl.
Qed.

Lemma finish_with_error env st msg :
  finish env (with_errors st [msg])
  = (add_error (fst (finish env st)) msg, snd (finish env st)).
Proof. reflexivity. Qed.

Lemma finish_errors env st :
  errors (fst (finish env st)) = errors (st_result st) /\
  success (fst (finish env st)) = true.
Proof. split; reflexivity. Qed.

Lemma run_actions_errors clk acts : forall st,
  errors (st_result (run_actions clk acts st)) = errors (st_result st).
Proof.
  unfold run_actions. induction acts as [|a l IH]; intros st; cbn; auto.
  rewrite IH. destruct a; reflexivity.
Qed.

(** ** One failing item *)

Arguments item_error : simpl never.

Lemma outcomes_app env l1 : forall i l2,
  outcomes env i (l1 ++ l2)
  = outcomes env i l1 ++ outcomes env (i + List.length l1) l2.
Proof.
  induction l1 as [|pos l IH]; intros i l2; cbn.
  - now rewrite Nat.add_0_r.
  - rewrite IH. do 3 f_equal. lia.
Qed.

Lemma actions_app l1 l2 : actions (l1 ++ l2) = actions l1 ++ actions l2.
Proof. apply flat_map_app. Qed.

Lemma error_list_app l1 l2 : error_list (l1 ++ l2) = error_list l1 ++ error_list l2.
Proof. apply flat_map_app. Qed.

Lemma item_outcome_no_fault env i pos :
  item_fault env i = None -> item_outcome env i pos = item_action pos.
Proof.
  intros H. unfold item_outcome. rewrite H.
  destruct (item_action pos) as [|[]]; reflexivity.
Qed.

(** Items that all succeed lead to the same store calls in an environment
    without item faults, whatever their numbers there. *)
Lemma outcomes_all_ok env env0 l : forall i i0,
  (forall n, item_fault env0 n = None) ->
  (forall j pos, nth_error l j = Some pos ->
     exists a, item_outcome env (i + j) pos = inr a) ->
  actions (outcomes env i l) = actions (outcomes env0 i0 l) /\
  error_list (outcomes env i l) = [] /\
  error_list (outcomes env0 i0 l) = [].
Proof.
  induction l as [|pos l IH]; intros i i0 H0 Hok; cbn; auto.
  destruct (Hok 0%nat pos eq_refl) as (a & Ha).
  rewrite Nat.add_0_r in Ha.
  rewrite (item_outcome_no_fault env0 i0 pos) by auto.
  rewrite Ha, (item_outcome_action _ _ _ _ Ha).
  destruct (IH (S i) (S i0) H0) as (A1 & A2 & A3).
  { intros j p Hj. destruct (Hok (S j) p Hj) as (b & Hb).
    exists b. now rewrite <- Hb, Nat.add_succ_r. }
  unfold actions, error_list in *. now rewrite A1, A2, A3.
Qed.

Lemma item_error_contains pos e :
  contains (item_error pos e) (get (pos_symbol pos) "unknown"%string).
Proof.
  exists "Error syncing position "%string, (": " ++ str_exn e)%string.
  reflexivity.
Qed.


(** ** Convergence of the open rows to the snapshot *)

Lemma close_missing_options_eq clk db ids :
  fst (close_missing_options clk db ids)
  = set_options db
      (Sql.update_where (option_missing ids) (option_close clk) (options db)).
Proof.
  destruct ids; [|reflexivity]. cbn. f_equal. unfold Sql.update_where.
  apply map_ext. intros r. unfold option_missing. cbn. now rewrite andb_true_r.
Qed.

Lemma close_missing_long_positions_eq clk db syms :
  fst (close_missing_long_positions clk db syms)
  = set_long_positions db
      (Sql.update_where (long_missing syms) (long_close clk) (long_positions db)).
Proof.
  destruct syms; [|reflexivity]. cbn. f_equal. unfold Sql.update_where.
  apply map_ext. intros r. unfold long_missing. cbn. now rewrite andb_true_r.
Qed.

Lemma in_update_where_kept {Row} (cond : Row -> bool) set rows r :
  In r rows -> cond r = false -> In r (Sql.update_where cond set rows).
Proof.
  intros Hin Hc. unfold Sql.update_where. apply in_map_iff.
  exists r. now rewrite Hc.
Qed.

Lemma in_closed_options_open clk cond rows r :
  In r (Sql.update_where cond (option_close clk) rows) -> o_open r = true ->
  In r rows /\ cond r = false.
Proof.
  unfold Sql.update_where. intros Hin Ho.
  apply in_map_iff in Hin as (r0 & Hr & Hin).
  destruct (cond r0) eqn:C; subst r; [discriminate|auto].
Qed.

Lemma in_closed_longs_open clk cond rows r :
  In r (Sql.update_where cond (long_close clk) rows) -> l_open r = true ->
  In r rows /\ cond r = false.
Proof.
  unfold Sql.update_where. intros Hin Ho.
  apply in_map_iff in Hin as (r0 & Hr & Hin).
  destruct (cond r0) eqn:C; subst r; [discriminate|auto].
Qed.

Lemma option_missing_false ids r :
  o_open r = true -> (option_missing ids r = false <-> In (o_id r) ids).
Proof.
  intros Ho. unfold option_missing. rewrite Ho. cbn.
  rewrite negb_false_iff, existsb_exists. split.
  - intros (i & Hi & He). apply Z.eqb_eq in He. now subst.
  - intros H. exists (o_id r). split; auto. apply Z.eqb_refl.
Qed.

Lemma long_missing_false syms r :
  l_open r = true -> (long_missing syms r = false <-> In (l_symbol r) syms).
Proof.
  intros Ho. unfold long_missing. rewrite Ho. cbn.
  rewrite negb_false_iff, existsb_exists. split.
  - intros (i & Hi & He). apply String.eqb_eq in He. now subst.
  - intros H. exists (l_symbol r). split; auto. apply String.eqb_refl.
Qed.

(** The open option rows after the calls and the closure statement carry
    exactly the keys of the calls. *)
Lemma options_converge clk rows acts k :
  row_ids_unique o_id rows ->
  let u := option_upserts clk rows acts in
  In k (map option_key
          (filter o_open
             (Sql.update_where (option_missing (snd u)) (option_close clk) (fst u))))
  <-> In k (map fst acts).
Proof.
  intros Hu u. split.
  - intros Hk. apply in_map_iff in Hk as (r & <- & Hr).
    apply filter_In in Hr as [Hin Ho].
    apply in_closed_options_open in Hin as [Hin Hm]; auto.
    apply option_missing_false in Hm; auto.
    destruct (option_upserts_ids clk acts rows _ Hm) as (k0 & e & Hk0 & He & Hid).
    apply option_select_In in He as (Hein & Hek & _).
    assert (r = e) as ->; [|now rewrite Hek].
    apply (NoDup_map_eq o_id (fst u)); auto.
    now apply option_upserts_unique.
  - intros Hk.
    destruct (option_upserts_keys clk acts rows k Hk) as (e & He & Hid).
    apply option_select_In in He as (Hein & Hek & Hec).
    assert (o_open e = true) as Ho by (unfold o_open; now rewrite Hec).
    apply in_map_iff. exists e. split; auto.
    apply filter_In. split; auto.
    apply in_update_where_kept; auto. now apply option_missing_false.
Qed.

Lemma longs_converge clk rows acts s :
  In s (map l_symbol
          (filter l_open
             (Sql.update_where (long_missing (map fst acts)) (long_close clk)
                (fst (long_upserts clk rows acts)))))
  <-> In s (map fst acts).
Proof.
  split.
  - intros Hs. apply in_map_iff in Hs as (r & <- & Hr).
    apply filter_In in Hr as [Hin Ho].
    apply in_closed_longs_open in Hin as [Hin Hm]; auto.
    now apply long_missing_false in Hm.
  - intros Hs.
    destruct (long_upserts_keys clk acts rows s Hs) as (e & He & _).
    apply long_select_In in He as (Hein & Hek & Hec).
    assert (l_open e = true) as Ho by (unfold l_open; now rewrite Hec).
    apply in_map_iff. exists e. split; auto.
    apply filter_In. split; auto.
    apply in_update_where_kept; auto. apply long_missing_false; auto.
    now rewrite Hek.
Qed.

Lemma item_action_keys pos a :
  item_action pos = inr a ->
  position_option_key pos
  = match a with
    | SyncOption symbol ty strike expiration _ _ =>
        Some (symbol, ty, strike, expiration)
    | _ => None
    end /\
  position_stock_symbol pos
  = match a with
    | SyncLong symbol _ _ => Some symbol
    | _ => None
    end.
Proof.
  unfold item_action, position_option_key, position_stock_symbol.
  destruct (pos_sec_type pos) as [t|]; cbn; [|discriminate].
  destruct (String.eqb t "OPT").
  - destruct (pos_right pos); cbn; [|discriminate].
    destruct (pos_expiration pos); cbn; [|discriminate].
    destruct (parse_expiration _); cbn; [discriminate|].
    destruct (pos_avg_cost pos); cbn; [|discriminate].
    destruct (float_div _ _); cbn; [discriminate|].
    destruct (pos_symbol pos); cbn; [|discriminate].
    destruct (pos_strike pos); cbn; [|discriminate].
    destruct (pos_position pos); cbn; [|discriminate].
    intros H. injection H as <-. auto.
  - destruct (String.eqb t "STK").
    + destruct (pos_symbol pos); cbn; [|discriminate].
      destruct (pos_position pos); cbn; [|discriminate].
      destruct (pos_avg_cost pos); cbn; [|discriminate].
      intros H. injection H as <-.
      destruct (pos_right pos), (pos_expiration pos), (pos_strike pos); auto.
    + intros H. injection H as <-.
      destruct (pos_right pos), (pos_expiration pos), (pos_symbol pos),
        (pos_strike pos); auto.
Qed.

(** When no item fails, the store calls carry the keys of the snapshot. *)
Lemma keys_of_outcomes env l : forall i,
  error_list (outcomes env i l) = [] ->
  map fst (option_acts (actions (outcomes env i l))) = snapshot_option_keys l /\
  map fst (long_acts (actions (outcomes env i l))) = snapshot_stock_symbols l.
Proof.
  induction l as [|pos l IH]; intros i; [split; reflexivity|].
  cbn [outcomes].
  change (error_list ((pos, item_outcome env i pos) :: outcomes env (S i) l))
    with (match item_outcome env i pos with
          | inr _ => []
          | inl e => [item_error pos e]
          end ++ error_list (outcomes env (S i) l)).
  change (actions ((pos, item_outcome env i pos) :: outcomes env (S i) l))
    with (match item_outcome env i pos with
          | inr a => [a]
          | inl _ => []
          end ++ actions (outcomes env (S i) l)).
  change (snapshot_option_keys (pos :: l))
    with (match position_option_key pos with Some k => [k] | None => [] end
          ++ snapshot_option_keys l).
  change (snapshot_stock_symbols (pos :: l))
    with (match position_stock_symbol pos with Some k => [k] | None => [] end
          ++ snapshot_stock_symbols l).
  destruct (item_outcome env i pos) as [e|a] eqn:E; [discriminate|].
  cbn [app]. intros H. destruct (IH (S i) H) as [<- <-].
  apply item_outcome_action, item_action_keys in E as [-> ->].
  destruct a; split; reflexivity.
Qed.

Lemma loop_end_actions env db positions :
  loop_end env db positions
  = with_errors
      (run_actions (clock env) (actions (outcomes env 0 positions))
         (mkLoop db [] [] initial_result))
      (error_list (outcomes env 0 positions)).
Proof. apply sync_loop_actions. Qed.

(** The two tables at the end of a pass that met no fault at its level. *)
Lemma finish_tables env db positions :
  let acts := actions (outcomes env 0 positions) in
  let u := option_upserts (clock env) (options db) (option_acts acts) in
  let v := long_upserts (clock env) (long_positions db) (long_acts acts) in
  let db' := snd (finish env (loop_end env db positions)) in
  options db'
  = Sql.update_where (option_missing (snd u)) (option_close (clock env)) (fst u) /\
  long_positions db'
  = Sql.update_where (long_missing (map fst (long_acts acts)))
      (long_close (clock env)) (fst v) /\
  symbols db' = fold_left add_symbol (action_symbols acts) (symbols db).
Proof.
  cbn zeta. unfold finish. cbn [snd].
  rewrite close_missing_long_positions_eq, close_missing_options_eq.
  rewrite loop_end_actions. cbn [st_db st_option_ids st_stock_symbols with_errors
    set_long_positions set_options options long_positions symbols].
  set (st0 := mkLoop db [] [] initial_result).
  destruct (run_actions_options (clock env)
              (actions (outcomes env 0 positions)) st0) as [-> ->].
  destruct (run_actions_long_positions (clock env)
              (actions (outcomes env 0 positions)) st0) as [-> ->].
  rewrite run_actions_symbols. auto.
Qed.

(** C1, as the code has it: after a pass that returns success with an empty
    error list, the identity keys of the open option rows are exactly the
    option keys of the snapshot, and the symbols of the open share rows are
    exactly the symbols of its stock items. *)
Theorem clean_pass_converges env self db positions :
  wf_store db ->
  get_positions env = inr positions ->
  success (fst (fst (sync_positions env self db))) = true ->
  errors (fst (fst (sync_positions env self db))) = [] ->
  let db' := snd (sync_positions env self db) in
  (forall k, In k (open_option_keys db') <-> In k (snapshot_option_keys positions)) /\
  (forall s, In s (open_long_symbols db') <-> In s (snapshot_stock_symbols positions)).
Proof.
  intros [Hwo Hwl] Hp Hs He.
  destruct (sync_positions_success _ _ _ _ Hp Hs) as (Hso & Hd & Ho & Hl & _).
  rewrite (sync_positions_finish env self db positions Hso Hp Hd Ho Hl) in *.
  cbn [fst snd] in *.
  destruct (finish_errors env (loop_end env db positions)) as [Hfe _].
  rewrite Hfe, loop_end_actions in He. cbn [with_errors st_result errors] in He.
  apply app_eq_nil in He as [_ He].
  destruct (keys_of_outcomes env positions 0 He) as [Hk1 Hk2].
  destruct (finish_tables env db positions) as (Ht1 & Ht2 & _).
  cbn zeta in Ht1, Ht2. unfold open_option_keys, open_long_symbols.
  rewrite Ht1, Ht2. split.
  - intros k. rewrite <- Hk1. now apply options_converge.
  - intros s. rewrite <- Hk2. apply longs_converge.
Qed.

(** C1, counterexample: an option item with a zero multiplier raises on the
    division; the pass still returns success, and the key of the item is not
    among the open rows. *)
Lemma failed_item_key_not_open :
  let positions := [Scenario.aapl_zero_multiplier] in
  let r := sync_positions (Scenario.env_of positions) Scenario.no_service
             Scenario.empty_db in
  success (fst (fst r)) = true /\
  ~ (forall k, In k (open_option_keys (snd r))
               <-> In k (snapshot_option_keys positions)).
Proof.
  split; [reflexivity|]. intros H.
  apply (H ("AAPL"%string, Put, Q2Qc 150, mkdate 2024 6 21)).
  left. reflexivity.
Qed.

(** ** The same snapshot a second time *)

Lemma option_select_closed clk ids k rows e :
  option_select k rows = Some e -> option_missing ids e = false ->
  option_select k (Sql.update_where (option_missing ids) (option_close clk) rows)
  = Some e.
Proof.
  unfold option_select, select, Sql.fetchone, Sql.select_where, Sql.update_where.
  intros Hs Hm. induction rows as [|r l IH]; cbn in *; [discriminate|].
  destruct (option_matches k r) eqn:M.
  - cbn in Hs. injection Hs as ->. rewrite Hm, M. reflexivity.
  - destruct (option_missing ids r).
    + assert (option_matches k (option_close clk r) = false) as ->; auto.
      destruct (option_matches k (option_close clk r)) eqn:M'; auto.
      apply option_matches_true in M' as [_ Hc]. discriminate.
    + rewrite M. auto.
Qed.

Lemma long_select_closed clk syms s rows :
  In s syms ->
  long_select s (Sql.update_where (long_missing syms) (long_close clk) rows)
  = long_select s rows.
Proof.
  unfold long_select, select, Sql.select_where, Sql.update_where. intros Hs.
  f_equal. f_equal. induction rows as [|r l IH]; cbn; auto.
  destruct (long_where s r) eqn:M.
  - assert (long_missing syms r = false) as ->.
    { apply long_where_true in M as [<- Hc]. apply long_missing_false; auto.
      unfold l_open. now rewrite Hc. }
    rewrite M. now rewrite IH.
  - destruct (long_missing syms r).
    + assert (long_where s (long_close clk r) = false) as ->; auto.
      destruct (long_where s (long_close clk r)) eqn:M'; auto.
      apply long_where_true in M' as [_ Hc]. discriminate.
    + now rewrite M.
Qed.

Lemma option_upserts_twice c1 c2 rows acts table :
  row_ids_unique o_id rows -> row_ids_unique o_id table ->
  (forall k e, In k (map fst acts) ->
     option_select k (fst (option_upserts c1 rows acts)) = Some e ->
     option_select k table = Some e) ->
  fst (option_upserts c2 table acts)
  = map (replay o_id option_matches (fun rows => rows) (option_write c2) table acts)
      table /\
  snd (option_upserts c2 table acts)
  = map (fun a => match target o_id option_matches (fun rows => rows) table (fst a)
                  with
                  | Some i => i
                  | None => 0
                  end) acts /\
  (forall r, In r table ->
     option_data
       (replay o_id option_matches (fun rows => rows) (option_write c2) table acts r)
     = option_data r) /\
  (forall i, In i (snd (option_upserts c1 rows acts)) ->
     In i (snd (option_upserts c2 table acts))).
Proof.
  intros Hu Ht Hsel. unfold option_upserts, option_select in *.
  pose proof (upserts_twice o_id option_matches (fun rows => rows)
                (option_write c1) (option_write c2) (option_fresh c1)
                (option_fresh c2) option_data) as Htw.
  cbn zeta in Htw. eapply Htw; upsert_inst; eauto.
Qed.

Lemma long_upserts_twice c1 c2 rows acts table :
  row_ids_unique l_id rows -> row_ids_unique l_id table ->
  (forall k e, In k (map fst acts) ->
     long_select k (fst (long_upserts c1 rows acts)) = Some e ->
     long_select k table = Some e) ->
  fst (long_upserts c2 table acts)
  = map (replay l_id long_where (Sql.order_by_desc opened_ltb) (long_write c2)
           table acts) table /\
  snd (long_upserts c2 table acts)
  = map (fun a => match target l_id long_where (Sql.order_by_desc opened_ltb)
                          table (fst a)
                  with
                  | Some i => i
                  | None => 0
                  end) acts /\
  (forall r, In r table ->
     long_data
       (replay l_id long_where (Sql.order_by_desc opened_ltb) (long_write c2)
          table acts r)
     = long_data r) /\
  (forall i, In i (snd (long_upserts c1 rows acts)) ->
     In i (snd (long_upserts c2 table acts))).
Proof.
  intros Hu Ht Hsel. unfold long_upserts, long_select in *.
  pose proof (upserts_twice l_id long_where (Sql.order_by_desc opened_ltb)
                (long_write c1) (long_write c2) (long_fresh c1)
                (long_fresh c2) long_data) as Htw.
  cbn zeta in Htw. eapply Htw; upsert_inst; eauto.
Qed.

Lemma update_where_none {Row} (cond : Row -> bool) set rows :
  (forall r, In r rows -> cond r = false) -> Sql.update_where cond set rows = rows.
Proof.
  intros H. unfold Sql.update_where. rewrite <- (map_id rows) at 2.
  apply map_ext_in. intros r Hr. now rewrite H.
Qed.

Lemma rowcount_none {Row} (cond : Row -> bool) rows :
  (forall r, In r rows -> cond r = false) -> Sql.rowcount cond rows = 0.
Proof.
  intros H. unfold Sql.rowcount.
  now replace (filter cond rows) with (@nil Row) by (symmetry; now apply filter_nil_iff).
Qed.

Lemma close_missing_options_count clk db ids :
  snd (close_missing_options clk db ids)
  = Sql.rowcount (option_missing ids) (options db).
Proof.
  destruct ids; [|reflexivity]. cbn. unfold Sql.rowcount. do 2 f_equal.
  apply filter_ext. intros r. unfold option_missing. cbn. now rewrite andb_true_r.
Qed.

Lemma close_missing_long_positions_count clk db syms :
  snd (close_missing_long_positions clk db syms)
  = Sql.rowcount (long_missing syms) (long_positions db).
Proof.
  destruct syms; [|reflexivity]. cbn. unfold Sql.rowcount. do 2 f_equal.
  apply filter_ext. intros r. unfold long_missing. cbn. now rewrite andb_true_r.
Qed.

Lemma closed_options_ids clk cond rows :
  map o_id (Sql.update_where cond (option_close clk) rows) = map o_id rows.
Proof.
  unfold Sql.update_where. rewrite map_map. apply map_ext.
  intros r. now destruct (cond r).
Qed.

Lemma closed_longs_ids clk cond rows :
  map l_id (Sql.update_where cond (long_close clk) rows) = map l_id rows.
Proof.
  unfold Sql.update_where. rewrite map_map. apply map_ext.
  intros r. now destruct (cond r).
Qed.

(** The options table under the calls of the same snapshot, after a first
    pass: no column but [updated_at] changes, and the closure statement finds
    nothing to close. *)
Lemma options_second_pass c1 c2 rows acts :
  row_ids_unique o_id rows ->
  let u1 := option_upserts c1 rows acts in
  let table := Sql.update_where (option_missing (snd u1)) (option_close c1) (fst u1) in
  let u2 := option_upserts c2 table acts in
  map option_data (fst u2) = map option_data table /\
  (forall r, In r (fst u2) -> option_missing (snd u2) r = false) /\
  (forall k, In k (map fst acts) -> option_select k table <> None).
Proof.
  intros Hu u1 table u2.
  assert (row_ids_unique o_id table) as Ht.
  { unfold row_ids_unique, table. rewrite closed_options_ids.
    now apply option_upserts_unique. }
  assert (forall k e, In k (map fst acts) ->
            option_select k (fst u1) = Some e -> option_select k table = Some e)
    as Hsel.
  { intros k e Hk He.
    destruct (option_upserts_keys c1 acts rows k Hk) as (e' & He' & Hid).
    assert (e' = e) by (unfold u1 in He; congruence). subst e'.
    apply option_select_closed; auto.
    apply option_select_In in He as (_ & _ & Hc).
    apply option_missing_false; auto. unfold o_open. now rewrite Hc. }
  destruct (option_upserts_twice c1 c2 rows acts table Hu Ht Hsel)
    as (H1 & _ & H3 & H4).
  fold u2 in H1, H4. split; [|split].
  3:{ intros k Hk.
      destruct (option_upserts_keys c1 acts rows k Hk) as (e & He & _).
      now rewrite (Hsel k e Hk He). }
  - rewrite H1, map_map. now apply map_ext_in.
  - intros r2 Hr2. rewrite H1 in Hr2.
    apply in_map_iff in Hr2 as (r & <- & Hr).
    specialize (H3 r Hr).
    pose proof (f_equal (fun d => fst (fst (fst (fst (fst d))))) H3) as Hid.
    pose proof (f_equal snd H3) as Hcl. cbn in Hid, Hcl.
    destruct (o_open r) eqn:Ho.
    + apply in_closed_options_open in Hr as [Hr Hm]; auto.
      apply option_missing_false in Hm; auto.
      apply option_missing_false.
      * unfold o_open in *. now rewrite Hcl.
      * rewrite Hid. now apply H4.
    + unfold option_missing, o_open in *. now rewrite Hcl, Ho.
Qed.

Lemma longs_second_pass c1 c2 rows acts :
  row_ids_unique l_id rows ->
  let v1 := long_upserts c1 rows acts in
  let table := Sql.update_where (long_missing (map fst acts)) (long_close c1)
                 (fst v1) in
  let v2 := long_upserts c2 table acts in
  map long_data (fst v2) = map long_data table /\
  (forall r, In r (fst v2) -> long_missing (map fst acts) r = false) /\
  (forall k, In k (map fst acts) -> long_select k table <> None).
Proof.
  intros Hu v1 table v2.
  assert (row_ids_unique l_id table) as Ht.
  { unfold row_ids_unique, table. rewrite closed_longs_ids.
    now apply long_upserts_unique. }
  assert (forall k e, In k (map fst acts) ->
            long_select k (fst v1) = Some e -> long_select k table = Some e)
    as Hsel.
  { intros k e Hk He. unfold table. now rewrite long_select_closed. }
  destruct (long_upserts_twice c1 c2 rows acts table Hu Ht Hsel)
    as (H1 & _ & H3 & _).
  fold v2 in H1. split; [|split].
  3:{ intros k Hk.
      destruct (long_upserts_keys c1 acts rows k Hk) as (e & He & _).
      now rewrite (Hsel k e Hk He). }
  - rewrite H1, map_map. now apply map_ext_in.
  - intros r2 Hr2. rewrite H1 in Hr2.
    apply in_map_iff in Hr2 as (r & <- & Hr).
    specialize (H3 r Hr).
    pose proof (f_equal (fun d => snd (fst (fst (fst (fst d))))) H3) as Hsym.
    pose proof (f_equal snd H3) as Hcl. cbn in Hsym, Hcl.
    unfold long_missing, l_open. rewrite Hsym, Hcl.
    destruct (l_open r) eqn:Ho.
    + destruct (in_closed_longs_open _ _ _ _ Hr Ho) as [_ Hm].
      unfold long_missing in Hm. rewrite Ho in Hm.
      unfold l_open in Ho. now rewrite Ho.
    + unfold l_open in Ho. now rewrite Ho.
Qed.

Lemma add_symbol_present syms s : In s syms -> add_symbol syms s = syms.
Proof.
  intros H. unfold add_symbol.
  assert (existsb (String.eqb s) syms = true) as ->; auto.
  apply existsb_exists. exists s. split; auto. apply String.eqb_refl.
Qed.

Lemma add_symbol_In syms s x : In x syms \/ x = s -> In x (add_symbol syms s).
Proof.
  unfold add_symbol. destruct (existsb (String.eqb s) syms) eqn:E.
  - intros [H|H]; auto. subst x. apply existsb_exists in E as (y & Hy & He).
    apply String.eqb_eq in He. now subst.
  - intros [H|H]; apply in_or_app; [now left|right; left; now subst].
Qed.

Lemma add_symbols_In l : forall syms x,
  In x syms \/ In x l -> In x (fold_left add_symbol l syms).
Proof.
  induction l as [|s l IH]; intros syms x; cbn; [tauto|].
  intros H. apply IH. destruct H as [H|[<-|H]]; auto.
  - left. apply add_symbol_In. auto.
  - left. apply add_symbol_In. auto.
Qed.

Lemma add_symbols_present l : forall syms,
  (forall s, In s l -> In s syms) -> fold_left add_symbol l syms = syms.
Proof.
  induction l as [|s l IH]; intros syms H; cbn; auto.
  rewrite add_symbol_present by (apply H; now left).
  apply IH. intros x Hx. apply H. now right.
Qed.

Lemma add_symbols_twice l syms :
  fold_left add_symbol l (fold_left add_symbol l syms)
  = fold_left add_symbol l syms.
Proof. apply add_symbols_present. intros s Hs. apply add_symbols_In. auto. Qed.

Lemma outcomes_no_fault env l : forall i,
  (forall n, item_fault env n = None) ->
  outcomes env i l = map (fun pos => (pos, item_action pos)) l.
Proof.
  induction l as [|pos l IH]; intros i H; cbn; auto.
  now rewrite IH, item_outcome_no_fault.
Qed.

Lemma finish_counts env db positions :
  let acts := actions (outcomes env 0 positions) in
  let u := option_upserts (clock env) (options db) (option_acts acts) in
  let v := long_upserts (clock env) (long_positions db) (long_acts acts) in
  let r := fst (finish env (loop_end env db positions)) in
  options_closed r = Sql.rowcount (option_missing (snd u)) (fst u) /\
  positions_closed r
  = Sql.rowcount (long_missing (map fst (long_acts acts))) (fst v) /\
  errors r = error_list (outcomes env 0 positions) /\
  success r = true.
Proof.
  cbn zeta. unfold finish. cbn [fst].
  unfold set_success, set_positions_closed, set_options_closed.
  cbn [options_closed positions_closed errors success].
  rewrite close_missing_long_positions_count, close_missing_options_count.
  rewrite close_missing_options_long_positions.
  rewrite loop_end_actions.
  cbn [st_db st_option_ids st_stock_symbols st_result with_errors errors].
  set (st0 := mkLoop db [] [] initial_result).
  destruct (run_actions_options (clock env)
              (actions (outcomes env 0 positions)) st0) as [-> ->].
  destruct (run_actions_long_positions (clock env)
              (actions (outcomes env 0 positions)) st0) as [-> ->].
  rewrite run_actions_errors. auto.
Qed.


(** ** The theorems at concrete stores and snapshots *)

Lemma clean_pass_converges_witness :
  let positions := [Scenario.aapl_short; Scenario.msft_stock] in
  let db' := snd (sync_positions (Scenario.env_of positions) Scenario.no_service
                    Scenario.portfolio_db) in
  (forall k, In k (open_option_keys db') <-> In k (snapshot_option_keys positions)) /\
  (forall s, In s (open_long_symbols db') <-> In s (snapshot_stock_symbols positions)).
Proof.
  apply (clean_pass_converges
           (Scenario.env_of [Scenario.aapl_short; Scenario.msft_stock])
           Scenario.no_service Scenario.portfolio_db
           [Scenario.aapl_short; Scenario.msft_stock]).
  - split; cbn; (constructor; [intros []|constructor]).
  - reflexivity.
  - reflexivity.
  - reflexivity.
Defined.


Lemma identity_keys_stay_unique_witness :
  unique_open_keys
    (snd (run_passes
            [Scenario.env_of Scenario.doubled_snapshot;
             Scenario.env_next_day [Scenario.aapl_call_spelled];
             Scenario.env_locked_at_closure]
            Scenario.no_service Scenario.aapl_db)).
Proof.
  apply (identity_keys_stay_unique
           [Scenario.env_of Scenario.doubled_snapshot;
            Scenario.env_next_day [Scenario.aapl_call_spelled];
            Scenario.env_locked_at_closure]
           Scenario.no_service Scenario.aapl_db).
  unfold unique_open_keys. cbn. constructor; [intros []|constructor].
Defined.


(* ------------------------------------------------------------------ *)
(** * Further properties of the store and of a pass *)

(** ** The two outcomes of a sync call *)

Lemma sync_option_position_cases clk db symbol ty strike expiration c p :
  let r := sync_option_position clk db symbol ty strike expiration c p in
  symbols (fst r) = add_symbol (symbols db) symbol /\
  long_positions (fst r) = long_positions db /\
  ((exists e,
      In e (options db) /\ option_key e = (symbol, ty, strike, expiration) /\
      o_closed e = None /\
      options (fst r)
      = Sql.update_where (fun r0 => o_id r0 =? o_id e)
          (option_set c p (now clk)) (options db) /\
      snd r = o_id e) \/
   ((forall r0, In r0 (options db) ->
       option_where symbol ty strike expiration r0 = false) /\
    options (fst r)
    = options db ++
        [mkOptionRow (Sql.lastrowid (map o_id (options db))) symbol ty
           (today clk) strike expiration p c None (now clk)] /\
    snd r = Sql.lastrowid (map o_id (options db)))).
Proof.
  cbn zeta.
  destruct (sync_option_position_upsert clk db symbol ty strike expiration c p)
    as (_ & _ & Hs).
  split; [exact Hs|]. split; [apply sync_option_position_long_positions|].
  unfold sync_option_position. rewrite ensure_symbol_exists_options.
  destruct (Sql.fetchone _) as [e|] eqn:E; cbn [fst snd set_options options].
  - left. apply fetchone_select_where in E as [Hin Hw].
    apply option_where_true in Hw as [Hk Hc]. exists e. auto.
  - right. split; auto. now apply fetchone_select_where_none.
Qed.

Lemma date_ltb_asym a b : date_ltb a b = true -> date_ltb b a = false.
Proof.
  unfold date_ltb.
  destruct (Z.ltb_spec (year a) (year b)), (Z.ltb_spec (year b) (year a)),
    (Z.eqb_spec (year a) (year b)), (Z.eqb_spec (year b) (year a)),
    (Z.ltb_spec (month a) (month b)), (Z.ltb_spec (month b) (month a)),
    (Z.eqb_spec (month a) (month b)), (Z.eqb_spec (month b) (month a)),
    (Z.ltb_spec (day a) (day b)), (Z.ltb_spec (day b) (day a));
    cbn; intros; try reflexivity; try discriminate; lia.
Qed.

Lemma date_ltb_lt a b :
  date_ltb a b = true <->
  year a < year b \/
  (year a = year b /\ (month a < month b \/ (month a = month b /\ day a < day b))).
Proof.
  unfold date_ltb.
  rewrite !orb_true_iff, !andb_true_iff, !orb_true_iff, !andb_true_iff,
    !Z.ltb_lt, !Z.eqb_eq. tauto.
Qed.

Lemma date_ltb_neg_trans a b c :
  date_ltb a b = false -> date_ltb b c = false -> date_ltb a c = false.
Proof.
  intros H1 H2. destruct (date_ltb a c) eqn:H3; auto.
  apply date_ltb_lt in H3.
  assert (~ date_ltb a b = true) as N1 by congruence.
  assert (~ date_ltb b c = true) as N2 by congruence.
  rewrite date_ltb_lt in N1, N2. lia.
Qed.

(** The first row of [ORDER BY key DESC] has a largest key. *)
Lemma order_by_desc_head {Row} (ltb : Row -> Row -> bool) l e :
  (forall a b, ltb a b = true -> ltb b a = false) ->
  (forall a b c, ltb a b = false -> ltb b c = false -> ltb a c = false) ->
  hd_error (Sql.order_by_desc ltb l) = Some e ->
  forall r, In r l -> ltb e r = false.
Proof.
  intros Hasym Htrans. revert e.
  assert (forall a, ltb a a = false) as Hirr.
  { intros a. destruct (ltb a a) eqn:E; auto.
    pose proof (Hasym _ _ E). congruence. }
  induction l as [|x l IH]; intros e; cbn; [intros _ r []|].
  destruct (Sql.order_by_desc ltb l) as [|h s] eqn:E; cbn.
  - apply order_by_desc_nil in E. subst l.
    intros H r [<-|[]]. injection H as <-. apply Hirr.
  - specialize (IH h eq_refl).
    destruct (ltb x h) eqn:L; cbn; intros H; injection H as <-;
      intros r [<-|Hr]; auto.
    eapply Htrans; eauto.
Qed.

Lemma sync_long_position_cases clk db symbol shares buy_price :
  let r := sync_long_position clk db symbol shares buy_price in
  symbols (fst r) = add_symbol (symbols db) symbol /\
  options (fst r) = options db /\
  ((exists e,
      In e (long_positions db) /\ l_symbol e = symbol /\ l_closed e = None /\
      (forall r0, In r0 (long_positions db) -> l_symbol r0 = symbol ->
         l_closed r0 = None -> date_ltb (l_opened e) (l_opened r0) = false) /\
      long_positions (fst r)
      = Sql.update_where (fun r0 => l_id r0 =? l_id e)
          (long_set shares buy_price (now clk)) (long_positions db) /\
      snd r = l_id e) \/
   ((forall r0, In r0 (long_positions db) -> long_where symbol r0 = false) /\
    long_positions (fst r)
    = long_positions db ++
        [mkLongRow (Sql.lastrowid (map l_id (long_positions db))) symbol
           (today clk) shares buy_price None (now clk)] /\
    snd r = Sql.lastrowid (map l_id (long_positions db)))).
Proof.
  cbn zeta.
  destruct (sync_long_position_upsert clk db symbol shares buy_price)
    as (_ & _ & Hs).
  split; [exact Hs|]. split; [apply sync_long_position_options|].
  unfold sync_long_position. rewrite ensure_symbol_exists_long_positions.
  destruct (Sql.fetchone _) as [e|] eqn:E;
    cbn [fst snd set_long_positions long_positions].
  - left. exists e.
    assert (In e (Sql.select_where (long_where symbol) (long_positions db)))
      as Hin.
    { apply order_by_desc_In with (ltb := opened_ltb). unfold Sql.fetchone in E.
      destruct (Sql.order_by_desc _ _); [discriminate|].
      injection E as ->. now left. }
    apply filter_In in Hin as [Hin Hw]. apply long_where_true in Hw as [Hk Hc].
    repeat split; auto.
    intros r0 Hr0 Hs0 Hc0.
    apply (order_by_desc_head opened_ltb
             (Sql.select_where (long_where symbol) (long_positions db)) e).
    + intros a b. apply date_ltb_asym.
    + intros a b c0. apply date_ltb_neg_trans.
    + exact E.
    + apply filter_In. split; auto. now apply long_where_true.
  - right. split; auto. intros r0 Hr0.
    unfold Sql.fetchone in E.
    destruct (Sql.order_by_desc _ _) eqn:O; [|discriminate].
    apply order_by_desc_nil in O.
    destruct (long_where symbol r0) eqn:W; auto.
    assert (In r0 (Sql.select_where (long_where symbol) (long_positions db)))
      as Hin by (apply filter_In; auto).
    rewrite O in Hin. destruct Hin.
Qed.

(** ** Properties every store call keeps, kept by a pass *)

Lemma apply_action_db clk a st :
  st_db (apply_action clk a st) = action_db clk a (st_db st).
Proof. destruct a; reflexivity. Qed.

(** A property of the store kept by the two sync calls (on the arguments an
    item can lead to) and by the two closure statements is kept by
    [sync_positions], whatever fails on the way. *)
Lemma pass_invariant (P : Store -> Prop) env self db :
  (forall clk pos a db0, item_action pos = inr a -> P db0 ->
     P (action_db clk a db0)) ->
  (forall clk db0 ids, P db0 -> P (fst (close_missing_options clk db0 ids))) ->
  (forall clk db0 syms, P db0 ->
     P (fst (close_missing_long_positions clk db0 syms))) ->
  P db -> P (snd (sync_positions env self db)).
Proof.
  intros Hact Hco Hcl Hdb. unfold sync_positions.
  destruct (negb (is_connected env) && negb (connect env)); cbn [snd]; auto.
  unfold reconcile.
  destruct (get_positions env) as [|positions]; cbn [snd]; auto.
  destruct (get_db_connection env); cbn [snd]; auto.
  assert (forall l i st, P (st_db st) -> P (st_db (sync_loop env i l st))) as Hloop.
  { induction l as [|pos l IH]; intros i st Hst; cbn; auto.
    apply IH. rewrite loop_body_outcome.
    destruct (item_outcome env i pos) as [e|a] eqn:E; cbn; auto.
    rewrite apply_action_db. eapply Hact; eauto.
    eapply item_outcome_action; eauto. }
  specialize (Hloop positions 0%nat (mkLoop db [] [] initial_result) Hdb).
  destruct (close_options_fault env); cbn [snd]; auto.
  destruct (close_long_fault env); cbn [snd fst]; auto.
Qed.

Lemma update_where_nth {Row} (cond : Row -> bool) set rows n r :
  nth_error rows n = Some r -> cond r = false ->
  nth_error (Sql.update_where cond set rows) n = Some r.
Proof.
  intros Hn Hc. unfold Sql.update_where.
  erewrite map_nth_error by eassumption. now rewrite Hc.
Qed.

Lemma nth_error_app_left {A} (l more : list A) n a :
  nth_error l n = Some a -> nth_error (l ++ more) n = Some a.
Proof.
  intros H. rewrite nth_error_app1; auto. apply nth_error_Some. congruence.
Qed.

Lemma action_db_unique clk a db : wf_store db -> wf_store (action_db clk a db).
Proof.
  intros [Ho Hl]. unfold wf_store.
  destruct a as [symbol ty strike expiration c p|symbol shares buy_price|];
    cbn [action_db]; auto.
  - destruct (sync_option_position_cases clk db symbol ty strike expiration c p)
      as (_ & -> & [(e & _ & _ & _ & -> & _)|(_ & -> & _)]); split; auto.
    + unfold Sql.update_where. rewrite map_map.
      erewrite map_ext; [exact Ho|]. intros r. now destruct (o_id r =? o_id e).
    + rewrite map_app. apply NoDup_app; auto.
      * constructor; [intros []|constructor].
      * intros x Hx [<-|[]]. now apply lastrowid_fresh in Hx.
  - destruct (sync_long_position_cases clk db symbol shares buy_price)
      as (_ & -> & [(e & _ & _ & _ & _ & -> & _)|(_ & -> & _)]); split; auto.
    + unfold Sql.update_where. rewrite map_map.
      erewrite map_ext; [exact Hl|]. intros r. now destruct (l_id r =? l_id e).
    + rewrite map_app. apply NoDup_app; auto.
      * constructor; [intros []|constructor].
      * intros x Hx [<-|[]]. now apply lastrowid_fresh in Hx.
Qed.

Lemma close_missing_options_unique_ids clk db ids :
  wf_store db -> wf_store (fst (close_missing_options clk db ids)).
Proof.
  intros [Ho Hl]. rewrite close_missing_options_eq. split; cbn; auto.
  now rewrite closed_options_ids.
Qed.

Lemma close_missing_long_positions_unique_ids clk db syms :
  wf_store db -> wf_store (fst (close_missing_long_positions clk db syms)).
Proof.
  intros [Ho Hl]. rewrite close_missing_long_positions_eq. split; cbn; auto.
  now rewrite closed_longs_ids.
Qed.

(** X1: a pass keeps the ids of each table distinct, whatever the snapshot
    and whatever fails: an UPDATE keeps ids and an INSERT takes an id larger
    than all ids in use. *)
Theorem pass_keeps_ids_unique env self db :
  wf_store db -> wf_store (snd (sync_positions env self db)).
Proof.
  apply pass_invariant.
  - intros clk pos a db0 _. apply action_db_unique.
  - intros. now apply close_missing_options_unique_ids.
  - intros. now apply close_missing_long_positions_unique_ids.
Qed.

Lemma pass_keeps_ids_unique_witness :
  wf_store (snd (sync_positions (Scenario.env_of Scenario.doubled_snapshot)
                   Scenario.no_service Scenario.portfolio_db)).
Proof.
  apply (pass_keeps_ids_unique (Scenario.env_of Scenario.doubled_snapshot)
           Scenario.no_service Scenario.portfolio_db).
  split; cbn; (constructor; [intros []|constructor]).
Defined.

(** *** Rows are never deleted, renumbered or re-keyed *)

Lemma extends_refl db : extends db db.
Proof. repeat split; exists []; now rewrite app_nil_r. Qed.

Lemma extends_trans a b c : extends a b -> extends b c -> extends a c.
Proof.
  intros ((x1 & H1) & (x2 & H2) & (x3 & H3)) ((y1 & K1) & (y2 & K2) & (y3 & K3)).
  repeat split.
  - exists (x1 ++ y1). now rewrite K1, H1, app_assoc.
  - exists (x2 ++ y2). now rewrite K2, H2, app_assoc.
  - exists (x3 ++ y3). now rewrite K3, H3, app_assoc.
Qed.

Lemma add_symbol_extends syms s : exists more, add_symbol syms s = syms ++ more.
Proof.
  unfold add_symbol. destruct (existsb _ _).
  - exists []. now rewrite app_nil_r.
  - now exists [s].
Qed.

Lemma action_db_extends clk a db : extends db (action_db clk a db).
Proof.
  destruct a as [symbol ty strike expiration c p|symbol shares buy_price|];
    cbn [action_db]; [| |apply extends_refl].
  - destruct (sync_option_position_cases clk db symbol ty strike expiration c p)
      as (Hs & Hl & Ho). unfold extends. rewrite Hs, Hl.
    split; [|split; [exists []; now rewrite app_nil_r|apply add_symbol_extends]].
    destruct Ho as [(e & _ & _ & _ & -> & _)|(_ & -> & _)].
    + exists []. rewrite app_nil_r. unfold Sql.update_where. rewrite map_map.
      apply map_ext. intros r. now destruct (o_id r =? o_id e).
    + eexists. now rewrite map_app.
  - destruct (sync_long_position_cases clk db symbol shares buy_price)
      as (Hs & Ho & Hl). unfold extends. rewrite Hs, Ho.
    split; [exists []; now rewrite app_nil_r|].
    split; [|apply add_symbol_extends].
    destruct Hl as [(e & _ & _ & _ & _ & -> & _)|(_ & -> & _)].
    + exists []. rewrite app_nil_r. unfold Sql.update_where. rewrite map_map.
      apply map_ext. intros r. now destruct (l_id r =? l_id e).
    + eexists. now rewrite map_app.
Qed.

Lemma close_missing_options_extends clk db ids :
  extends db (fst (close_missing_options clk db ids)).
Proof.
  rewrite close_missing_options_eq. repeat split; cbn;
    exists []; rewrite app_nil_r; auto.
  unfold Sql.update_where. rewrite map_map. apply map_ext.
  intros r. now destruct (option_missing ids r).
Qed.

Lemma close_missing_long_positions_extends clk db syms :
  extends db (fst (close_missing_long_positions clk db syms)).
Proof.
  rewrite close_missing_long_positions_eq. repeat split; cbn;
    exists []; rewrite app_nil_r; auto.
  unfold Sql.update_where. rewrite map_map. apply map_ext.
  intros r. now destruct (long_missing syms r).
Qed.

(** X2: a pass only appends: after it, each table starts with the rows it
    had, in the same order and with the same id, identity key and opened
    date, and the symbols table starts with the symbols it had.  No row is
    deleted, renumbered or re-keyed, whatever fails on the way. *)
Theorem pass_only_appends env self db :
  let db' := snd (sync_positions env self db) in
  (exists more, map option_identity (options db')
                = map option_identity (options db) ++ more) /\
  (exists more, map long_identity (long_positions db')
                = map long_identity (long_positions db) ++ more) /\
  (exists more, symbols db' = symbols db ++ more).
Proof.
  cbn zeta. change (extends db (snd (sync_positions env self db))).
  apply (pass_invariant (extends db)).
  - intros clk pos a db0 _ H. eapply extends_trans; eauto.
    apply action_db_extends.
  - intros clk db0 ids H. eapply extends_trans; eauto.
    apply close_missing_options_extends.
  - intros clk db0 syms H. eapply extends_trans; eauto.
    apply close_missing_long_positions_extends.
  - apply extends_refl.
Qed.

(** *** Closed rows are history *)

Lemma keeps_closed_refl db : keeps_closed db db.
Proof. split; auto. Qed.

Lemma keeps_closed_trans a b c :
  keeps_closed a b -> keeps_closed b c -> keeps_closed a c.
Proof. intros [H1 H2] [K1 K2]. split; intros n r Hn Hc; auto. Qed.

Lemma action_db_keeps_closed clk a db :
  wf_store db -> keeps_closed db (action_db clk a db).
Proof.
  intros [Ho Hl].
  destruct a as [symbol ty strike expiration c p|symbol shares buy_price|];
    cbn [action_db]; [| |apply keeps_closed_refl].
  - destruct (sync_option_position_cases clk db symbol ty strike expiration c p)
      as (_ & Hlp & Hop). split; [|now rewrite Hlp].
    intros n r Hn Hc.
    destruct Hop as [(e & Hin & _ & Hec & -> & _)|(_ & -> & _)].
    + apply update_where_nth; auto.
      destruct (Z.eqb_spec (o_id r) (o_id e)) as [Hid|]; auto.
      assert (r = e); [|congruence].
      apply (NoDup_map_eq o_id (options db)); auto.
      eapply nth_error_In; eauto.
    + now apply nth_error_app_left.
  - destruct (sync_long_position_cases clk db symbol shares buy_price)
      as (_ & Hop & Hlp). split; [now rewrite Hop|].
    intros n r Hn Hc.
    destruct Hlp as [(e & Hin & _ & Hec & _ & -> & _)|(_ & -> & _)].
    + apply update_where_nth; auto.
      destruct (Z.eqb_spec (l_id r) (l_id e)) as [Hid|]; auto.
      assert (r = e); [|congruence].
      apply (NoDup_map_eq l_id (long_positions db)); auto.
      eapply nth_error_In; eauto.
    + now apply nth_error_app_left.
Qed.

Lemma close_missing_options_keeps_closed clk db ids :
  keeps_closed db (fst (close_missing_options clk db ids)).
Proof.
  rewrite close_missing_options_eq. split; cbn; auto.
  intros n r Hn Hc. apply update_where_nth; auto.
  unfold option_missing, o_open. now destruct (o_closed r).
Qed.

Lemma close_missing_long_positions_keeps_closed clk db syms :
  keeps_closed db (fst (close_missing_long_positions clk db syms)).
Proof.
  rewrite close_missing_long_positions_eq. split; cbn; auto.
  intros n r Hn Hc. apply update_where_nth; auto.
  unfold long_missing, l_open. now destruct (l_closed r).
Qed.

(** X3: on a store with distinct ids, a pass never touches a closed row:
    every row that was closed is still there, at its place, with every
    column as it was (closed date and updated_at included), whatever the
    snapshot and whatever fails. *)
Theorem pass_keeps_closed_rows env self db :
  wf_store db ->
  let db' := snd (sync_positions env self db) in
  (forall n r, nth_error (options db) n = Some r -> o_closed r <> None ->
     nth_error (options db') n = Some r) /\
  (forall n r, nth_error (long_positions db) n = Some r -> l_closed r <> None ->
     nth_error (long_positions db') n = Some r).
Proof.
  intros Hwf. cbn zeta.
  change (keeps_closed db (snd (sync_positions env self db))).
  apply (pass_invariant (fun db' => wf_store db' /\ keeps_closed db db')).
  - intros clk pos a db0 _ [Hw Hk]. split; [now apply action_db_unique|].
    eapply keeps_closed_trans; eauto. now apply action_db_keeps_closed.
  - intros clk db0 ids [Hw Hk]. split;
      [now apply close_missing_options_unique_ids|].
    eapply keeps_closed_trans; eauto. apply close_missing_options_keeps_closed.
  - intros clk db0 syms [Hw Hk]. split;
      [now apply close_missing_long_positions_unique_ids|].
    eapply keeps_closed_trans; eauto.
    apply close_missing_long_positions_keeps_closed.
  - split; auto. apply keeps_closed_refl.
Qed.

Lemma pass_keeps_closed_rows_witness :
  let db' := snd (sync_positions (Scenario.env_of Scenario.doubled_snapshot)
                    Scenario.no_service Ledger.history_db) in
  (forall n r, nth_error (options Ledger.history_db) n = Some r ->
     o_closed r <> None -> nth_error (options db') n = Some r) /\
  (forall n r, nth_error (long_positions Ledger.history_db) n = Some r ->
     l_closed r <> None -> nth_error (long_positions db') n = Some r).
Proof.
  apply (pass_keeps_closed_rows (Scenario.env_of Scenario.doubled_snapshot)
           Scenario.no_service Ledger.history_db).
  split; cbn; repeat (constructor; [cbn; intuition discriminate|]);
    constructor.
Defined.

(** *** Every row names a known symbol *)

Lemma in_update_where {Row} (cond : Row -> bool) set rows r' :
  In r' (Sql.update_where cond set rows) ->
  exists r, In r rows /\ (r' = r \/ r' = set r).
Proof.
  unfold Sql.update_where. intros H. apply in_map_iff in H as (r & Hr & Hin).
  exists r. split; auto. destruct (cond r); auto.
Qed.

Lemma action_db_symbols_cover clk a db :
  symbols_cover db -> symbols_cover (action_db clk a db).
Proof.
  intros [Ho Hl].
  destruct a as [symbol ty strike expiration c p|symbol shares buy_price|];
    cbn [action_db]; [| |split; auto].
  - destruct (sync_option_position_cases clk db symbol ty strike expiration c p)
      as (Hs & Hlp & Hop). unfold symbols_cover. rewrite Hs, Hlp. split.
    + intros r Hr. apply add_symbol_In.
      destruct Hop as [(e & _ & _ & _ & Hrows & _)|(_ & Hrows & _)];
        rewrite Hrows in Hr.
      * apply in_update_where in Hr as (r0 & Hr0 & [->| ->]); left; cbn;
          now apply Ho.
      * apply in_app_or in Hr as [Hr|[<-|[]]]; [left; now apply Ho|now right].
    + intros r Hr. apply add_symbol_In. left. now apply Hl.
  - destruct (sync_long_position_cases clk db symbol shares buy_price)
      as (Hs & Hop & Hlp). unfold symbols_cover. rewrite Hs, Hop. split.
    + intros r Hr. apply add_symbol_In. left. now apply Ho.
    + intros r Hr. apply add_symbol_In.
      destruct Hlp as [(e & _ & _ & _ & _ & Hrows & _)|(_ & Hrows & _)];
        rewrite Hrows in Hr.
      * apply in_update_where in Hr as (r0 & Hr0 & [->| ->]); left; cbn;
          now apply Hl.
      * apply in_app_or in Hr as [Hr|[<-|[]]]; [left; now apply Hl|now right].
Qed.

(** X4: if every option row and every share row names a row of the symbols
    table before a pass, the same holds after it: each sync call registers
    its symbol before it writes the position, and the closure statements
    change no symbol. *)
Theorem pass_keeps_symbols_cover env self db :
  symbols_cover db -> symbols_cover (snd (sync_positions env self db)).
Proof.
  apply pass_invariant.
  - intros clk pos a db0 _. apply action_db_symbols_cover.
  - intros clk db0 ids [Ho Hl]. rewrite close_missing_options_eq.
    split; cbn; auto. intros r Hr.
    apply in_update_where in Hr as (r0 & Hr0 & [->| ->]); cbn; now apply Ho.
  - intros clk db0 syms [Ho Hl]. rewrite close_missing_long_positions_eq.
    split; cbn; auto. intros r Hr.
    apply in_update_where in Hr as (r0 & Hr0 & [->| ->]); cbn; now apply Hl.
Qed.

Lemma pass_keeps_symbols_cover_witness :
  symbols_cover (snd (sync_positions (Scenario.env_of Scenario.doubled_snapshot)
                        Scenario.no_service Ledger.history_db)).
Proof.
  apply (pass_keeps_symbols_cover (Scenario.env_of Scenario.doubled_snapshot)
           Scenario.no_service Ledger.history_db).
  split; cbn; intros r H; repeat (destruct H as [<-|H]; [cbn; tauto|]);
    destruct H.
Defined.

(** *** What is stored for an option is well formed *)

Lemma mk_date_ok y m d x : mk_date y m d = inr x -> date_ok x = true.
Proof.
  unfold mk_date, date_ok.
  destruct ((1 <=? y) && (y <=? 9999)) eqn:Hy; cbn; [|discriminate].
  destruct ((1 <=? m) && (m <=? 12)) eqn:Hm; cbn; [|discriminate].
  destruct ((1 <=? d) && (d <=? days_in_month y m)) eqn:Hd; cbn; [|discriminate].
  intros H. injection H as <-. cbn.
  apply andb_true_iff in Hy as [-> ->]. apply andb_true_iff in Hm as [-> ->].
  apply andb_true_iff in Hd as [-> ->]. reflexivity.
Qed.

Lemma parse_expiration_ok s d : parse_expiration s = inr d -> date_ok d = true.
Proof.
  unfold parse_expiration.
  destruct (int_of_str (slice 0 4 s)) as [|y]; cbn; [discriminate|].
  destruct (int_of_str (slice 4 6 s)) as [|m]; cbn; [discriminate|].
  destruct (int_of_str (slice 6 8 s)) as [|dd]; cbn; [discriminate|].
  apply mk_date_ok.
Qed.

Lemma item_action_option_ok pos symbol ty strike expiration c p :
  item_action pos = inr (SyncOption symbol ty strike expiration c p) ->
  date_ok expiration = true /\ 0 <= c.
Proof.
  intros H. pose proof (item_action_sync_option _ _ _ _ _ _ _ H) as Ho.
  destruct (item_action_option _ _ H Ho)
    as (rt & exp_str & e & avg & s & k & q & _ & _ & He & _ & _ & _ & _ & _ & Ha).
  injection Ha as _ _ _ -> -> _. split; [eapply parse_expiration_ok; eauto|].
  apply Z.abs_nonneg.
Qed.

(** X5: if every option row has a calendar date as expiration and a
    non-negative contract count before a pass, so has every option row after
    it: an expiration goes through the [date] constructor, a count through
    [abs]. *)
Theorem pass_keeps_option_rows_ok env self db :
  option_rows_ok db -> option_rows_ok (snd (sync_positions env self db)).
Proof.
  apply pass_invariant.
  - intros clk pos a db0 Ha Hok.
    destruct a as [symbol ty strike expiration c p|symbol shares buy_price|];
      cbn [action_db]; auto.
    + apply item_action_option_ok in Ha as [Hd Hc].
      destruct (sync_option_position_cases clk db0 symbol ty strike expiration c p)
        as (_ & _ & [(e & _ & _ & _ & Hrows & _)|(_ & Hrows & _)]);
        intros r Hr; rewrite Hrows in Hr.
      * apply in_update_where in Hr as (r0 & Hr0 & [->| ->]); [now apply Hok|].
        cbn. split; [now apply Hok|assumption].
      * apply in_app_or in Hr as [Hr|[<-|[]]]; [now apply Hok|cbn; auto].
    + intros r Hr. rewrite sync_long_position_options in Hr. now apply Hok.
  - intros clk db0 ids Hok r Hr. rewrite close_missing_options_eq in Hr.
    cbn in Hr. apply in_update_where in Hr as (r0 & Hr0 & [->| ->]); cbn;
      now apply Hok.
  - intros clk db0 syms Hok r Hr.
    rewrite close_missing_long_positions_options in Hr. now apply Hok.
Qed.

Lemma pass_keeps_option_rows_ok_witness :
  option_rows_ok (snd (sync_positions (Scenario.env_of Scenario.doubled_snapshot)
                         Scenario.no_service Ledger.history_db)).
Proof.
  apply (pass_keeps_option_rows_ok (Scenario.env_of Scenario.doubled_snapshot)
           Scenario.no_service Ledger.history_db).
  intros r H. cbn in H.
  repeat (destruct H as [<-|H]; [cbn; split; [reflexivity|lia]|]).
  destruct H.
Defined.

(** ** sync_long_position and several open lots of one symbol *)

(** X6: when the table (with distinct ids) has open rows for the symbol,
    [sync_long_position] inserts nothing: it returns the id of an open row
    of the symbol that no other open row of the symbol was opened after,
    writes shares and price to that row, and leaves every other row (the
    other open lots of the symbol among them) as it was. *)
Theorem sync_long_position_updates_latest_lot clk db symbol shares buy_price r1 :
  NoDup (map l_id (long_positions db)) ->
  In r1 (long_positions db) -> l_symbol r1 = symbol -> l_closed r1 = None ->
  let res := sync_long_position clk db symbol shares buy_price in
  exists e,
    In e (long_positions db) /\ l_id e = snd res /\
    l_symbol e = symbol /\ l_closed e = None /\
    (forall r0, In r0 (long_positions db) -> l_symbol r0 = symbol ->
       l_closed r0 = None -> date_ltb (l_opened e) (l_opened r0) = false) /\
    List.length (long_positions (fst res)) = List.length (long_positions db) /\
    (forall n r0, nth_error (long_positions db) n = Some r0 ->
       nth_error (long_positions (fst res)) n
       = Some (if l_id r0 =? l_id e
               then long_set shares buy_price (now clk) r0 else r0)) /\
    (forall r0, In r0 (long_positions db) -> r0 <> e -> l_id r0 <> l_id e).
Proof.
  intros Hu Hin Hs Hc. cbn zeta.
  destruct (sync_long_position_cases clk db symbol shares buy_price)
    as (_ & _ & [(e & He & Hes & Hec & Hmax & Hrows & Hid)|(Hnone & _)]).
  - exists e. rewrite Hrows, Hid. repeat split; auto.
    + unfold Sql.update_where. apply length_map.
    + intros n r0 Hn. unfold Sql.update_where.
      now erewrite map_nth_error by eassumption.
    + intros r0 Hr0 Hne Hid0. apply Hne.
      now apply (NoDup_map_eq l_id (long_positions db)).
  - specialize (Hnone r1 Hin).
    assert (long_where symbol r1 = true) by (apply long_where_true; auto).
    congruence.
Qed.

Lemma sync_long_position_updates_latest_lot_witness :
  let res := sync_long_position Scenario.clk Ledger.history_db "MSFT" 120
               (Q2Qc 311) in
  exists e,
    In e (long_positions Ledger.history_db) /\ l_id e = snd res /\
    l_symbol e = "MSFT"%string /\ l_closed e = None /\
    (forall r0, In r0 (long_positions Ledger.history_db) ->
       l_symbol r0 = "MSFT"%string ->
       l_closed r0 = None -> date_ltb (l_opened e) (l_opened r0) = false) /\
    List.length (long_positions (fst res))
    = List.length (long_positions Ledger.history_db) /\
    (forall n r0, nth_error (long_positions Ledger.history_db) n = Some r0 ->
       nth_error (long_positions (fst res)) n
       = Some (if l_id r0 =? l_id e
               then long_set 120 (Q2Qc 311) (now Scenario.clk) r0 else r0)) /\
    (forall r0, In r0 (long_positions Ledger.history_db) -> r0 <> e ->
       l_id r0 <> l_id e).
Proof.
  apply (sync_long_position_updates_latest_lot Scenario.clk Ledger.history_db
           "MSFT" 120 (Q2Qc 311) Ledger.msft_old_lot).
  - cbn. repeat (constructor; [cbn; intuition discriminate|]). constructor.
  - left. reflexivity.
  - reflexivity.
  - reflexivity.
Defined.

(** ** The closure statements *)

Lemma in_update_where_changed {Row} (cond : Row -> bool) set rows r :
  In r rows -> cond r = true -> In (set r) (Sql.update_where cond set rows).
Proof.
  intros Hin Hc. unfold Sql.update_where. apply in_map_iff.
  exists r. now rewrite Hc.
Qed.

(** X7: [close_missing_options] leaves open exactly the open rows whose id is
    in the list (none when the list is empty: the branch for the empty list
    is the same rule), gives every other open row today as closed date, and
    touches no share row. *)
Theorem close_missing_options_open_rows clk db ids :
  let db' := fst (close_missing_options clk db ids) in
  (forall r, In r (options db') /\ o_closed r = None <->
             In r (options db) /\ o_closed r = None /\ In (o_id r) ids) /\
  (forall r, In r (options db) -> o_closed r = None -> ~ In (o_id r) ids ->
             In (option_close clk r) (options db')) /\
  long_positions db' = long_positions db /\ symbols db' = symbols db.
Proof.
  cbn zeta. rewrite close_missing_options_eq.
  cbn [set_options options long_positions symbols].
  split; [|split; [|split; reflexivity]].
  - intros r. split.
    + intros [Hin Hc].
      assert (o_open r = true) as Ho by (unfold o_open; now rewrite Hc).
      destruct (in_closed_options_open _ _ _ _ Hin Ho) as [Hin' Hm].
      apply option_missing_false in Hm; auto.
    + intros (Hin & Hc & Hid). split; auto. apply in_update_where_kept; auto.
      apply option_missing_false; auto. unfold o_open. now rewrite Hc.
  - intros r Hin Hc Hid. apply in_update_where_changed; auto.
    assert (o_open r = true) as Ho by (unfold o_open; now rewrite Hc).
    destruct (option_missing ids r) eqn:M; auto.
    apply option_missing_false in M; tauto.
Qed.

(** X8: [close_missing_long_positions] works by symbol: it leaves open
    exactly the open rows whose symbol is in the list, every open lot of
    such a symbol included, gives every other open row today as closed date,
    and touches no option row. *)
Theorem close_missing_long_positions_open_rows clk db syms :
  let db' := fst (close_missing_long_positions clk db syms) in
  (forall r, In r (long_positions db') /\ l_closed r = None <->
             In r (long_positions db) /\ l_closed r = None /\ In (l_symbol r) syms) /\
  (forall r, In r (long_positions db) -> l_closed r = None ->
             ~ In (l_symbol r) syms ->
             In (long_close clk r) (long_positions db')) /\
  options db' = options db /\ symbols db' = symbols db.
Proof.
  cbn zeta. rewrite close_missing_long_positions_eq.
  cbn [set_long_positions options long_positions symbols].
  split; [|split; [|split; reflexivity]].
  - intros r. split.
    + intros [Hin Hc].
      assert (l_open r = true) as Ho by (unfold l_open; now rewrite Hc).
      destruct (in_closed_longs_open _ _ _ _ Hin Ho) as [Hin' Hm].
      apply long_missing_false in Hm; auto.
    + intros (Hin & Hc & Hid). split; auto. apply in_update_where_kept; auto.
      apply long_missing_false; auto. unfold l_open. now rewrite Hc.
  - intros r Hin Hc Hid. apply in_update_where_changed; auto.
    assert (l_open r = true) as Ho by (unfold l_open; now rewrite Hc).
    destruct (long_missing syms r) eqn:M; auto.
    apply long_missing_false in M; tauto.
Qed.

Lemma rowcount_after_close {Row} (is_open cond : Row -> bool) close rows :
  (forall r, cond r = true -> is_open r = true) ->
  (forall r, is_open (close r) = false) ->
  Sql.rowcount is_open rows
  = Sql.rowcount is_open (Sql.update_where cond close rows)
    + Sql.rowcount cond rows.
Proof.
  intros Hsub Hclose. unfold Sql.rowcount, Sql.update_where.
  induction rows as [|r l IH]; cbn; auto.
  destruct (cond r) eqn:C.
  - rewrite (Hsub r C), Hclose. cbn [List.length]. lia.
  - destruct (is_open r); cbn [List.length]; lia.
Qed.

(** X9: the number a closure statement returns is the number of rows it
    closes: the count of open rows [get_sync_status] reports before the
    statement is the count it reports after it plus the number returned. *)
Theorem closure_count_is_drop_of_open_count clk db ids syms :
  open_options (get_sync_status db)
  = open_options (get_sync_status (fst (close_missing_options clk db ids)))
    + snd (close_missing_options clk db ids) /\
  open_positions (get_sync_status db)
  = open_positions
      (get_sync_status (fst (close_missing_long_positions clk db syms)))
    + snd (close_missing_long_positions clk db syms) /\
  0 <= snd (close_missing_options clk db ids) /\
  0 <= snd (close_missing_long_positions clk db syms).
Proof.
  rewrite close_missing_options_eq, close_missing_options_count,
    close_missing_long_positions_eq, close_missing_long_positions_count.
  cbn [get_sync_status open_options open_positions set_options
         set_long_positions options long_positions].
  repeat split.
  - apply rowcount_after_close; [|reflexivity].
    intros r H. unfold option_missing in H. now apply andb_true_iff in H.
  - apply rowcount_after_close; [|reflexivity].
    intros r H. unfold long_missing in H. now apply andb_true_iff in H.
  - unfold Sql.rowcount. lia.
  - unfold Sql.rowcount. lia.
Qed.

Lemma in_update_where_cases {Row} (cond : Row -> bool) set rows r' :
  In r' (Sql.update_where cond set rows) ->
  exists r, In r rows /\
            ((cond r = false /\ r' = r) \/ (cond r = true /\ r' = set r)).
Proof.
  unfold Sql.update_where. intros H. apply in_map_iff in H as (r & Hr & Hin).
  exists r. split; auto. destruct (cond r); auto.
Qed.

(** X10: a closure statement run a second time with the same list finds
    nothing to close: it returns 0 and leaves the store as the first run
    left it, closed dates and updated_at included. *)
Theorem closure_twice_closes_nothing clk clk' db ids syms :
  close_missing_options clk' (fst (close_missing_options clk db ids)) ids
  = (fst (close_missing_options clk db ids), 0) /\
  close_missing_long_positions clk'
    (fst (close_missing_long_positions clk db syms)) syms
  = (fst (close_missing_long_positions clk db syms), 0).
Proof.
  split.
  - rewrite (surjective_pairing (close_missing_options clk' _ ids)).
    rewrite close_missing_options_count, !close_missing_options_eq.
    cbn [set_options options long_positions symbols].
    assert (forall r,
              In r (Sql.update_where (option_missing ids) (option_close clk)
                      (options db)) ->
              option_missing ids r = false) as Hnone.
    { intros r Hr.
      apply in_update_where_cases in Hr as (r0 & _ & [[M ->]|[_ ->]]); auto. }
    now rewrite (update_where_none _ _ _ Hnone), (rowcount_none _ _ Hnone).
  - rewrite (surjective_pairing (close_missing_long_positions clk' _ syms)).
    rewrite close_missing_long_positions_count,
      !close_missing_long_positions_eq.
    cbn [set_long_positions options long_positions symbols].
    assert (forall r,
              In r (Sql.update_where (long_missing syms) (long_close clk)
                      (long_positions db)) ->
              long_missing syms r = false) as Hnone.
    { intros r Hr.
      apply in_update_where_cases in Hr as (r0 & _ & [[M ->]|[_ ->]]); auto. }
    now rewrite (update_where_none _ _ _ Hnone), (rowcount_none _ _ Hnone).
Qed.

(** ** A successful pass repairs duplicate open keys *)

Lemma NoDup_map_inj_in {A B} (f : A -> B) l :
  NoDup l -> (forall a b, In a l -> In b l -> f a = f b -> a = b) ->
  NoDup (map f l).
Proof.
  induction l as [|x l IH]; cbn; intros Hn Hinj; [constructor|].
  inversion Hn as [|? ? Hx Hl]; subst. constructor.
  - intros Hin. apply in_map_iff in Hin as (y & Hy & Hin).
    assert (y = x) by (apply Hinj; auto). subst y. contradiction.
  - apply IH; auto.
Qed.

(** X11: on a store with distinct ids, a pass that runs to its end leaves
    no two open option rows with the same identity key, even if the store
    had such rows before: the rows the items did not select are closed. *)
Theorem successful_pass_makes_keys_unique env self db positions :
  wf_store db ->
  get_positions env = inr positions ->
  success (fst (fst (sync_positions env self db))) = true ->
  unique_open_keys (snd (sync_positions env self db)).
Proof.
  intros [Hwo Hwl] Hp Hs.
  destruct (sync_positions_success _ _ _ _ Hp Hs) as (Hso & Hd & Ho & Hl & _).
  rewrite (sync_positions_finish env self db positions Hso Hp Hd Ho Hl).
  cbn [snd].
  destruct (finish_tables env db positions) as (Ht & _ & _).
  cbn zeta in Ht. unfold unique_open_keys, open_option_keys. rewrite Ht.
  set (acts := option_acts (actions (outcomes env 0 positions))).
  set (u := option_upserts (clock env) (options db) acts).
  assert (row_ids_unique o_id (fst u)) as Hu
    by now apply option_upserts_unique.
  assert (forall r,
            In r (filter o_open
                    (Sql.update_where (option_missing (snd u))
                       (option_close (clock env)) (fst u))) ->
            option_select (option_key r) (fst u) = Some r) as Hsel.
  { intros r Hr. apply filter_In in Hr as [Hin Hop].
    apply in_closed_options_open in Hin as [Hin Hm]; auto.
    apply option_missing_false in Hm; auto.
    destruct (option_upserts_ids (clock env) acts (options db) _ Hm)
      as (k0 & e & _ & He & Hid).
    destruct (option_select_In _ _ _ He) as (Hein & Hek & _).
    assert (r = e) by (apply (NoDup_map_eq o_id (fst u)); auto).
    subst e. now rewrite Hek. }
  apply NoDup_map_inj_in.
  - apply NoDup_filter. eapply NoDup_map_inv.
    rewrite closed_options_ids. exact Hu.
  - intros a b Ha Hb Hk. apply Hsel in Ha. apply Hsel in Hb.
    rewrite Hk in Ha. congruence.
Qed.

Lemma successful_pass_makes_keys_unique_witness :
  unique_open_keys
    (snd (sync_positions (Scenario.env_of Scenario.doubled_snapshot)
            Scenario.no_service Ledger.history_db)).
Proof.
  apply (successful_pass_makes_keys_unique
           (Scenario.env_of Scenario.doubled_snapshot) Scenario.no_service
           Ledger.history_db Scenario.doubled_snapshot).
  - split; cbn; repeat (constructor; [cbn; intuition discriminate|]);
      constructor.
  - reflexivity.
  - reflexivity.
Defined.

(** ** Failures before the loop *)

(** X12: when the session exists (or the connection succeeds) and either
    [get_positions] or [get_db_connection] raises, the call returns
    success = false with the single error Sync failed and the message of
    the exception, all counts 0 and no synced_at; the store is untouched
    and the result becomes the last-run status. *)
Theorem fetch_failure_leaves_store env self db msg :
  session_ok env = true ->
  get_positions env = inl msg \/
  ((exists positions, get_positions env = inr positions) /\
   get_db_connection env = Some msg) ->
  let failed := mkResult false None 0 0 0 0 [("Sync failed: " ++ msg)%string] in
  sync_positions env self db
  = (failed, mkService (Some (now (clock env))) (Some failed), db).
Proof.
  intros Hs Hf. cbn zeta. unfold sync_positions, session_ok in *.
  assert (negb (is_connected env) && negb (connect env) = false) as ->
    by (destruct (is_connected env), (connect env); auto; discriminate).
  unfold reconcile.
  destruct Hf as [->|[(positions & ->) ->]]; reflexivity.
Qed.

Lemma fetch_failure_leaves_store_witness :
  let failed := mkResult false None 0 0 0 0 ["Sync failed: timeout"%string] in
  sync_positions Ledger.env_fetch_timeout Scenario.no_service Ledger.history_db
  = (failed, mkService (Some (now Scenario.clk)) (Some failed),
     Ledger.history_db).
Proof.
  apply (fetch_failure_leaves_store Ledger.env_fetch_timeout Scenario.no_service
           Ledger.history_db "timeout").
  - reflexivity.
  - left. reflexivity.
Defined.

(** ** Counting the items of a snapshot *)

Lemma is_other_item_action pos :
  is_other_item pos = true <-> item_action pos = inr Ignore.
Proof.
  unfold is_other_item, item_action.
  destruct (pos_sec_type pos) as [t|]; cbn; [|split; discriminate].
  destruct (String.eqb t "OPT"); cbn.
  - split; [discriminate|].
    destruct (pos_right pos); cbn; [|discriminate].
    destruct (pos_expiration pos); cbn; [|discriminate].
    destruct (parse_expiration _); cbn; [discriminate|].
    destruct (pos_avg_cost pos); cbn; [|discriminate].
    destruct (float_div _ _); cbn; [discriminate|].
    destruct (pos_symbol pos); cbn; [|discriminate].
    destruct (pos_strike pos); cbn; [|discriminate].
    destruct (pos_position pos); cbn; discriminate.
  - destruct (String.eqb t "STK"); cbn; [|split; reflexivity].
    split; [discriminate|].
    destruct (pos_symbol pos); cbn; [|discriminate].
    destruct (pos_position pos); cbn; [|discriminate].
    destruct (pos_avg_cost pos); cbn; discriminate.
Qed.

Lemma item_outcome_ignore env i pos :
  item_outcome env i pos = inr Ignore <-> is_other_item pos = true.
Proof.
  rewrite is_other_item_action. split.
  - apply item_outcome_action.
  - intros H. unfold item_outcome. now rewrite H.
Qed.

Lemma sync_loop_tally env l : forall i st,
  tally (st_result (sync_loop env i l st))
  + Z.of_nat (List.length (filter is_other_item l))
  = tally (st_result st) + Z.of_nat (List.length l).
Proof.
  induction l as [|pos l IH]; intros i st; cbn [sync_loop filter]; [cbn; lia|].
  specialize (IH (S i) (loop_body env i pos st)).
  rewrite loop_body_outcome in *.
  pose proof (item_outcome_ignore env i pos) as Hig.
  destruct (item_outcome env i pos) as [e|a] eqn:E.
  - assert (is_other_item pos = false) as Hno.
    { destruct (is_other_item pos); auto. destruct Hig as [_ Hig].
      specialize (Hig eq_refl). discriminate. }
    rewrite Hno. unfold tally, record_error, add_error in *.
    cbn [st_result options_synced positions_synced errors] in *.
    rewrite length_app in IH. cbn [List.length] in *. lia.
  - destruct a as [symbol ty strike expiration c p|symbol shares buy_price|].
    + assert (is_other_item pos = false) as Hno.
      { destruct (is_other_item pos); auto. destruct Hig as [_ Hig].
        specialize (Hig eq_refl). discriminate. }
      rewrite Hno. unfold tally in *.
      cbn [apply_action st_result incr_options_synced options_synced
             positions_synced errors] in *.
      cbn [List.length]. lia.
    + assert (is_other_item pos = false) as Hno.
      { destruct (is_other_item pos); auto. destruct Hig as [_ Hig].
        specialize (Hig eq_refl). discriminate. }
      rewrite Hno. unfold tally in *.
      cbn [apply_action st_result incr_positions_synced options_synced
             positions_synced errors] in *.
      cbn [List.length]. lia.
    + destruct Hig as [Hig _]. rewrite (Hig eq_refl).
      change (apply_action (clock env) Ignore st) with st in *.
      cbn [List.length]. lia.
Qed.

(** X13: after a pass that ran to its end, every item of the snapshot is
    accounted for once: the options synced, the positions synced, the errors
    and the items of another security type (which are skipped without a
    word) add up to the length of the snapshot. *)
Theorem every_item_is_counted_once env self db positions :
  get_positions env = inr positions ->
  success (fst (fst (sync_positions env self db))) = true ->
  let r := fst (fst (sync_positions env self db)) in
  options_synced r + positions_synced r + Z.of_nat (List.length (errors r))
  + Z.of_nat (List.length (filter is_other_item positions))
  = Z.of_nat (List.length positions).
Proof.
  intros Hp Hs.
  destruct (sync_positions_success _ _ _ _ Hp Hs) as (Hso & Hd & Ho & Hl & _).
  rewrite (sync_positions_finish env self db positions Hso Hp Hd Ho Hl).
  cbn [fst snd]. cbn zeta.
  pose proof (sync_loop_tally env positions 0 (mkLoop db [] [] initial_result))
    as Ht.
  fold (loop_end env db positions) in Ht.
  unfold tally in Ht. cbn in Ht. exact Ht.
Qed.

Lemma every_item_is_counted_once_witness :
  let r := fst (fst (sync_positions (Scenario.env_of Ledger.mixed_snapshot)
                       Scenario.no_service Ledger.history_db)) in
  options_synced r + positions_synced r + Z.of_nat (List.length (errors r))
  + Z.of_nat (List.length (filter is_other_item Ledger.mixed_snapshot))
  = Z.of_nat (List.length Ledger.mixed_snapshot).
Proof.
  apply (every_item_is_counted_once (Scenario.env_of Ledger.mixed_snapshot)
           Scenario.no_service Ledger.history_db Ledger.mixed_snapshot).
  - reflexivity.
  - reflexivity.
Defined.

(** X14: items whose security type is neither OPT nor STK have no effect:
    when no store call of an item raises, the call returns the same dict
    and leaves the same service and store as on the snapshot without these
    items.  In particular they keep no row from being closed. *)
Theorem other_items_have_no_effect env self db positions :
  (forall i, item_fault env i = None) ->
  get_positions env = inr positions ->
  sync_positions env self db
  = sync_positions
      (without_item_faults env
         (filter (fun pos => negb (is_other_item pos)) positions))
      self db.
Proof.
  intros Hf Hp.
  assert (forall l i j st,
            sync_loop env i l st
            = sync_loop
                (without_item_faults env
                   (filter (fun pos => negb (is_other_item pos)) positions))
                j (filter (fun pos => negb (is_other_item pos)) l) st) as Hloop.
  { induction l as [|pos l IH]; intros i j st; cbn [sync_loop filter]; auto.
    rewrite loop_body_outcome, item_outcome_no_fault by auto.
    destruct (is_other_item pos) eqn:O; cbn [negb].
    - apply is_other_item_action in O. rewrite O. cbn [apply_action]. apply IH.
    - cbn [sync_loop]. rewrite loop_body_outcome, item_outcome_no_fault
        by reflexivity.
      apply IH. }
  unfold sync_positions, reconcile. cbn [without_item_faults is_connected connect
    get_positions get_db_connection close_options_fault close_long_fault clock].
  rewrite Hp. now rewrite <- (Hloop positions 0%nat 0%nat).
Qed.

Lemma other_items_have_no_effect_witness :
  sync_positions (Scenario.env_of Ledger.mixed_snapshot) Scenario.no_service
    Ledger.history_db
  = sync_positions
      (without_item_faults (Scenario.env_of Ledger.mixed_snapshot)
         (filter (fun pos => negb (is_other_item pos)) Ledger.mixed_snapshot))
      Scenario.no_service Ledger.history_db.
Proof.
  apply (other_items_have_no_effect (Scenario.env_of Ledger.mixed_snapshot)
           Scenario.no_service Ledger.history_db Ledger.mixed_snapshot).
  - reflexivity.
  - reflexivity.
Defined.

(** ** A snapshot without items of one kind, and the status *)

(** X15: after a pass that ran to its end on a snapshot without option
    item, options_closed is the number of open options [get_sync_status]
    reported before the pass, and it reports none after it; the same for
    positions_closed and the open share rows when the snapshot has no stock
    item. *)
Theorem empty_snapshot_counts env self db positions :
  get_positions env = inr positions ->
  success (fst (fst (sync_positions env self db))) = true ->
  let r := sync_positions env self db in
  ((forall pos, In pos positions -> is_option_item pos = false) ->
   options_closed (fst (fst r)) = open_options (get_sync_status db) /\
   open_options (get_sync_status (snd r)) = 0) /\
  ((forall pos, In pos positions -> is_stock_item pos = false) ->
   positions_closed (fst (fst r)) = open_positions (get_sync_status db) /\
   open_positions (get_sync_status (snd r)) = 0).
Proof.
  intros Hp Hs.
  destruct (sync_positions_success _ _ _ _ Hp Hs) as (Hso & Hd & Ho & Hl & _).
  rewrite (sync_positions_finish env self db positions Hso Hp Hd Ho Hl).
  cbn [fst snd]. cbn zeta. unfold finish, loop_end. cbn [fst snd].
  unfold set_success, set_positions_closed, set_options_closed.
  cbn [options_closed positions_closed get_sync_status open_options
         open_positions].
  set (st0 := mkLoop db [] [] initial_result).
  assert (forall rows : list OptionRow,
            Sql.rowcount o_open
              (Sql.update_where (option_missing []) (option_close (clock env)) rows)
            = 0) as Hzo.
  { intros rows. apply rowcount_none. intros r Hr.
    apply in_update_where_cases in Hr as (r0 & _ & [[M ->]|[_ ->]]); auto.
    unfold option_missing in M. cbn in M. now rewrite andb_true_r in M. }
  assert (forall rows : list LongRow,
            Sql.rowcount l_open
              (Sql.update_where (long_missing []) (long_close (clock env)) rows)
            = 0) as Hzl.
  { intros rows. apply rowcount_none. intros r Hr.
    apply in_update_where_cases in Hr as (r0 & _ & [[M ->]|[_ ->]]); auto.
    unfold long_missing in M. cbn in M. now rewrite andb_true_r in M. }
  split; intros Hno.
  - destruct (sync_loop_no_option_items env 0 positions st0 Hno) as [Hop Hid].
    rewrite close_missing_long_positions_options, close_missing_options_count,
      close_missing_options_eq, Hid, Hop. cbn [st0 st_db st_option_ids
      set_options options]. split; [|apply Hzo].
    unfold Sql.rowcount. do 2 f_equal. apply filter_ext. intros r.
    unfold option_missing. cbn. now rewrite andb_true_r.
  - destruct (sync_loop_no_stock_items env 0 positions st0 Hno) as [Hlp Hsy].
    rewrite close_missing_long_positions_count,
      close_missing_long_positions_eq, close_missing_options_long_positions,
      Hsy, Hlp. cbn [st0 st_db st_stock_symbols set_long_positions
      long_positions]. split; [|apply Hzl].
    unfold Sql.rowcount. do 2 f_equal. apply filter_ext. intros r.
    unfold long_missing. cbn. now rewrite andb_true_r.
Qed.

Lemma empty_snapshot_counts_witness :
  let r := sync_positions (Scenario.env_of [Scenario.msft_stock])
             Scenario.no_service Ledger.history_db in
  ((forall pos, In pos [Scenario.msft_stock] -> is_option_item pos = false) ->
   options_closed (fst (fst r)) = open_options (get_sync_status Ledger.history_db) /\
   open_options (get_sync_status (snd r)) = 0) /\
  ((forall pos, In pos [Scenario.msft_stock] -> is_stock_item pos = false) ->
   positions_closed (fst (fst r))
   = open_positions (get_sync_status Ledger.history_db) /\
   open_positions (get_sync_status (snd r)) = 0).
Proof.
  apply (empty_snapshot_counts (Scenario.env_of [Scenario.msft_stock])
           Scenario.no_service Ledger.history_db [Scenario.msft_stock]).
  - reflexivity.
  - reflexivity.
Defined.

(** ** Reading an expiration *)

Lemma int_of_str_error s e :
  int_of_str s = inl e -> exists msg, e = ValueError msg.
Proof.
  unfold int_of_str. destruct (parse_int s); [discriminate|].
  intros H. injection H as <-. eauto.
Qed.

Lemma mk_date_error y m d e :
  mk_date y m d = inl e -> exists msg, e = ValueError msg.
Proof.
  unfold mk_date.
  destruct (negb _); [intros H; injection H as <-; eauto|].
  destruct (negb _); [intros H; injection H as <-; eauto|].
  destruct (negb _); [intros H; injection H as <-; eauto|discriminate].
Qed.

Lemma parse_expiration_error s e :
  parse_expiration s = inl e -> exists msg, e = ValueError msg.
Proof.
  unfold parse_expiration.
  destruct (int_of_str (slice 0 4 s)) as [e1|y] eqn:E1; cbn.
  { intros H. injection H as <-. eapply int_of_str_error; eauto. }
  destruct (int_of_str (slice 4 6 s)) as [e2|m] eqn:E2; cbn.
  { intros H. injection H as <-. eapply int_of_str_error; eauto. }
  destruct (int_of_str (slice 6 8 s)) as [e3|d] eqn:E3; cbn.
  { intros H. injection H as <-. eapply int_of_str_error; eauto. }
  apply mk_date_error.
Qed.

Lemma substring_short s : forall n m,
  (String.length s <= n)%nat -> substring n m s = EmptyString.
Proof.
  induction s as [|c s IH]; intros n m H; cbn in *.
  - destruct n, m; reflexivity.
  - destruct n as [|n]; [lia|]. apply IH. lia.
Qed.

Lemma substring_append s t : forall n m,
  (n + m <= String.length s)%nat ->
  substring n m (s ++ t) = substring n m s.
Proof.
  induction s as [|c s IH]; intros n m H; cbn in *.
  - assert (n = 0 /\ m = 0)%nat as [-> ->] by lia. now destruct t.
  - destruct n as [|n].
    + destruct m as [|m]; auto. f_equal. apply (IH 0%nat). lia.
    + apply IH. lia.
Qed.

(** X16: an expiration text of six characters or fewer (the contract-month
    form YYYYMM among them) never parses: it always raises a ValueError, so
    such an item always ends in the error list. *)
Theorem short_expiration_is_rejected s :
  (String.length s <= 6)%nat ->
  exists msg, parse_expiration s = inl (ValueError msg).
Proof.
  intros H. destruct (parse_expiration s) as [e|d] eqn:E.
  - apply parse_expiration_error in E as (msg & ->). eauto.
  - exfalso. unfold parse_expiration in E.
    destruct (int_of_str (slice 0 4 s)) as [|y]; cbn in E; [discriminate|].
    destruct (int_of_str (slice 4 6 s)) as [|m]; cbn in E; [discriminate|].
    unfold slice in E. rewrite (substring_short s 6 (8 - 6) H) in E.
    cbn in E. discriminate.
Qed.

Lemma short_expiration_is_rejected_witness :
  exists msg, parse_expiration "202406" = inl (ValueError msg).
Proof. apply (short_expiration_is_rejected "202406"). cbn. lia. Defined.

(** X17: only the first eight characters of an expiration text are read:
    whatever follows them (a time of day, say) changes nothing. *)
Theorem expiration_reads_eight_characters s t :
  (8 <= String.length s)%nat ->
  parse_expiration (s ++ t) = parse_expiration s.
Proof.
  intros H. unfold parse_expiration, slice.
  now rewrite !substring_append by (cbn; lia).
Qed.

Lemma expiration_reads_eight_characters_witness :
  parse_expiration ("20240621" ++ " 16:00:00") = parse_expiration "20240621".
Proof.
  apply (expiration_reads_eight_characters "20240621" " 16:00:00"). cbn. lia.
Defined.

(** ** From the stored text back to the date *)

Lemma digit_char_facts n :
  0 <= n <= 9 ->
  digit_of (digit_char n) = Some n /\ is_space (digit_char n) = false /\
  Ascii.eqb (digit_char n) "-" = false /\
  digit_char n <> "+"%char /\ digit_char n <> "-"%char.
Proof.
  intros H. remember (Z.to_nat n) as k eqn:Hk.
  assert (n = Z.of_nat k) as -> by lia. clear Hk.
  do 10 (destruct k as [|k];
         [repeat split; try reflexivity; discriminate|]).
  lia.
Qed.

Lemma parse_int_unsigned s c r :
  strip s = String c r -> c <> "+"%char -> c <> "-"%char ->
  parse_int s = parse_digits (String c r) 0 false.
Proof.
  intros Hs Hp Hm. unfold parse_int. rewrite Hs.
  destruct c as [[] [] [] [] [] [] [] []]; try reflexivity;
    exfalso; (now apply Hp) || (now apply Hm).
Qed.

Lemma int_of_pad2 n : 0 <= n <= 99 -> int_of_str (pad2 n) = inr n.
Proof.
  intros H. unfold pad2.
  destruct (digit_char_facts (n / 10)) as (A1 & A2 & _ & A4 & A5);
    [split; [apply Z.div_pos; lia
            |apply Z.lt_succ_r, Z.div_lt_upper_bound; lia]|].
  destruct (digit_char_facts (n mod 10)) as (B1 & B2 & _);
    [pose proof (Z.mod_pos_bound n 10); lia|].
  unfold int_of_str.
  rewrite (parse_int_unsigned _ (digit_char (n / 10))
             (String (digit_char (n mod 10)) EmptyString)); auto.
  - cbn [parse_digits]. rewrite A1. cbn [parse_digits]. rewrite B1.
    unfold ret. do 2 f_equal. pose proof (Z.div_mod n 10). lia.
  - unfold strip. cbn [lstrip]. rewrite A2. cbn [rev_string lstrip].
    rewrite B2. reflexivity.
Qed.

Lemma int_of_pad4 n : 0 <= n <= 9999 -> int_of_str (pad4 n) = inr n.
Proof.
  intros H. unfold pad4.
  pose proof (Z.div_mod n 1000). pose proof (Z.mod_pos_bound n 1000).
  pose proof (Z.div_mod (n / 100) 10). pose proof (Z.mod_pos_bound (n / 100) 10).
  pose proof (Z.div_mod (n / 10) 10). pose proof (Z.mod_pos_bound (n / 10) 10).
  pose proof (Z.div_mod n 10). pose proof (Z.mod_pos_bound n 10).
  pose proof (Z.div_mod n 100). pose proof (Z.mod_pos_bound n 100).
  destruct (digit_char_facts (n / 1000)) as (A1 & A2 & _ & A4 & A5);
    [split; [apply Z.div_pos; lia
            |apply Z.lt_succ_r, Z.div_lt_upper_bound; lia]|].
  destruct (digit_char_facts (n / 100 mod 10)) as (B1 & _); [lia|].
  destruct (digit_char_facts (n / 10 mod 10)) as (C1 & _); [lia|].
  destruct (digit_char_facts (n mod 10)) as (D1 & D2 & _); [lia|].
  unfold int_of_str.
  rewrite (parse_int_unsigned _ (digit_char (n / 1000))
             (String (digit_char (n / 100 mod 10))
                (String (digit_char (n / 10 mod 10))
                   (String (digit_char (n mod 10)) EmptyString)))); auto.
  - cbn [parse_digits]. rewrite A1. cbn [parse_digits]. rewrite B1.
    cbn [parse_digits]. rewrite C1. cbn [parse_digits]. rewrite D1.
    unfold ret. do 2 f_equal. lia.
  - unfold strip. cbn [lstrip]. rewrite A2. cbn [rev_string lstrip].
    rewrite D2. reflexivity.
Qed.

Lemma days_in_month_le y m : days_in_month y m <= 31.
Proof.
  unfold days_in_month. destruct (m =? 2); [destruct (is_leap y); lia|].
  destruct (_ || _); lia.
Qed.

Lemma date_ok_bounds d :
  date_ok d = true ->
  1 <= year d <= 9999 /\ 1 <= month d <= 12 /\
  1 <= day d <= days_in_month (year d) (month d).
Proof.
  unfold date_ok. rewrite !andb_true_iff, !Z.leb_le. tauto.
Qed.

Lemma mk_date_of_ok d :
  date_ok d = true -> mk_date (year d) (month d) (day d) = inr d.
Proof.
  intros H. apply date_ok_bounds in H as (Hy & Hm & Hd). unfold mk_date.
  assert ((1 <=? year d) && (year d <=? 9999) = true) as ->
    by (apply andb_true_iff; rewrite !Z.leb_le; lia).
  assert ((1 <=? month d) && (month d <=? 12) = true) as ->
    by (apply andb_true_iff; rewrite !Z.leb_le; lia).
  assert ((1 <=? day d) && (day d <=? days_in_month (year d) (month d)) = true)
    as -> by (apply andb_true_iff; rewrite !Z.leb_le; lia).
  cbn. now destruct d.
Qed.

Lemma normalize_isoformat d :
  date_ok d = true ->
  normalize_expiration (Some (isoformat d))
  = Some (pad4 (year d) ++ pad2 (month d) ++ pad2 (day d))%string.
Proof.
  intros H. apply date_ok_bounds in H as (Hy & Hm & Hd).
  pose proof (days_in_month_le (year d) (month d)) as Hdm.
  pose proof (Z.mod_pos_bound (year d) 10). 
  pose proof (Z.mod_pos_bound (year d / 100) 10).
  pose proof (Z.mod_pos_bound (year d / 10) 10).
  pose proof (Z.mod_pos_bound (month d) 10).
  pose proof (Z.mod_pos_bound (day d) 10).
  destruct (digit_char_facts (year d / 1000)) as (_ & _ & Y1 & _);
    [split; [apply Z.div_pos; lia
            |apply Z.lt_succ_r, Z.div_lt_upper_bound; lia]|].
  destruct (digit_char_facts (year d / 100 mod 10)) as (_ & _ & Y2 & _); [lia|].
  destruct (digit_char_facts (year d / 10 mod 10)) as (_ & _ & Y3 & _); [lia|].
  destruct (digit_char_facts (year d mod 10)) as (_ & _ & Y4 & _); [lia|].
  destruct (digit_char_facts (month d / 10)) as (_ & _ & M1 & _);
    [split; [apply Z.div_pos; lia
            |apply Z.lt_succ_r, Z.div_lt_upper_bound; lia]|].
  destruct (digit_char_facts (month d mod 10)) as (_ & _ & M2 & _); [lia|].
  destruct (digit_char_facts (day d / 10)) as (_ & _ & D1 & _);
    [split; [apply Z.div_pos; lia
            |apply Z.lt_succ_r, Z.div_lt_upper_bound; lia]|].
  destruct (digit_char_facts (day d mod 10)) as (_ & _ & D2 & _); [lia|].
  unfold normalize_expiration, isoformat, pad4, pad2.
  cbn [append String.eqb negb andb contains_char remove_char].
  rewrite Y1, Y2, Y3, Y4, M1, M2, D1, D2. reflexivity.
Qed.

(** X18: the expiration text the store holds for a calendar date
    ([date.isoformat()]), put through the normalisation of
    [get_option_greeks], is the eight-digit text that the parser of
    [sync_positions] reads back as the same date. *)
Theorem stored_expiration_reads_back d :
  date_ok d = true ->
  exists s, normalize_expiration (Some (isoformat d)) = Some s /\
            String.length s = 8%nat /\
            parse_expiration s = inr d.
Proof.
  intros H. rewrite (normalize_isoformat d H). eexists. split; [reflexivity|].
  split; [reflexivity|].
  destruct (date_ok_bounds d H) as (Hy & Hm & Hd).
  pose proof (days_in_month_le (year d) (month d)) as Hdm.
  unfold parse_expiration.
  change (slice 0 4 (pad4 (year d) ++ pad2 (month d) ++ pad2 (day d)))
    with (pad4 (year d)).
  change (slice 4 6 (pad4 (year d) ++ pad2 (month d) ++ pad2 (day d)))
    with (pad2 (month d)).
  change (slice 6 8 (pad4 (year d) ++ pad2 (month d) ++ pad2 (day d)))
    with (pad2 (day d)).
  rewrite int_of_pad4, !int_of_pad2 by lia. cbn [Py.bind].
  now apply mk_date_of_ok.
Qed.

Lemma stored_expiration_reads_back_witness :
  exists s,
    normalize_expiration (Some (isoformat (mkdate 2024 6 21))) = Some s /\
    String.length s = 8%nat /\
    parse_expiration s = inr (mkdate 2024 6 21).
Proof. apply (stored_expiration_reads_back (mkdate 2024 6 21)). reflexivity. Defined.

(** X19: two calendar dates with the same ISO text are the same date, so the
    comparison of the expiration column with [expiration.isoformat()] in the
    SELECT of [sync_option_position] is the comparison of the dates. *)
Theorem isoformat_decides_the_date a b :
  date_ok a = true -> date_ok b = true ->
  (isoformat a = isoformat b <-> a = b).
Proof.
  intros Ha Hb. split; [|now intros ->].
  intros E.
  pose proof (normalize_isoformat a Ha) as Na.
  pose proof (normalize_isoformat b Hb) as Nb.
  rewrite E, Nb in Na.
  assert (parse_expiration
            (pad4 (year a) ++ pad2 (month a) ++ pad2 (day a))%string = inr a) as Pa.
  { destruct (date_ok_bounds a Ha) as (Hy & Hm & Hd).
    pose proof (days_in_month_le (year a) (month a)).
    unfold parse_expiration.
    change (slice 0 4 (pad4 (year a) ++ pad2 (month a) ++ pad2 (day a)))
      with (pad4 (year a)).
    change (slice 4 6 (pad4 (year a) ++ pad2 (month a) ++ pad2 (day a)))
      with (pad2 (month a)).
    change (slice 6 8 (pad4 (year a) ++ pad2 (month a) ++ pad2 (day a)))
      with (pad2 (day a)).
    rewrite int_of_pad4, !int_of_pad2 by lia. cbn [Py.bind].
    now apply mk_date_of_ok. }
  assert (parse_expiration
            (pad4 (year b) ++ pad2 (month b) ++ pad2 (day b))%string = inr b) as Pb.
  { destruct (date_ok_bounds b Hb) as (Hy & Hm & Hd).
    pose proof (days_in_month_le (year b) (month b)).
    unfold parse_expiration.
    change (slice 0 4 (pad4 (year b) ++ pad2 (month b) ++ pad2 (day b)))
      with (pad4 (year b)).
    change (slice 4 6 (pad4 (year b) ++ pad2 (month b) ++ pad2 (day b)))
      with (pad2 (month b)).
    change (slice 6 8 (pad4 (year b) ++ pad2 (month b) ++ pad2 (day b)))
      with (pad2 (day b)).
    rewrite int_of_pad4, !int_of_pad2 by lia. cbn [Py.bind].
    now apply mk_date_of_ok. }
  pose proof (f_equal (fun o => match o with
                               | Some s => parse_expiration s
                               | None => inr a
                               end) Na) as P.
  cbn beta iota in P. rewrite Pa, Pb in P. congruence.
Qed.

Lemma isoformat_decides_the_date_witness :
  isoformat (mkdate 2024 6 21) = isoformat (mkdate 2024 12 6)
  <-> mkdate 2024 6 21 = mkdate 2024 12 6.
Proof.
  apply (isoformat_decides_the_date (mkdate 2024 6 21) (mkdate 2024 12 6));
    reflexivity.
Defined.

(** ** The snapshot the client builds *)

Lemma stock_entries_action (p : Client.IBPosition) :
  Client.c_secType (Client.ib_contract p) = "STK"%string ->
  Client.position_data p
  = inr (Client.mkPositionData (Client.ib_account p)
           (mkPosition (Some (Client.c_symbol (Client.ib_contract p)))
              (Some "STK"%string) (Some (Client.ib_position p))
              (Some (Client.ib_avgCost p)) None None None None)) /\
  item_action
    (mkPosition (Some (Client.c_symbol (Client.ib_contract p)))
       (Some "STK"%string) (Some (Client.ib_position p))
       (Some (Client.ib_avgCost p)) None None None None)
  = inr (SyncLong (Client.c_symbol (Client.ib_contract p))
           (int_of_float (Client.ib_position p)) (Client.ib_avgCost p)).
Proof.
  destruct p as [acc [sym sec strike exp rt mult] pos avg]. cbn.
  intros ->. split; reflexivity.
Qed.

(** X20: a stock position of the broker always syncs: the dict the client
    builds for it has every entry the loop reads, and leads to the call of
    [sync_long_position] with the symbol, the position cut to an integer
    and the average cost. *)
Theorem client_stock_item_always_syncs (p : Client.IBPosition) :
  Client.c_secType (Client.ib_contract p) = "STK"%string ->
  exists pd,
    Client.position_data p = inr pd /\
    item_action (Client.pd_entries pd)
    = inr (SyncLong (Client.c_symbol (Client.ib_contract p))
             (int_of_float (Client.ib_position p)) (Client.ib_avgCost p)).
Proof.
  intros H. destruct (stock_entries_action p H) as [Hd Ha].
  eexists. split; [exact Hd|exact Ha].
Qed.

Lemma client_stock_item_always_syncs_witness :
  exists pd,
    Client.position_data Ledger.msft_ib = inr pd /\
    item_action (Client.pd_entries pd)
    = inr (SyncLong "MSFT" (int_of_float (Q2Qc 100)) (Q2Qc 310)).
Proof.
  apply (client_stock_item_always_syncs Ledger.msft_ib). reflexivity.
Defined.



Lemma build_fails l p e :
  In p l -> Client.position_data p = inl e -> exists e', Client.build l = inl e'.
Proof.
  induction l as [|x l IH]; cbn; [intros []|].
  intros [->|Hin] He.
  - rewrite He. cbn. eauto.
  - destruct (Client.position_data x); cbn; eauto.
    destruct (IH Hin He) as (e' & ->). cbn. eauto.
Qed.

(** X22: the multiplier is read in [get_positions], outside the per-item
    try of the loop: one option contract whose multiplier text is not a
    number makes the whole call fail (success = false, a single error Sync
    failed, no item synced) and leaves the store as it was. *)
Theorem unreadable_multiplier_fails_the_pass connected connect_ok positions clk
  self db (p : Client.IBPosition) :
  connected || connect_ok = true ->
  In p positions ->
  Client.c_secType (Client.ib_contract p) = "OPT"%string ->
  Client.c_multiplier (Client.ib_contract p) <> ""%string ->
  parse_int (Client.c_multiplier (Client.ib_contract p)) = None ->
  let r := sync_positions (env_of_client connected connect_ok positions clk)
             self db in
  success (fst (fst r)) = false /\
  snd r = db /\
  (exists msg, errors (fst (fst r)) = [("Sync failed: " ++ msg)%string]) /\
  options_synced (fst (fst r)) = 0 /\ positions_synced (fst (fst r)) = 0.
Proof.
  intros Hs Hin Hsec Hm Hp. cbn zeta.
  assert (exists e, Client.position_data p = inl e) as (e & He).
  { unfold Client.position_data, Client.multiplier_of. rewrite Hsec. cbn.
    destruct (String.eqb_spec (Client.c_multiplier (Client.ib_contract p)) "");
      [contradiction|].
    unfold int_of_str. rewrite Hp. cbn. eauto. }
  destruct (build_fails positions p e Hin He) as (e' & Hb).
  unfold sync_positions, env_of_client.
  cbn [is_connected connect get_positions clock].
  assert (negb connected && negb connect_ok = false) as ->
    by (destruct connected, connect_ok; auto; discriminate).
  unfold reconcile. cbn [get_positions].
  unfold Client.fetch, Client.get_positions. rewrite Hs, Hb. cbn.
  repeat split; eauto.
Qed.

Lemma unreadable_multiplier_fails_the_pass_witness :
  let r := sync_positions
             (env_of_client true false
                [Ledger.msft_ib; Ledger.aapl_ib "1e2"; Ledger.nvda_ib]
                Scenario.clk)
             Scenario.no_service Ledger.history_db in
  success (fst (fst r)) = false /\
  snd r = Ledger.history_db /\
  (exists msg, errors (fst (fst r)) = [("Sync failed: " ++ msg)%string]) /\
  options_synced (fst (fst r)) = 0 /\ positions_synced (fst (fst r)) = 0.
Proof.
  apply (unreadable_multiplier_fails_the_pass true false
           [Ledger.msft_ib; Ledger.aapl_ib "1e2"; Ledger.nvda_ib] Scenario.clk
           Scenario.no_service Ledger.history_db (Ledger.aapl_ib "1e2")).
  - reflexivity.
  - right. left. reflexivity.
  - reflexivity.
  - discriminate.
  - reflexivity.
Defined.

Lemma run_actions_counts clk acts : forall st,
  options_synced (st_result (run_actions clk acts st))
  = options_synced (st_result st) + Z.of_nat (List.length (option_acts acts)) /\
  positions_synced (st_result (run_actions clk acts st))
  = positions_synced (st_result st) + Z.of_nat (List.length (long_acts acts)).
Proof.
  unfold run_actions. induction acts as [|a l IH]; intros st; cbn [fold_left].
  - cbn. lia.
  - destruct (IH (apply_action clk a st)) as [-> ->].
    destruct a; cbn -[Z.of_nat]; fold (option_acts l); fold (long_acts l);
      rewrite ?Nat2Z.inj_succ; lia.
Qed.

Lemma build_stocks l :
  (forall p, In p l ->
     Client.c_secType (Client.ib_contract p) = "STK"%string) ->
  exists pds,
    Client.build l = inr pds /\
    actions (map (fun pos => (pos, item_action pos)) (map Client.pd_entries pds))
    = map (fun p => SyncLong (Client.c_symbol (Client.ib_contract p))
                      (int_of_float (Client.ib_position p))
                      (Client.ib_avgCost p)) l /\
    error_list (map (fun pos => (pos, item_action pos))
                  (map Client.pd_entries pds)) = [].
Proof.
  induction l as [|p l IH]; intros H; cbn [Client.build].
  - exists []. repeat split.
  - destruct (stock_entries_action p (H p (or_introl eq_refl))) as [Hd Ha].
    destruct IH as (pds & Hb & Hacts & Herr);
      [intros q Hq; apply H; now right|].
    rewrite Hd, Hb. cbn [Py.bind Py.ret]. eexists. split; [reflexivity|].
    cbn [map Client.pd_entries]. rewrite Ha.
    change (actions ((?x, inr ?a) :: ?l)) with (a :: actions l).
    split.
    + unfold actions at 1. cbn [flat_map snd app]. fold (actions
        (map (fun pos => (pos, item_action pos)) (map Client.pd_entries pds))).
      now rewrite Hacts.
    + unfold error_list at 1. cbn [flat_map snd app]. exact Herr.
Qed.

Lemma long_acts_stocks (l : list Client.IBPosition) :
  long_acts (map (fun p => SyncLong (Client.c_symbol (Client.ib_contract p))
                             (int_of_float (Client.ib_position p))
                             (Client.ib_avgCost p)) l)
  = map (fun p => (Client.c_symbol (Client.ib_contract p),
                   (int_of_float (Client.ib_position p), Client.ib_avgCost p))) l /\
  option_acts (map (fun p => SyncLong (Client.c_symbol (Client.ib_contract p))
                               (int_of_float (Client.ib_position p))
                               (Client.ib_avgCost p)) l) = [].
Proof.
  induction l as [|p l [IH1 IH2]]; [split; reflexivity|].
  unfold long_acts, option_acts in *. cbn [map flat_map app].
  rewrite IH1, IH2. split; reflexivity.
Qed.



(** ** Lots that are not the latest of their symbol *)

Lemma loop_invariant (P : Store -> Prop) env :
  (forall clk pos a db0, item_action pos = inr a -> P db0 ->
     P (action_db clk a db0)) ->
  forall l i st, P (st_db st) -> P (st_db (sync_loop env i l st)).
Proof.
  intros Hact. induction l as [|pos l IH]; intros i st Hst; cbn; auto.
  apply IH. rewrite loop_body_outcome.
  destruct (item_outcome env i pos) as [e|a] eqn:E; cbn; auto.
  rewrite apply_action_db. eapply Hact; eauto.
  eapply item_outcome_action; eauto.
Qed.

Lemma action_db_stale_lot clk a db n r :
  stale_lot_at n r db -> stale_lot_at n r (action_db clk a db).
Proof.
  intros (Hwf & Hn & r1 & Hin1 & Hs1 & Hc1 & Hlt).
  split; [now apply action_db_unique|].
  destruct a as [symbol ty strike expiration c p|symbol shares buy_price|];
    cbn [action_db].
  - destruct (sync_option_position_cases clk db symbol ty strike expiration c p)
      as (_ & -> & _). split; auto. exists r1; auto.
  - destruct Hwf as [_ Hwl].
    destruct (sync_long_position_cases clk db symbol shares buy_price)
      as (_ & _ & [(e & He & Hes & Hec & Hmax & -> & _)|(_ & -> & _)]).
    + assert (Hr : In r (long_positions db)) by (eapply nth_error_In; eauto).
      assert (Hne : (l_id r =? l_id e) = false).
      { apply Z.eqb_neq. intros Hid.
        assert (r = e) by (eapply (NoDup_map_eq l_id); eauto). subst e.
        rewrite (Hmax r1 Hin1 (eq_trans Hs1 Hes) Hc1) in Hlt. discriminate. }
      split; [now apply update_where_nth|].
      destruct (l_id r1 =? l_id e) eqn:E1.
      * exists (long_set shares buy_price (now clk) r1). repeat split; auto.
        now apply in_update_where_changed.
      * exists r1. repeat split; auto. now apply in_update_where_kept.
    + split; [now apply nth_error_app_left|].
      exists r1. repeat split; auto. apply in_or_app. now left.
  - split; auto. exists r1; auto.
Qed.

(** X24: [sync_long_position] writes the latest open lot of a symbol only.
    An open lot that has a later open lot of its symbol is never updated by
    a pass: after a successful pass it is in place with its shares and
    price as before, left open when the loop synced its symbol and closed
    otherwise. *)
Theorem stale_lot_is_never_updated env self db positions n r :
  wf_store db ->
  get_positions env = inr positions ->
  success (fst (fst (sync_positions env self db))) = true ->
  nth_error (long_positions db) n = Some r ->
  l_closed r = None ->
  has_newer_lot (long_positions db) r ->
  nth_error (long_positions (snd (sync_positions env self db))) n
  = Some (if existsb (String.eqb (l_symbol r))
               (st_stock_symbols (loop_end env db positions))
          then r else long_close (clock env) r).
Proof.
  intros Hwf Hp Hs Hn Hc Hnew.
  destruct (sync_positions_success _ _ _ _ Hp Hs) as (_ & _ & _ & _ & Hdb & _).
  cbn zeta in Hdb. rewrite Hdb.
  assert (stale_lot_at n r (st_db (loop_end env db positions)))
    as (_ & Hn' & _).
  { unfold loop_end.
    apply (loop_invariant (stale_lot_at n r) env).
    - intros clk pos a db0 _. apply action_db_stale_lot.
    - cbn [st_db]. split; [exact Hwf|]. split; [exact Hn|exact Hnew]. }
  rewrite close_missing_long_positions_eq. cbn [long_positions set_long_positions].
  assert (long_positions
            (fst (close_missing_options (clock env)
                    (st_db (loop_end env db positions))
                    (st_option_ids (loop_end env db positions))))
          = long_positions (st_db (loop_end env db positions))) as ->.
  { rewrite close_missing_options_eq. reflexivity. }
  unfold Sql.update_where. erewrite map_nth_error by eassumption.
  unfold long_missing, l_open. rewrite Hc. cbn.
  destruct (existsb _ _); reflexivity.
Qed.

Lemma stale_lot_is_never_updated_witness :
  nth_error
    (long_positions
       (snd (sync_positions (Scenario.env_of Scenario.doubled_snapshot)
               Scenario.no_service Ledger.history_db))) 0
  = Some (if existsb (String.eqb (l_symbol Ledger.msft_old_lot))
               (st_stock_symbols
                  (loop_end (Scenario.env_of Scenario.doubled_snapshot)
                     Ledger.history_db Scenario.doubled_snapshot))
          then Ledger.msft_old_lot
          else long_close (clock (Scenario.env_of Scenario.doubled_snapshot))
                 Ledger.msft_old_lot).
Proof.
  apply (stale_lot_is_never_updated (Scenario.env_of Scenario.doubled_snapshot)
           Scenario.no_service Ledger.history_db Scenario.doubled_snapshot 0
           Ledger.msft_old_lot).
  - split; cbn; repeat (constructor; [cbn; intuition discriminate|]);
      constructor.
  - reflexivity.
  - reflexivity.
  - reflexivity.
  - reflexivity.
  - exists Scenario.msft_row. repeat split. right. left. reflexivity.
Defined.
